(** * Media organizer and orphan reconciler: a shallow embedding

    Source files embedded here:
    - [scripts/media_organizer.py]  (class [MediaOrganizer])
    - [scripts/cleanup_broken_hardlinks.py]
    - [torrent_search_fixed.py]  (the relevance filter)

    The two scripts are embedded twice.  [Linker] and [Cleanup] follow
    the link structure alone, on an operating system that carries out
    every call the state allows; [Guarded] puts back the log of the
    organizer and the calls that the operating system refuses.

    Python [str] values are modelled as lists of characters over the code
    points 0..255 (the Rocq type [ascii]).  On that alphabet [\d], [\s],
    [str.isspace], [str.lower], [Path.stem], [Path.suffix] are modelled
    exactly; [str.capitalize] is exact on all characters except U+00B5,
    U+00DF and U+00FF, whose upper-case images lie outside the alphabet.
    Python [int] values are modelled as [Z]. *)

From Stdlib Require Import ZArith List Ascii String Bool Lia.
From Stdlib Require Import DecimalString.
From stdpp Require Import gmap strings list fin_maps.

Local Open Scope Z_scope.
Local Open Scope list_scope.

(** ** Characters and strings *)

Module Str.

Abbreviation str := (list ascii).

(** A string literal of the source, as a list of characters. *)
Definition lit (s : string) : str := list_ascii_of_string s.

Definition code (c : ascii) : N := N_of_ascii c.

Definition in_range (lo hi : N) (c : ascii) : bool :=
  ((lo <=? code c) && (code c <=? hi))%N.

(** [\d] on the modelled alphabet: the ten ASCII digits. *)
Definition is_digit (c : ascii) : bool := in_range 48 57 c.

(** [\s] and [str.isspace] on the modelled alphabet: TAB..CR, FS..US,
    SPACE, NEL (0x85) and NBSP (0xA0). *)
Definition is_space (c : ascii) : bool :=
  in_range 9 13 c || in_range 28 32 c || (code c =? 133)%N || (code c =? 160)%N.

Definition is_upper (c : ascii) : bool :=
  in_range 65 90 c || in_range 192 214 c || in_range 216 222 c.

Definition is_lower_with_upper (c : ascii) : bool :=
  in_range 97 122 c || in_range 224 246 c || in_range 248 254 c.

(** [str.lower] on one character. *)
Definition lower_char (c : ascii) : ascii :=
  if is_upper c then ascii_of_N (code c + 32) else c.

(** Upper-casing of one character, as [str.capitalize] applies it to the
    first character of a word. *)
Definition upper_char (c : ascii) : ascii :=
  if is_lower_with_upper c then ascii_of_N (code c - 32) else c.

(** [s.lower()] *)
Definition lower (s : str) : str := map lower_char s.

(** [s.capitalize()]: first character upper-cased, the rest lower-cased. *)
Definition capitalize (s : str) : str :=
  match s with
  | [] => []
  | c :: r => upper_char c :: lower r
  end.

Definition char_eqb (a b : ascii) : bool := Ascii.eqb a b.

(** Membership of a character in a literal character set. *)
Definition in_set (set : str) (c : ascii) : bool :=
  existsb (char_eqb c) set.

Fixpoint drop_while (P : ascii -> bool) (s : str) : str :=
  match s with
  | [] => []
  | c :: r => if P c then drop_while P r else s
  end.

(** [s.strip(chars)] for a character predicate. *)
Definition strip_with (P : ascii -> bool) (s : str) : str :=
  rev (drop_while P (rev (drop_while P s))).

(** [s.strip()] *)
Definition strip (s : str) : str := strip_with is_space s.

(** [re.sub(r'[set]+', ' ', s)]: every maximal run of characters
    satisfying [P] becomes one space.  [in_run] records that the
    previous character already belonged to the run being replaced. *)
Fixpoint sub_runs (P : ascii -> bool) (in_run : bool) (s : str) : str :=
  match s with
  | [] => []
  | c :: r =>
      if P c
      then (if in_run then sub_runs P true r else " "%char :: sub_runs P true r)
      else c :: sub_runs P false r
  end.

(** [re.sub(r'[set]', '', s)]: every character satisfying [P] is removed. *)
Definition remove_chars (P : ascii -> bool) (s : str) : str :=
  List.filter (fun c => negb (P c)) s.

Definition cons_word (w : str) (ws : list str) : list str :=
  match w with [] => ws | _ => w :: ws end.

(** The scan behind [s.split()]: the word being read at the head of the
    string, and the complete words after it. *)
Fixpoint words (s : str) : str * list str :=
  match s with
  | [] => ([], [])
  | c :: r =>
      let '(w, ws) := words r in
      if is_space c then ([], cons_word w ws) else (c :: w, ws)
  end.

(** [s.split()]: the maximal runs of non-whitespace characters. *)
Definition split_ws (s : str) : list str :=
  let '(w, ws) := words s in cons_word w ws.

(** [sep.join(ws)] *)
Fixpoint join (sep : str) (ws : list str) : str :=
  match ws with
  | [] => []
  | [w] => w
  | w :: rest => w ++ sep ++ join sep rest
  end.

(** [int(s)] on a string of ASCII digits. *)
Definition digit_val (c : ascii) : Z := Z.of_N (code c) - 48.

Definition int_of_digits (s : str) : Z :=
  fold_left (fun acc c => 10 * acc + digit_val c) s 0.

(** [str(z)] for an integer. *)
Definition str_of_int (z : Z) : str :=
  lit (NilZero.string_of_int (Z.to_int z)).

(** [f"{z:02d}"]: sign, then the decimal digits padded with zeros to a
    total width of two. *)
Definition fmt_02d (z : Z) : str :=
  if z <? 0 then str_of_int z
  else if z <? 10 then "0"%char :: str_of_int z
  else str_of_int z.

Definition str_eqb (a b : str) : bool := bool_decide (a = b).

End Str.

(** ** [pathlib] name operations *)

Module PathName.
Import Str.

(** Splitting at every occurrence of a separator character; the scan has
    the same shape as [Str.words] but keeps empty pieces. *)
Fixpoint split_on (sep : ascii) (s : str) : str * list str :=
  match s with
  | [] => ([], [])
  | c :: r =>
      let '(w, ws) := split_on sep r in
      if char_eqb c sep then ([], w :: ws) else (c :: w, ws)
  end.

(** The parts of [PurePosixPath(s)] below the root: empty components and
    ["."] components are dropped. *)
Definition parts (s : str) : list str :=
  let '(w, ws) := split_on "/"%char s in
  List.filter (fun c => negb (str_eqb c [] || str_eqb c (lit "."))) (w :: ws).

(** [Path(s).name]: the final component, or the empty string. *)
Definition name (s : str) : str := List.last (parts s) [].

(** [name.rfind('.')]: index of the last dot, if any. *)
Fixpoint rfind_dot (s : str) : option nat :=
  match s with
  | [] => None
  | c :: r =>
      match rfind_dot r with
      | Some i => Some (S i)
      | None => if char_eqb c "."%char then Some O else None
      end
  end.

(** The index at which [stem] and [suffix] cut a name: the last dot,
    provided it is neither the first nor the last character. *)
Definition cut (nm : str) : option nat :=
  match rfind_dot nm with
  | Some i => if ((0 <? i) && (i <? length nm - 1))%nat then Some i else None
  | None => None
  end.

(** [Path(nm).suffix] for a final component [nm] (pathlib up to
    Python 3.13, where a trailing dot is not a suffix). *)
Definition suffix_of_name (nm : str) : str :=
  match cut nm with Some i => drop i nm | None => [] end.

(** [Path(nm).stem] for a final component [nm]. *)
Definition stem_of_name (nm : str) : str :=
  match cut nm with Some i => take i nm | None => nm end.

Definition stem (s : str) : str := stem_of_name (name s).
Definition suffix (s : str) : str := suffix_of_name (name s).

End PathName.

(** ** [media_organizer.py]: the classifier *)

Module Organizer.
Import Str PathName.

(** The [info] dictionary built by [parse_filename]. *)
Record info := mk_info {
  original_name : str;
  title : str;
  year : option Z;
  season : option Z;
  episode : option Z;
  resolution : str;
  is_tv : bool
}.

(** [lowercase_words] of [title_case]. *)
Definition lowercase_words : list str :=
  map lit ["a"; "an"; "and"; "as"; "at"; "but"; "by"; "for"; "from";
           "in"; "of"; "on"; "or"; "the"; "to"; "with"]%string.

Definition in_words (w : str) (ws : list str) : bool := existsb (str_eqb w) ws.

(** The body of the loop of [title_case] for the word at index [i] of
    [n] words. *)
Definition title_word (n i : nat) (word : str) : str :=
  if ((i =? 0) || (i =? n - 1))%nat then capitalize word
  else if in_words (lower word) lowercase_words then lower word
  else capitalize word.

(** [title_case(text)] *)
Definition title_case (text : str) : str :=
  let ws := split_ws text in
  join (lit " ") (imap (title_word (length ws)) ws).

(** *** The three regular expressions

    Each matcher follows the backtracking order of the pattern: for a
    position it lists or tries the alternatives in the order the regex
    engine prefers them, and [search] tries positions from the left. *)

(** The ways [\d{1,2}] matches at the head of [s], greedy first: the
    matched text and what follows it. *)
Definition digits_1_2 (s : str) : list (str * str) :=
  match s with
  | d1 :: r1 =>
      if is_digit d1 then
        match r1 with
        | d2 :: r2 => (if is_digit d2 then [([d1; d2], r2)] else []) ++ [([d1], r1)]
        | [] => [([d1], r1)]
        end
      else []
  | [] => []
  end.

(** [[Ss]] and [[Ee]] under [re.IGNORECASE]. *)
Definition is_Ss (c : ascii) : bool := in_set (lit "Ss") c.
Definition is_Ee (c : ascii) : bool := in_set (lit "Ee") c.

(** All matches of [[Ee](\d{1,2})] at the head of [s] after group 1. *)
Definition se_tail (g1 : str) (s : str) : list (str * str * str) :=
  match s with
  | e :: r =>
      if is_Ee e then map (fun '(g2, rest) => (g1, g2, rest)) (digits_1_2 r) else []
  | [] => []
  end.

(** [season_episode_pattern] anchored at the head of [s]: groups 1 and 2
    of the preferred match and the text after it. *)
Definition se_match_here (s : str) : option (str * str * str) :=
  match s with
  | c :: r =>
      if is_Ss c
      then head (flat_map (fun '(g1, r1) => se_tail g1 r1) (digits_1_2 r))
      else None
  | [] => None
  end.

(** The result of a search: text before the match, the match data, text
    after the match. *)
Definition found (A : Type) : Type := (str * A * str)%type.

(** [re.search(season_episode_pattern, s, re.IGNORECASE)] *)
Fixpoint se_search (s : str) : option (found (str * str)) :=
  match se_match_here s with
  | Some (g1, g2, rest) => Some ([], (g1, g2), rest)
  | None =>
      match s with
      | [] => None
      | c :: r =>
          match se_search r with
          | Some (pre, g, rest) => Some (c :: pre, g, rest)
          | None => None
          end
      end
  end.

(** [(19|20)\d{2}] at the head of [s]. *)
Definition year_core (s : str) : option (str * str) :=
  match s with
  | a :: b :: c :: d :: r =>
      if ((char_eqb a "1" && char_eqb b "9") || (char_eqb a "2" && char_eqb b "0"))
         && is_digit c && is_digit d
      then Some ([a; b; c; d], r) else None
  | _ => None
  end.

Definition is_open (c : ascii) : bool := in_set (lit "([") c.
Definition is_close (c : ascii) : bool := in_set (lit ")]") c.

(** The trailing [[\)\]]?], greedy: [m] is the text matched so far. *)
Definition year_close (m : str) (s : str) : str * str :=
  match s with
  | c :: r => if is_close c then (m ++ [c], r) else (m, s)
  | [] => (m, s)
  end.

(** [year_pattern] anchored at the head of [s]: group 0 and the text
    after it.  The optional opening bracket is tried first; when the
    digits do not follow it, the pattern is retried without it. *)
Definition year_match_here (s : str) : option (str * str) :=
  let bare :=
    match year_core s with
    | Some (y, r) => Some (year_close y r)
    | None => None
    end in
  match s with
  | c :: r =>
      if is_open c then
        match year_core r with
        | Some (y, r') => Some (year_close (c :: y) r')
        | None => bare
        end
      else bare
  | [] => bare
  end.

(** [re.search(year_pattern, s)] *)
Fixpoint year_search (s : str) : option (found str) :=
  match year_match_here s with
  | Some (g0, rest) => Some ([], g0, rest)
  | None =>
      match s with
      | [] => None
      | c :: r =>
          match year_search r with
          | Some (pre, g, rest) => Some (c :: pre, g, rest)
          | None => None
          end
      end
  end.

(** A literal matched at the head of [s] ignoring case: the matched text
    as it stands in [s], and the rest. *)
Fixpoint literal_ci (l : str) (s : str) : option (str * str) :=
  match l, s with
  | [], _ => Some ([], s)
  | a :: l', c :: r =>
      if char_eqb (lower_char a) (lower_char c) then
        match literal_ci l' r with
        | Some (m, rest) => Some (c :: m, rest)
        | None => None
        end
      else None
  | _ :: _, [] => None
  end.

(** [resolution_pattern] anchored at the head of [s]: the alternatives
    in the order of the pattern. *)
Definition res_match_here (s : str) : option (str * str) :=
  head (omap (fun l => literal_ci (lit l) s) ["720p"; "1080p"; "2160p"; "4K"]%string).

(** [re.search(resolution_pattern, s, re.IGNORECASE)] *)
Fixpoint res_search (s : str) : option (found str) :=
  match res_match_here s with
  | Some (g1, rest) => Some ([], g1, rest)
  | None =>
      match s with
      | [] => None
      | c :: r =>
          match res_search r with
          | Some (pre, g, rest) => Some (c :: pre, g, rest)
          | None => None
          end
      end
  end.

(** [re.split(pattern, name)[0]] for a pattern that matches no empty
    string: the text before the first match, or the whole of [name]. *)
Definition split_head {A} (search : str -> option (found A)) (name : str) : str :=
  match search name with
  | Some (pre, _, _) => pre
  | None => name
  end.

(** The title clean-up and casing at the end of [parse_filename]. *)
Definition clean_title (t : str) : str :=
  let t1 := strip (sub_runs (in_set (lit "._-")) false t) in
  let t2 := sub_runs is_space false t1 in
  title_case t2.

(** [parse_filename(filename)] *)
Definition parse_filename (filename : str) : info :=
  let name := stem filename in
  let '(raw_title, yr, se, tv) :=
    match se_search name with
    | Some (_, (g1, g2), _) =>
        (split_head se_search name, None,
         Some (int_of_digits g1, int_of_digits g2), true)
    | None =>
        match year_search name with
        | Some (_, g0, _) =>
            (split_head year_search name,
             Some (int_of_digits (strip_with (in_set (lit "()[]")) g0)), None, false)
        | None => (name, None, None, false)
        end
    end in
  {| original_name := name;
     title := clean_title raw_title;
     year := yr;
     season := fst <$> se;
     episode := snd <$> se;
     resolution :=
       match res_search name with Some (_, g1, _) => g1 | None => [] end;
     is_tv := tv |}.

End Organizer.

(** ** The file system

    The only state of the program.  A file is a directory entry naming
    an inode, identified as the operating system does by the pair
    [(st_dev, st_ino)]; a directory entry records the device it lives
    on.  Hard links are several entries naming one inode.  Access
    permissions, symbolic links and file contents are not modelled: the
    failures that remain are missing entries, entries of the wrong kind,
    existing targets, non-empty directories and links across devices. *)

Module Fs.
Import Str.

Abbreviation path := (list str).
Abbreviation inode := (nat * nat)%type.

Record fs := mk_fs {
  files : gmap path inode;
  dirs : gmap path nat
}.

Inductive oserror :=
  ENOENT | EEXIST | ENOTDIR | EISDIR | EXDEV | EPERM | ENOTEMPTY | EOF.

(** Code that mutates the file system and may raise: the state reached
    is kept when an exception is raised, as [try]/[except] sees it. *)
Definition M (A : Type) : Type := fs -> (oserror + A) * fs.

Definition ret {A} (a : A) : M A := fun s => (inr a, s).
Definition raise {A} (e : oserror) : M A := fun s => (inl e, s).
Definition bind {A B} (m : M A) (k : A -> M B) : M B :=
  fun s => match m s with
           | (inr a, s') => k a s'
           | (inl e, s') => (inl e, s')
           end.
Definition try_except {A} (m : M A) (handler : oserror -> M A) : M A :=
  fun s => match m s with
           | (inr a, s') => (inr a, s')
           | (inl e, s') => handler e s'
           end.
Definition get : M fs := fun s => (inr s, s).
Definition put (s' : fs) : M unit := fun _ => (inr tt, s').

Notation "'let*' x := m 'in' k" := (bind m (fun x => k))
  (at level 10, x name, m at level 100, k at level 200).
Notation "m ;; k" := (bind m (fun _ => k))
  (at level 100, k at level 200, right associativity).

(** [p.parent] *)
Definition parent (p : path) : path := removelast p.

Definition is_file (s : fs) (p : path) : bool := bool_decide (is_Some (files s !! p)).
Definition is_dir (s : fs) (p : path) : bool := bool_decide (is_Some (dirs s !! p)).
(** [p.exists()] *)
Definition exists_ (s : fs) (p : path) : bool := is_file s p || is_dir s p.

(** The error of resolving a parent that is not a directory. *)
Definition no_dir (s : fs) (p : path) : oserror :=
  if is_file s p then ENOTDIR else ENOENT.

(** [os.mkdir(p)]: the new directory lives on the device of its parent. *)
Definition os_mkdir (p : path) : M unit :=
  let* s := get in
  if exists_ s p then raise EEXIST
  else
    match dirs s !! parent p with
    | None => raise (no_dir s (parent p))
    | Some d => put {| files := files s; dirs := <[p := d]> (dirs s) |}
    end.

(** [os.mkdir] as [Path.mkdir] wraps it when [parents] is false and
    [exist_ok] is true. *)
Definition mkdir_exist_ok (p : path) : M unit :=
  try_except (os_mkdir p)
    (fun e => match e with
              | ENOENT => raise ENOENT
              | _ => let* s := get in if is_dir s p then ret tt else raise e
              end).

(** [p.mkdir(parents=True, exist_ok=True)], by recursion on the path read
    from its last component: [rp] is [p] reversed. *)
Fixpoint mkdir_parents_rev (rp : path) : M unit :=
  let p := rev rp in
  try_except (os_mkdir p)
    (fun e => match e with
              | ENOENT =>
                  match rp with
                  | [] => raise ENOENT
                  | _ :: rparent => mkdir_parents_rev rparent ;; mkdir_exist_ok p
                  end
              | _ => let* s := get in if is_dir s p then ret tt else raise e
              end).

Definition mkdir_parents (p : path) : M unit := mkdir_parents_rev (rev p).

(** [p.unlink()] *)
Definition unlink (p : path) : M unit :=
  let* s := get in
  match files s !! p with
  | Some _ => put {| files := delete p (files s); dirs := dirs s |}
  | None => raise (if is_dir s p then EISDIR else ENOENT)
  end.

(** [os.link(src, dst)] *)
Definition os_link (src dst : path) : M unit :=
  let* s := get in
  match files s !! src with
  | None => raise (if is_dir s src then EPERM else ENOENT)
  | Some ino =>
      match dirs s !! parent dst with
      | None => raise (no_dir s (parent dst))
      | Some d =>
          if exists_ s dst then raise EEXIST
          else if bool_decide (ino.1 = d)
          then put {| files := <[dst := ino]> (files s); dirs := dirs s |}
          else raise EXDEV
      end
  end.

(** Every path that names an entry. *)
Definition entries (s : fs) : list path :=
  elements (dom (files s) ∪ dom (dirs s)).

(** The entries directly inside the directory [d]. *)
Definition children (s : fs) (d : path) : list path :=
  List.filter (fun p => bool_decide (p ≠ [] ∧ parent p = d)) (entries s).

(** [any(d.iterdir())] *)
Definition any_iterdir (d : path) : M bool :=
  let* s := get in
  if is_dir s d
  then ret (match children s d with [] => false | _ => true end)
  else raise (no_dir s d).

(** [d.rmdir()] *)
Definition rmdir (d : path) : M unit :=
  let* s := get in
  if is_dir s d then
    match children s d with
    | [] => put {| files := files s; dirs := delete d (dirs s) |}
    | _ => raise ENOTEMPTY
    end
  else raise (no_dir s d).

(** [st_nlink] of an inode: the number of entries naming it. *)
Definition nlink (s : fs) (ino : inode) : nat :=
  size (filter (fun kv : path * inode => kv.2 = ino) (files s)).

(** The directories strictly above [p], from the root down. *)
Definition ancestors (p : path) : list path :=
  map (fun n => take n p) (seq 0 (length p)).

(** [p] lies strictly below [root] and every directory on the way from
    [root] to [p] exists: what the tree walks of [rglob] and [os.walk]
    reach. *)
Definition reaches (s : fs) (root p : path) : bool :=
  bool_decide (root `prefix_of` p ∧ root ≠ p)
  && forallb (fun a => is_dir s a || (length a <? length root)%nat) (ancestors p).

(** The regular files found by walking the tree below [root]. *)
Definition walk_files (s : fs) (root : path) : list path :=
  List.filter (fun p => reaches s root p && is_file s p) (entries s).

End Fs.

(** ** [media_organizer.py]: path resolution and linking *)

Module Linker.
Import Str PathName Organizer Fs.

Definition abs_path (s : string) : path := parts (lit s).

Definition DOWNLOAD_DIR : path := abs_path "/mnt/storage/downloads/complete".
Definition MOVIES_DIR : path := abs_path "/mnt/storage/media/movies".
Definition TV_DIR : path := abs_path "/mnt/storage/media/tv".

Definition VIDEO_EXTENSIONS : list str :=
  map lit [".mkv"; ".mp4"; ".avi"; ".mov"; ".m4v"; ".wmv"; ".flv"; ".webm";
           ".ts"; ".m2ts"]%string.

(** [base / s] for a string [s]: an absolute [s] replaces [base]. *)
Definition path_join (base : path) (s : str) : path :=
  match s with
  | "/"%char :: _ => parts s
  | _ => base ++ parts s
  end.

(** [p.name] and [p.suffix] of a path object. *)
Definition path_name (p : path) : str := List.last p [].
Definition path_suffix (p : path) : str := suffix_of_name (path_name p).

(** The character class of the sanitising [re.sub]: less-than,
    greater-than, colon, double quote (code 34), slash, backslash, bar,
    question mark and star. *)
Definition unsafe_chars : str := lit "<>:" ++ ["034"%char] ++ lit "/\|?*".
Definition is_unsafe (c : ascii) : bool := in_set unsafe_chars c.
Definition sanitize (s : str) : str := remove_chars is_unsafe s.

(** [create_hardlink(source_path, dest_path)]; the log lines are not
    modelled. *)
Definition create_hardlink (source_path dest_path : path) : M bool :=
  try_except
    (mkdir_parents (parent dest_path) ;;
     let* s := get in
     (if exists_ s dest_path then unlink dest_path else ret tt) ;;
     os_link source_path dest_path ;;
     ret true)
    (fun _ => ret false).

(** [dir_name] of [organize_movie], after sanitising. *)
Definition movie_dir_name (i : info) : str :=
  let dir_name :=
    match year i with
    | Some y => if y =? 0 then title i
                else title i ++ lit " (" ++ str_of_int y ++ lit ")"
    | None => title i
    end in
  sanitize dir_name.

(** [dest_path] of [organize_movie]. *)
Definition movie_dest (file_path : path) (i : info) : path :=
  let movie_dir := path_join MOVIES_DIR (movie_dir_name i) in
  path_join movie_dir (path_name file_path).

Definition organize_movie (file_path : path) (i : info) : M bool :=
  create_hardlink file_path (movie_dest file_path i).

(** [show_name], the season directory name and [episode_name] of
    [organize_tv_show]. *)
Definition show_name (i : info) : str := sanitize (title i).
Definition season_dir_name (season : Z) : str := lit "Season " ++ fmt_02d season.
Definition episode_name (file_path : path) (i : info) (season episode : Z) : str :=
  show_name i ++ lit " - S" ++ fmt_02d season ++ lit "E" ++ fmt_02d episode
    ++ path_suffix file_path.

(** [dest_path] of [organize_tv_show]; formatting [None] with [:02d]
    raises, which is [None] here. *)
Definition tv_dest (file_path : path) (i : info) : option path :=
  match season i, episode i with
  | Some se, Some ep =>
      let show_dir := path_join (path_join TV_DIR (show_name i)) (season_dir_name se) in
      Some (path_join show_dir (episode_name file_path i se ep))
  | _, _ => None
  end.

(** The destination [organize_file] links [file_path] to. *)
Definition dest_of (file_path : path) : option path :=
  let i := parse_filename (path_name file_path) in
  if is_tv i then tv_dest file_path i else Some (movie_dest file_path i).

(** [organize_file(file_path)]; an exception raised outside
    [create_hardlink] would propagate, here as [EPERM]. *)
Definition organize_file (file_path : path) : M bool :=
  match dest_of file_path with
  | Some d => create_hardlink file_path d
  | None => raise EPERM
  end.

Definition has_extension (exts : list str) (p : path) : bool :=
  in_words (lower (path_suffix p)) exts.

(** [find_video_files(directory)] *)
Definition find_video_files (s : fs) (directory : path) : list path :=
  List.filter (has_extension VIDEO_EXTENSIONS) (walk_files s directory).

(** The loop of [organize_directory]: the number of files organised. *)
Fixpoint organize_all (video_files : list path) (organized_count : nat) : M nat :=
  match video_files with
  | [] => ret organized_count
  | f :: rest =>
      let* ok := organize_file f in
      organize_all rest (if ok then S organized_count else organized_count)
  end.

(** [organize_directory(target_dir)]: the count of organised files and
    the number of video files found. *)
Definition organize_directory (target_dir : path) : M (nat * nat) :=
  let* s := get in
  if negb (exists_ s target_dir) then ret (O, O)
  else
    let video_files := find_video_files s target_dir in
    let* n := organize_all video_files O in
    ret (n, length video_files).

End Linker.

(** ** [cleanup_broken_hardlinks.py] *)

Module Cleanup.
Import Str PathName Organizer Fs Linker.

Definition downloads_dir : path := abs_path "/mnt/storage/downloads/complete".

Definition ORPHAN_EXTENSIONS : list str :=
  map lit [".mkv"; ".mp4"; ".avi"; ".mov"]%string.

(** [file_path.stat().st_nlink] of a regular file. *)
Definition st_nlink (s : fs) (p : path) : option nat :=
  nlink s <$> files s !! p.

(** [find_broken_hardlinks()] *)
Definition find_broken_hardlinks (s : fs) : list path :=
  List.filter (fun p => has_extension ORPHAN_EXTENSIONS p
                   && bool_decide (st_nlink s p = Some 1%nat))
         (walk_files s downloads_dir).

(** The body of the deletion loop for one orphan, with its [try] and
    [except]. *)
Definition delete_orphan (file_path : path) : M unit :=
  try_except
    (unlink file_path ;;
     let parent := parent file_path in
     if bool_decide (parent ≠ downloads_dir) then
       let* nonempty := any_iterdir parent in
       if negb nonempty then rmdir parent else ret tt
     else ret tt)
    (fun _ => ret tt).

Fixpoint delete_all (orphaned : list path) : M unit :=
  match orphaned with
  | [] => ret tt
  | p :: rest => delete_orphan p ;; delete_all rest
  end.

(** The test made on the operator's answer. *)
Definition affirmative (response : str) : bool :=
  str_eqb (lower (strip response)) (lit "y").

(** [cleanup_orphaned_files()]; [answer] is the line [input] returns, or
    [None] at end of input, where [input] raises. *)
Definition cleanup_orphaned_files (answer : option str) : M unit :=
  let* s := get in
  match find_broken_hardlinks s with
  | [] => ret tt
  | orphaned =>
      match answer with
      | None => raise EOF
      | Some response =>
          if affirmative response then delete_all orphaned else ret tt
      end
  end.

End Cleanup.

(** ** The properties of the specification, in its own words *)

Module Spec.
Import Str PathName Organizer Fs Linker Cleanup.

(** One or two decimal digits. *)
Definition digits12 (g : str) : Prop :=
  Forall (fun c => is_digit c = true) g ∧ (length g = 1 ∨ length g = 2)%nat.

(** [t] begins with a token [S<n>E<m>], any case, whose digit groups are
    [g1] and [g2], followed by [post]. *)
Definition se_token_here (t g1 g2 post : str) : Prop :=
  ∃ c e, t = c :: g1 ++ e :: g2 ++ post
         ∧ is_Ss c = true ∧ is_Ee e = true ∧ digits12 g1 ∧ digits12 g2.

(** [s] contains such a token right after [pre]. *)
Definition se_token_at (s pre g1 g2 post : str) : Prop :=
  ∃ t, s = pre ++ t ∧ se_token_here t g1 g2 post.

Definition has_se_token (s : str) : Prop :=
  ∃ pre g1 g2 post, se_token_at s pre g1 g2 post.

(** The first token of [s]: no token starts to its left, and no token at
    the same place has a longer second digit group. *)
Definition first_se_token (s pre g1 g2 post : str) : Prop :=
  se_token_at s pre g1 g2 post
  ∧ ∀ pre' g1' g2' post', se_token_at s pre' g1' g2' post' →
      (length pre <= length pre')%nat
      ∧ (length pre' = length pre → (length g2' <= length g2)%nat).

(** A 4-digit year in the range 1900..2099. *)
Definition year_token (y : str) : Prop :=
  length y = 4%nat ∧ Forall (fun c => is_digit c = true) y
  ∧ 1900 <= int_of_digits y <= 2099.

(** [s] contains a year token right after [pre]. *)
Definition year_at (s pre y post : str) : Prop :=
  s = pre ++ y ++ post ∧ year_token y.

(** No character of [s] is filesystem-unsafe. *)
Definition safe (s : str) : Prop := Forall (fun c => is_unsafe c = false) s.

(** The name of a directory entry: not empty, not ["."], no slash. *)
Definition entry_name (nm : str) : Prop :=
  nm ≠ [] ∧ nm ≠ lit "." ∧ Forall (fun c => c ≠ "/"%char) nm.

(** A word as [split] produces it: not empty, no whitespace. *)
Definition word (w : str) : Prop :=
  w ≠ [] ∧ Forall (fun c => is_space c = false) w.

(** Text of ASCII characters only (code points 0..127). *)
Definition ascii_text (s : str) : Prop :=
  Forall (fun c => in_range 0 127 c = true) s.

End Spec.

(** ** Sample inputs *)

Module Samples.
Import Str PathName Organizer Fs Linker Cleanup.

Definition rick : str := lit "rick.and.morty.s08e01.1080p.web.h264.mkv".
Definition odyssey : str := lit "2001 A Space Odyssey (1968).mkv".
Definition matrix : str := lit "The.Matrix.(1999).1080p.mkv".
Definition special : str := lit "show.s00e00.mkv".
Definition doctor : str := lit "Doctor.Who.2005.S01E02.720p.mkv".
Definition two_tokens : str := lit "Show.S01E02.S03E04.mkv".
Definition what : str := lit "what?.mkv".

(** A staging tree holding one episode, with the library roots on the
    device [dev_lib]. *)
Definition tree (dev_lib : nat) : fs :=
  {| files := {[ DOWNLOAD_DIR ++ [rick] := (1, 7)%nat ]};
     dirs := list_to_map
               (((fun p => (p, 1%nat)) <$> (DOWNLOAD_DIR :: ancestors DOWNLOAD_DIR))
                ++ ((fun p => (p, dev_lib)) <$> [TV_DIR; MOVIES_DIR; parent TV_DIR])) |}.

Definition rick_src : path := DOWNLOAD_DIR ++ [rick].
Definition rick_dest : path :=
  TV_DIR ++ [lit "Rick and Morty"; lit "Season 08"; lit "Rick and Morty - S08E01.mkv"].

(** The same tree with the library on device 2, where an earlier copy
    already occupies the destination of the episode. *)
Definition stale_tree : fs :=
  {| files := <[ rick_dest := (2, 9)%nat ]> (files (tree 2));
     dirs := <[ parent rick_dest := 2%nat ]>
               (<[ parent (parent rick_dest) := 2%nat ]> (dirs (tree 2))) |}.

(** A tree in which the episode already lies at its destination and
    nowhere else. *)
Definition library_only : fs :=
  {| files := {[ rick_dest := (2, 9)%nat ]};
     dirs := dirs stale_tree |}.

(** The first tree after the episode has been organised once. *)
Definition organized : fs := (organize_file rick_src (tree 1)).2.

End Samples.

(** ** The two scripts in an environment that can fail

    [Linker] and [Cleanup] leave the log of the organizer out and take
    the operating system to carry out every call that the modelled state
    allows.  Here the same functions are embedded once more with both
    put back.  The environment [env] says which calls the operating
    system refuses (for want of a permission, on a read-only file
    system, ...) and how each call of [log] ends.  A refused call raises
    and changes nothing; the exception stands as [EPERM], since the code
    never tells one exception from another except [mkdir], which tells
    [FileNotFoundError] from the rest.  What the scripts print to the
    console is not modelled. *)

Module Guarded.
Import Str PathName Organizer Fs Linker Cleanup Samples.

(** The calls to the operating system that the two scripts make. *)
Inductive syscall :=
  | Mkdir (p : path)
  | Stat (p : path)
  | Unlink (p : path)
  | Link (src dst : path)
  | Scandir (p : path)
  | Rmdir (p : path).

(** The lines of the log, named by the place that writes them. *)
Inductive message :=
  | Processing (name : str)
  | Parsed_as (i : info)
  | Hard_linked (source_name : str) (dest_path : path)
  | Failed_to_link (source_name : str) (e : oserror)
  | Does_not_exist (target_dir : path)
  | Organizing_files_in (target_dir : path)
  | No_video_files_found
  | Found_video_files (n : nat)
  | Successfully_organized (organized_count total : nat).

(** How a call of [log] ends: the line is appended; or an exception is
    raised before the log file is opened ([date] or [print] fails, or
    the file cannot be opened); or one is raised once it is open (the
    [write] fails). *)
Inductive log_result :=
  | Appended
  | Raises_before_open
  | Raises_after_open.

Record env := mk_env {
  refuses : syscall -> bool;
  log_result_of : message -> log_result
}.

(** An environment in which the file tree can be read: no call that asks
    for the status of a path or lists a directory is refused.  The tree
    walks of the two scripts ([os.walk], [rglob] with [is_file] and
    [stat]) are embedded for such environments only, as
    [find_video_files] and [find_broken_hardlinks]. *)
Definition readable (E : env) : Prop :=
  forall p, refuses E (Stat p) = false /\ refuses E (Scandir p) = false.

Definition LOG_DIR : path := abs_path "/home/matthewhans/mediaserver-enhanced/logs".

(** [self.log_file] *)
Definition log_file : path := path_join LOG_DIR (lit "media_organizer.log").

(** An inode number that no entry of the file system uses. *)
Definition fresh_ino (s : fs) : nat :=
  S (list_max (map (fun kv : path * inode => kv.2.2) (map_to_list (files s)))).

(** [open(p, 'a')] with the [close] that ends the [with] block: a file
    that is missing is created, on the device of its directory. *)
Definition open_append (p : path) : M unit :=
  let* s := get in
  if is_file s p then ret tt
  else if is_dir s p then raise EISDIR
  else
    match dirs s !! parent p with
    | None => raise (no_dir s (parent p))
    | Some d => put {| files := <[p := (d, fresh_ino s)]> (files s); dirs := dirs s |}
    end.

(** What a run of [m] guarantees from a state that satisfies [P]: [Q]
    of the value and the state when it returns, [X] of the exception and
    the state when it raises. *)
Definition triple {A} (P : fs -> Prop) (m : M A)
    (Q : A -> fs -> Prop) (X : oserror -> fs -> Prop) : Prop :=
  forall s, P s ->
    match m s with
    | (inr a, s') => Q a s'
    | (inl e, s') => X e s'
    end.

(** A step that changes no file entry outside [T] and removes no
    directory. *)
Definition step (T : path -> Prop) (s s' : fs) : Prop :=
  (forall q, ~ T q -> files s' !! q = files s !! q) /\ dirs s ⊆ dirs s'.

(** A run keeps to [T] when, from any state reached by such steps, it
    ends in one, whether it returns or raises. *)
Definition keeps_to {A} (T : path -> Prop) (m : M A) : Prop :=
  forall s0, triple (step T s0) m (fun _ => step T s0) (fun _ => step T s0).

Section Environment.
Variable E : env.

(** A call that the state allows is carried out unless the operating
    system refuses it. *)
Definition guard {A} (c : syscall) (m : M A) : M A :=
  fun s => match m s with
           | (inr a, s') => if refuses E c then (inl EPERM, s) else (inr a, s')
           | (inl e, s') => (inl e, s')
           end.

Definition os_mkdir (p : path) : M unit := guard (Mkdir p) (Fs.os_mkdir p).

(** [p.is_dir()] and [p.exists()], which ask for the status of [p]. *)
Definition path_is_dir (p : path) : M bool :=
  guard (Stat p) (let* s := get in ret (is_dir s p)).
Definition path_exists (p : path) : M bool :=
  guard (Stat p) (let* s := get in ret (exists_ s p)).

Definition mkdir_exist_ok (p : path) : M unit :=
  try_except (os_mkdir p)
    (fun e => match e with
              | ENOENT => raise ENOENT
              | _ => let* d := path_is_dir p in if d then ret tt else raise e
              end).

Fixpoint mkdir_parents_rev (rp : path) : M unit :=
  let p := rev rp in
  try_except (os_mkdir p)
    (fun e => match e with
              | ENOENT =>
                  match rp with
                  | [] => raise ENOENT
                  | _ :: rparent => mkdir_parents_rev rparent ;; mkdir_exist_ok p
                  end
              | _ => let* d := path_is_dir p in if d then ret tt else raise e
              end).

(** [p.mkdir(parents=True, exist_ok=True)] *)
Definition mkdir_parents (p : path) : M unit := mkdir_parents_rev (rev p).

Definition unlink (p : path) : M unit := guard (Unlink p) (Fs.unlink p).
Definition os_link (src dst : path) : M unit := guard (Link src dst) (Fs.os_link src dst).
Definition any_iterdir (d : path) : M bool := guard (Scandir d) (Fs.any_iterdir d).
Definition rmdir (d : path) : M unit := guard (Rmdir d) (Fs.rmdir d).

(** [log(message)] *)
Definition log (message : message) : M unit :=
  match log_result_of E message with
  | Appended => open_append log_file
  | Raises_before_open => raise EPERM
  | Raises_after_open => open_append log_file ;; raise EPERM
  end.

(** [create_hardlink(source_path, dest_path)] *)
Definition create_hardlink (source_path dest_path : path) : M bool :=
  try_except
    (mkdir_parents (parent dest_path) ;;
     let* there := path_exists dest_path in
     (if there then unlink dest_path else ret tt) ;;
     os_link source_path dest_path ;;
     log (Hard_linked (path_name source_path) dest_path) ;;
     ret true)
    (fun e => log (Failed_to_link (path_name source_path) e) ;; ret false).

(** [organize_file(file_path)], with [organize_movie] and
    [organize_tv_show] as [dest_of] puts them together. *)
Definition organize_file (file_path : path) : M bool :=
  log (Processing (path_name file_path)) ;;
  let info := parse_filename (path_name file_path) in
  log (Parsed_as info) ;;
  match dest_of file_path with
  | Some d => create_hardlink file_path d
  | None => raise EPERM
  end.

Fixpoint organize_all (video_files : list path) (organized_count : nat) : M nat :=
  match video_files with
  | [] => ret organized_count
  | f :: rest =>
      let* ok := organize_file f in
      organize_all rest (if ok then S organized_count else organized_count)
  end.

(** [organize_directory(target_dir)], in an environment where the tree
    can be read; the value is the pair of numbers of its last log line,
    or two zeros when it returns early. *)
Definition organize_directory (target_dir : path) : M (nat * nat) :=
  let* there := path_exists target_dir in
  if negb there then log (Does_not_exist target_dir) ;; ret (O, O)
  else
    log (Organizing_files_in target_dir) ;;
    let* s := get in
    let video_files := find_video_files s target_dir in
    match video_files with
    | [] => log No_video_files_found ;; ret (O, O)
    | _ :: _ =>
        log (Found_video_files (length video_files)) ;;
        let* n := organize_all video_files O in
        log (Successfully_organized n (length video_files)) ;;
        ret (n, length video_files)
    end.

(** The body of the deletion loop of [cleanup_orphaned_files]. *)
Definition delete_orphan (file_path : path) : M unit :=
  try_except
    (unlink file_path ;;
     let parent := parent file_path in
     if bool_decide (parent ≠ downloads_dir) then
       let* nonempty := any_iterdir parent in
       if negb nonempty then rmdir parent else ret tt
     else ret tt)
    (fun _ => ret tt).

Fixpoint delete_all (orphaned : list path) : M unit :=
  match orphaned with
  | [] => ret tt
  | p :: rest => delete_orphan p ;; delete_all rest
  end.

(** [cleanup_orphaned_files()], in an environment where the tree can be
    read: the deletion loop runs over the list that the scan of
    [find_broken_hardlinks] returns. *)
Definition cleanup_orphaned_files (answer : option str) : M unit :=
  let* s := get in
  match find_broken_hardlinks s with
  | [] => ret tt
  | orphaned =>
      match answer with
      | None => raise EOF
      | Some response =>
          if affirmative response then delete_all orphaned else ret tt
      end
  end.

End Environment.

(** The environment in which nothing fails, and one that refuses to
    unlink a single path. *)
Definition obliging : env :=
  {| refuses := fun _ => false; log_result_of := fun _ => Appended |}.

Definition keeping (p : path) : env :=
  {| refuses := fun c => match c with Unlink q => bool_decide (q = p) | _ => false end;
     log_result_of := fun _ => Appended |}.

(** A state of [Samples] on a system where the log directory exists and
    holds the log file. *)
Definition with_log (s : fs) : fs :=
  {| files := <[ log_file := (1, 1)%nat ]> (files s);
     dirs := list_to_map ((fun p => (p, 1%nat)) <$> (LOG_DIR :: ancestors LOG_DIR))
             ∪ dirs s |}.

End Guarded.

(** ** [torrent_search_fixed.py]: the relevance filter

    The HTTP exchanges are inputs: the outcome of [check_jackett_setup]
    and, for each of the three search methods, the answer of the
    indexer.  A result object is read only through its ["Title"] key,
    which may be missing; the lines printed for the operator are not
    modelled. *)

Module TorrentSearch.
Import Str.

(** A result object of the indexer's answer. *)
Record result := mk_result {
  Title : option str;
  Size : Z;
  Seeders : Z
}.

(** What one request gives: an exception anywhere in the [try] block, or
    a status code with the list under ["Results"] (empty when the key is
    missing). *)
Inductive response :=
  | Raised
  | Answer (status_code : Z) (results : list result).

(** [p] is a prefix of [s]. *)
Fixpoint starts_with (p s : str) : bool :=
  match p, s with
  | [], _ => true
  | a :: p', c :: s' => char_eqb a c && starts_with p' s'
  | _ :: _, [] => false
  end.

(** [needle in hay] for strings. *)
Fixpoint contains (needle hay : str) : bool :=
  starts_with needle hay
  || match hay with
     | [] => false
     | _ :: rest => contains needle rest
     end.

(** [result.get("Title", "")] *)
Definition title_or_empty (r : result) : str :=
  match Title r with Some t => t | None => [] end.

(** The test of the filtering loop. *)
Definition relevant (query : str) (r : result) : bool :=
  contains (lower query) (lower (title_or_empty r)).

(** [filtered_results]: the relevant ones among the first 50. *)
Definition filtered_results (query : str) (results : list result) : list result :=
  List.filter (relevant query) (firstn 50 results).

(** The loop over the search methods, one answer per method: the first
    answer with status 200 that has relevant results decides. *)
Fixpoint try_methods (query : str) (answers : list response) : list result :=
  match answers with
  | [] => []
  | Raised :: rest => try_methods query rest
  | Answer status_code results :: rest =>
      if status_code =? 200 then
        match results with
        | [] => try_methods query rest
        | _ =>
            match filtered_results query results with
            | [] => try_methods query rest
            | found => firstn 20 found
            end
        end
      else try_methods query rest
  end.

(** [search_torrents_fixed(query, category)] *)
Definition search_torrents_fixed
    (jackett_ok : bool) (with_category without_category generic : response)
    (query : str) : list result :=
  if jackett_ok
  then try_methods query [with_category; without_category; generic]
  else [].

End TorrentSearch.

(** * Verification *)

Import Str PathName Organizer Fs Linker Cleanup Spec Samples TorrentSearch.

(** ** Facts about characters *)

Section CharFacts.

Ltac all_chars c :=
  destruct c as [[] [] [] [] [] [] [] []]; vm_compute;
  first [ reflexivity | discriminate | congruence | (split; discriminate) | idtac ].

Lemma char_eqb_eq (a b : ascii) : char_eqb a b = true ↔ a = b.
Proof. apply Ascii.eqb_eq. Qed.

Lemma in_set_In (set : str) (c : ascii) : in_set set c = true ↔ In c set.
Proof.
  unfold in_set. rewrite existsb_exists. split.
  - intros (x & Hx & Heq). apply char_eqb_eq in Heq. now subst.
  - intros H. exists c. split; [exact H | now apply char_eqb_eq].
Qed.

Lemma digit_val_range (c : ascii) : is_digit c = true → 0 <= digit_val c <= 9.
Proof. all_chars c. Qed.

Lemma Ee_not_digit (c : ascii) : is_Ee c = true → is_digit c = false.
Proof. all_chars c. Qed.

Lemma digit_not_Ee (c : ascii) : is_digit c = true → is_Ee c = false.
Proof. all_chars c. Qed.

Lemma digit_not_open (c : ascii) : is_digit c = true → is_open c = false.
Proof. all_chars c. Qed.

Lemma digit_not_bracket (c : ascii) :
  is_digit c = true → in_set (lit "()[]") c = false.
Proof. all_chars c. Qed.

Lemma close_is_bracket (c : ascii) :
  is_close c = true → in_set (lit "()[]") c = true.
Proof. all_chars c. Qed.

Lemma open_is_bracket (c : ascii) :
  is_open c = true → in_set (lit "()[]") c = true.
Proof. all_chars c. Qed.

Lemma lower_char_space (c : ascii) : is_space (lower_char c) = is_space c.
Proof. all_chars c. Qed.

Lemma upper_char_space (c : ascii) : is_space (upper_char c) = is_space c.
Proof. all_chars c. Qed.

Lemma digit_safe (c : ascii) : is_digit c = true → is_unsafe c = false.
Proof. all_chars c. Qed.

Lemma digit_val_is (c : ascii) (n : N) :
  is_digit c = true → digit_val c = Z.of_N n → c = ascii_of_N (48 + n).
Proof.
  intros Hc Hv. unfold digit_val in Hv.
  assert (Hcode : code c = (48 + n)%N).
  { unfold is_digit, in_range in Hc. apply andb_prop in Hc as [Hlo _].
    apply N.leb_le in Hlo. lia. }
  rewrite <- Hcode. unfold code. symmetry. apply ascii_N_embedding.
Qed.

End CharFacts.

Create HintDb chars.

#[local] Hint Resolve digit_val_range Ee_not_digit digit_not_Ee digit_not_open
  digit_not_bracket close_is_bracket open_is_bracket digit_safe : chars.

(** ** The season/episode pattern *)

Section SeasonEpisode.

Lemma digits12_cases (g : str) :
  digits12 g →
  (∃ a, g = [a] ∧ is_digit a = true)
  ∨ (∃ a b, g = [a; b] ∧ is_digit a = true ∧ is_digit b = true).
Proof.
  intros [Hd [Hl | Hl]].
  - destruct g as [|a [|]]; try discriminate. inversion Hd; subst. left; eauto.
  - destruct g as [|a [|b [|]]]; try discriminate.
    inversion Hd as [|? ? Ha Hd']; subst. inversion Hd'; subst. right; eauto 6.
Qed.

Lemma digits12_one (a : ascii) : is_digit a = true → digits12 [a].
Proof. intros H. split; [repeat constructor; exact H | now left]. Qed.

Lemma digits12_two (a b : ascii) :
  is_digit a = true → is_digit b = true → digits12 [a; b].
Proof. intros Ha Hb. split; [repeat constructor; assumption | now right]. Qed.

Lemma digits_1_2_In (s g r : str) :
  In (g, r) (digits_1_2 s) ↔ s = g ++ r ∧ digits12 g.
Proof.
  split.
  - unfold digits_1_2. destruct s as [|d1 [|d2 r2]]; simpl; try tauto;
      destruct (is_digit d1) eqn:H1; simpl; try tauto.
    + intros [[= <- <-] | []]. split; [reflexivity | now apply digits12_one].
    + destruct (is_digit d2) eqn:H2; simpl.
      * intros [[= <- <-] | [[= <- <-] | []]];
          (split; [reflexivity | auto using digits12_one, digits12_two]).
      * intros [[= <- <-] | []]. split; [reflexivity | now apply digits12_one].
  - intros [-> Hg]. apply digits12_cases in Hg as [(a & -> & Ha) | (a & b & -> & Ha & Hb)].
    + simpl. rewrite Ha. destruct r as [|d2 r2]; simpl; [now left |].
      destruct (is_digit d2); simpl; tauto.
    + simpl. rewrite Ha, Hb. simpl. now left.
Qed.

Lemma digits_1_2_head (s g r : str) :
  head (digits_1_2 s) = Some (g, r) →
  ∀ g' r', s = g' ++ r' → digits12 g' → (length g' <= length g)%nat.
Proof.
  intros Hh g' r' -> Hg'.
  apply digits12_cases in Hg' as [(a & -> & Ha) | (a & b & -> & Ha & Hb)].
  - simpl in Hh. rewrite Ha in Hh. destruct r' as [|d2 r2]; simpl in Hh.
    + injection Hh as <- <-. simpl; lia.
    + destruct (is_digit d2); simpl in Hh; injection Hh as <- <-; simpl; lia.
  - simpl in Hh. rewrite Ha, Hb in Hh. simpl in Hh. injection Hh as <- <-. simpl; lia.
Qed.

Lemma se_tail_In (g1 s a b rest : str) :
  In (a, b, rest) (se_tail g1 s)
  ↔ a = g1 ∧ ∃ e, s = e :: b ++ rest ∧ is_Ee e = true ∧ digits12 b.
Proof.
  unfold se_tail. destruct s as [|e r].
  - simpl. split; [tauto | intros (_ & ? & ? & _); discriminate].
  - destruct (is_Ee e) eqn:He.
    + rewrite in_map_iff. split.
      * intros ([g2 rest'] & [= <- <- <-] & Hin).
        apply digits_1_2_In in Hin as [-> Hd]. split; [reflexivity | eauto].
      * intros (-> & e' & [= <- ->] & _ & Hd).
        exists (b, rest). split; [reflexivity |]. apply digits_1_2_In. auto.
    + simpl. split; [tauto |]. intros (_ & e' & [= <- _] & He' & _). congruence.
Qed.

Lemma se_tail_head (g1 s a b rest : str) :
  head (se_tail g1 s) = Some (a, b, rest) →
  ∀ e b' rest', s = e :: b' ++ rest' → digits12 b' → (length b' <= length b)%nat.
Proof.
  unfold se_tail. destruct s as [|e r]; [discriminate |].
  destruct (is_Ee e); [| discriminate].
  intros Hh e' b' rest' [= <- ->] Hb'.
  destruct (digits_1_2 (b' ++ rest')) as [|[g2 r2] l] eqn:Hl; [discriminate |].
  simpl in Hh. injection Hh as <- <- <-.
  eapply digits_1_2_head; [rewrite Hl; reflexivity | reflexivity | assumption].
Qed.

Lemma head_flat_map {A B} (f : A → list B) (l : list A) (y : B) :
  head (flat_map f l) = Some y → ∃ x, In x l ∧ head (f x) = Some y.
Proof.
  induction l as [|x l IH]; simpl; [discriminate |].
  destruct (f x) as [|z zs] eqn:Hfx; simpl.
  - intros H. destruct (IH H) as (x' & Hin & Hx'). eauto.
  - intros [= ->]. exists x. rewrite Hfx. auto.
Qed.

Lemma head_In {A} (l : list A) (y : A) : head l = Some y → In y l.
Proof. destruct l; simpl; [discriminate | intros [= ->]; now left]. Qed.

Lemma head_None_nil {A} (l : list A) : head l = None → l = [].
Proof. destruct l; [reflexivity | discriminate]. Qed.

(** The first digit group of a token at a given place is determined by
    the text: a digit is never an [E]. *)
Lemma se_token_here_group1 (t g1 g2 post g1' g2' post' : str) :
  se_token_here t g1 g2 post → se_token_here t g1' g2' post' → g1 = g1'.
Proof.
  intros (c & e & -> & _ & He & Hg1 & Hg2) (c' & e' & Heq & _ & He' & Hg1' & Hg2').
  apply digits12_cases in Hg1 as [(a & -> & Ha) | (a & b & -> & Ha & Hb)];
  apply digits12_cases in Hg1' as [(a' & -> & Ha') | (a' & b' & -> & Ha' & Hb')];
  simpl in Heq; injection Heq as; subst; try reflexivity.
  - apply Ee_not_digit in He. congruence.
  - apply Ee_not_digit in He'. congruence.
Qed.

(** [se_match_here] finds a token exactly when one starts at the head of
    the string, and then takes the longest second group. *)
Lemma se_match_here_Some (s g1 g2 rest : str) :
  se_match_here s = Some (g1, g2, rest) →
  se_token_here s g1 g2 rest
  ∧ ∀ g1' g2' rest', se_token_here s g1' g2' rest' →
      g1' = g1 ∧ (length g2' <= length g2)%nat.
Proof.
  unfold se_match_here. destruct s as [|c r]; [discriminate |].
  destruct (is_Ss c) eqn:Hc; [| discriminate].
  intros Hh. apply head_flat_map in Hh as ([a r1] & Hin & Hh).
  apply digits_1_2_In in Hin as [-> Ha].
  pose proof (head_In _ _ Hh) as Hin.
  apply se_tail_In in Hin as (<- & e & -> & He & Hb).
  assert (Htok : se_token_here (c :: g1 ++ e :: g2 ++ rest) g1 g2 rest)
    by (exists c, e; auto).
  split; [exact Htok |].
  intros g1' g2' rest' Htok'.
  assert (g1' = g1) as -> by (symmetry; eapply se_token_here_group1; eassumption).
  split; [reflexivity |].
  destruct Htok' as (c' & e' & Heq & _ & _ & _ & Hg2').
  injection Heq as _ Heq. apply app_inv_head in Heq.
  eapply se_tail_head; eassumption.
Qed.

Lemma se_match_here_None (s : str) :
  se_match_here s = None → ∀ g1 g2 rest, ¬ se_token_here s g1 g2 rest.
Proof.
  intros Hn g1 g2 rest (c & e & -> & Hc & He & Hg1 & Hg2).
  unfold se_match_here in Hn. rewrite Hc in Hn.
  apply head_None_nil in Hn.
  assert (Hin : In (g1, g2, rest)
                  (flat_map (fun '(g1, r1) => se_tail g1 r1)
                            (digits_1_2 (g1 ++ e :: g2 ++ rest)))).
  { apply in_flat_map. exists (g1, e :: g2 ++ rest). split.
    - apply digits_1_2_In. auto.
    - apply se_tail_In. eauto. }
  rewrite Hn in Hin. destruct Hin.
Qed.

(** [se_search] returns the leftmost token. *)
Lemma se_search_Some (s pre g1 g2 post : str) :
  se_search s = Some (pre, (g1, g2), post) →
  se_token_at s pre g1 g2 post
  ∧ ∀ pre' g1' g2' post', se_token_at s pre' g1' g2' post' →
      (length pre <= length pre')%nat
      ∧ (length pre' = length pre → g1' = g1 ∧ (length g2' <= length g2)%nat).
Proof.
  revert pre. induction s as [|c s IH]; intros pre.
  - simpl. discriminate.
  - cbn [se_search]. destruct (se_match_here (c :: s)) as [[[a b] r]|] eqn:Hm.
    + intros [= <- <- <- <-]. apply se_match_here_Some in Hm as [Htok Hmax].
      split; [exists (c :: s); auto |].
      intros pre' g1' g2' post' (t & Heq & Htok'). split; [simpl; lia |].
      intros Hl. destruct pre'; [| discriminate]. simpl in Heq. subst t.
      eapply Hmax; eassumption.
    + destruct (se_search s) as [[[pre0 [a b]] r]|] eqn:Hs; [| discriminate].
      intros [= <- <- <- <-]. destruct (IH _ eq_refl) as [(t & -> & Htok) Hleft].
      split; [exists t; auto |].
      intros pre' g1' g2' post' (t' & Heq & Htok').
      destruct pre' as [|c' pre'].
      * simpl in Heq. subst t'. exfalso. eapply se_match_here_None; eassumption.
      * injection Heq as <- Heq.
        destruct (Hleft pre' g1' g2' post') as [Hle Hsame]; [exists t'; auto |].
        split; [simpl; lia |]. intros Hl. apply Hsame. simpl in Hl. lia.
Qed.

Lemma se_search_None (s : str) : se_search s = None → ¬ has_se_token s.
Proof.
  induction s as [|c s IH]; intros Hn (pre & g1 & g2 & post & t & Heq & Htok).
  - destruct pre; [| discriminate]. simpl in Heq. subst t.
    destruct Htok as (? & ? & ? & _). discriminate.
  - cbn [se_search] in Hn.
    destruct (se_match_here (c :: s)) as [[[a b] r]|] eqn:Hm; [discriminate |].
    destruct (se_search s) as [[[pre0 [a b]] r]|] eqn:Hs; [discriminate |].
    destruct pre as [|c' pre].
    + simpl in Heq. subst t. eapply se_match_here_None; eassumption.
    + injection Heq as <- Heq. apply IH; [reflexivity |].
      exists pre, g1, g2, post, t. auto.
Qed.

Lemma int_of_digits12 (g : str) : digits12 g → 0 <= int_of_digits g <= 99.
Proof.
  intros Hg. apply digits12_cases in Hg as [(a & -> & Ha) | (a & b & -> & Ha & Hb)];
    unfold int_of_digits; simpl.
  - apply digit_val_range in Ha. lia.
  - apply digit_val_range in Ha. apply digit_val_range in Hb. lia.
Qed.

End SeasonEpisode.

(** ** The classifier: episodes *)

Section ClassifierEpisodes.

Lemma parse_tv (filename pre g1 g2 post : str) :
  se_search (stem filename) = Some (pre, (g1, g2), post) →
  is_tv (parse_filename filename) = true
  ∧ season (parse_filename filename) = Some (int_of_digits g1)
  ∧ episode (parse_filename filename) = Some (int_of_digits g2)
  ∧ year (parse_filename filename) = None
  ∧ title (parse_filename filename) = clean_title pre.
Proof.
  intros H. unfold parse_filename, split_head. rewrite H. simpl. auto.
Qed.

Lemma parse_not_tv (filename : str) :
  se_search (stem filename) = None →
  is_tv (parse_filename filename) = false
  ∧ season (parse_filename filename) = None
  ∧ episode (parse_filename filename) = None.
Proof.
  intros H. unfold parse_filename. rewrite H.
  destruct (year_search (stem filename)) as [[[? ?] ?]|]; simpl; auto.
Qed.

Lemma has_se_token_search (s : str) :
  has_se_token s → ∃ pre g1 g2 post, se_search s = Some (pre, (g1, g2), post).
Proof.
  intros H. destruct (se_search s) as [[[pre [g1 g2]] post]|] eqn:Hs; [eauto 6 |].
  exfalso. eapply se_search_None; eassumption.
Qed.

(** C1 (as amended): for the file
    [rick.and.morty.s08e01.1080p.web.h264.mkv], wherever it lies in the
    staging tree, the destination is
    [TV_DIR/Rick and Morty/Season 08/Rick and Morty - S08E01.mkv]: the
    inner word "and" belongs to the minor words and stays lowercase. *)
Theorem C1_rick_destination (dir : path) :
  dest_of (dir ++ [rick])
  = Some (TV_DIR ++ [lit "Rick and Morty"; lit "Season 08";
                     lit "Rick and Morty - S08E01.mkv"]).
Proof.
  unfold dest_of, tv_dest, episode_name, path_suffix, path_name.
  rewrite !last_last. vm_compute. reflexivity.
Qed.

(** C1 (as stated) fails: the destination is not the path spelled
    "Rick And Morty". *)
Lemma C1_counterexample :
  dest_of (DOWNLOAD_DIR ++ [rick])
  ≠ Some (TV_DIR ++ [lit "Rick And Morty"; lit "Season 08";
                     lit "Rick And Morty - S08E01.mkv"]).
Proof. vm_compute. discriminate. Qed.

Lemma doctor_has_token : has_se_token (stem doctor).
Proof.
  exists (lit "Doctor.Who.2005."), (lit "01"), (lit "02"), (lit ".720p").
  exists (lit "S01E02.720p"). split; [reflexivity |].
  exists "S"%char, "E"%char.
  repeat split; try reflexivity; try (repeat constructor); now right.
Qed.

(** What [se_search] returns is the first token. *)
Lemma se_search_first (s pre g1 g2 post : str) :
  se_search s = Some (pre, (g1, g2), post) → first_se_token s pre g1 g2 post.
Proof.
  intros H. apply se_search_Some in H as [Htok Hleft]. split; [exact Htok |].
  intros pre' g1' g2' post' H'. destruct (Hleft _ _ _ _ H') as [Hle Hsame].
  split; [exact Hle |]. intros Hl. now apply Hsame.
Qed.

(** The first token is determined by the text. *)
Lemma first_se_token_unique (s pre g1 g2 post pre' g1' g2' post' : str) :
  first_se_token s pre g1 g2 post → first_se_token s pre' g1' g2' post' →
  g1 = g1' ∧ g2 = g2'.
Proof.
  intros [Htok Hfirst] [Htok' Hfirst'].
  destruct (Hfirst _ _ _ _ Htok') as [Hle Hlen].
  destruct (Hfirst' _ _ _ _ Htok) as [Hle' Hlen'].
  assert (Hl : length pre = length pre') by lia.
  specialize (Hlen (eq_sym Hl)). specialize (Hlen' Hl).
  destruct Htok as (t & Hs & Hhere). destruct Htok' as (t' & Hs' & Hhere').
  rewrite Hs in Hs'. apply app_inj_1 in Hs' as [_ <-]; [| exact Hl].
  assert (g1 = g1') as <- by (eapply se_token_here_group1; eassumption).
  split; [reflexivity |].
  destruct Hhere as (c & e & -> & _). destruct Hhere' as (c' & e' & Heq & _).
  injection Heq as _ Heq. apply app_inv_head in Heq. injection Heq as _ Heq.
  apply app_inj_1 in Heq as [Hg _]; [exact Hg | lia].
Qed.

(** C2 (as amended): when the stem of a filename contains a token
    [S<n>E<m>] (any case, one or two digits each), the classifier
    returns an episode and leaves the year empty, whatever else the name
    contains; the season and the episode are the numbers of the first
    such token of the stem, the leftmost one, read with its second digit
    group as long as the text allows.  Such a first token exists, and
    whichever way it is cut out of the stem its two numbers are the ones
    returned. *)
Theorem C2_leftmost_token_wins (filename : str) :
  has_se_token (stem filename) →
  is_tv (parse_filename filename) = true
  ∧ year (parse_filename filename) = None
  ∧ (∃ pre g1 g2 post, first_se_token (stem filename) pre g1 g2 post)
  ∧ (∀ pre g1 g2 post, first_se_token (stem filename) pre g1 g2 post →
       season (parse_filename filename) = Some (int_of_digits g1)
       ∧ episode (parse_filename filename) = Some (int_of_digits g2)).
Proof.
  intros H. apply has_se_token_search in H as (pre0 & a & b & post0 & Hs).
  destruct (parse_tv _ _ _ _ _ Hs) as (Htv & Hse & Hep & Hy & _).
  pose proof (se_search_first _ _ _ _ _ Hs) as H0.
  split; [exact Htv |]. split; [exact Hy |]. split; [eauto 6 |].
  intros pre g1 g2 post H1.
  destruct (first_se_token_unique _ _ _ _ _ _ _ _ _ H1 H0) as [-> ->]. auto.
Qed.

Lemma C2_witness :
  has_se_token (stem doctor)
  ∧ is_tv (parse_filename doctor) = true
  ∧ year (parse_filename doctor) = None
  ∧ (∃ pre g1 g2 post, first_se_token (stem doctor) pre g1 g2 post)
  ∧ (∀ pre g1 g2 post, first_se_token (stem doctor) pre g1 g2 post →
       season (parse_filename doctor) = Some (int_of_digits g1)
       ∧ episode (parse_filename doctor) = Some (int_of_digits g2)).
Proof.
  split; [exact doctor_has_token | apply (C2_leftmost_token_wins doctor)].
  exact doctor_has_token.
Defined.

(** C2 (as stated) fails: the stem of [Show.S01E02.S03E04.mkv] contains
    the token [S03E04], yet the season and the episode returned are 1
    and 2, the numbers of the token to its left. *)
Lemma C2_counterexample :
  se_token_at (stem two_tokens) (lit "Show.S01E02.") (lit "03") (lit "04") []
  ∧ season (parse_filename two_tokens) = Some 1
  ∧ episode (parse_filename two_tokens) = Some 2
  ∧ ¬ (season (parse_filename two_tokens) = Some (int_of_digits (lit "03"))
       ∧ episode (parse_filename two_tokens) = Some (int_of_digits (lit "04"))).
Proof.
  split.
  { exists (lit "S03E04"). split; [reflexivity |].
    exists "S"%char, "E"%char.
    repeat split; try reflexivity; try (repeat constructor); now right. }
  split; [reflexivity |]. split; [reflexivity |].
  intros [H _]. vm_compute in H. discriminate H.
Qed.

Example doctor_parsed :
  season (parse_filename doctor) = Some 1
  ∧ episode (parse_filename doctor) = Some 2
  ∧ year (parse_filename doctor) = None.
Proof. vm_compute. auto. Qed.

(** C9 (as amended): the classifier either returns an episode, with
    season and episode both present and between 0 and 99, or returns a
    movie with neither present. *)
Theorem C9_season_episode_range (filename : str) :
  (is_tv (parse_filename filename) = true
   ∧ ∃ n m, season (parse_filename filename) = Some n
            ∧ episode (parse_filename filename) = Some m
            ∧ 0 <= n <= 99 ∧ 0 <= m <= 99)
  ∨ (is_tv (parse_filename filename) = false
     ∧ season (parse_filename filename) = None
     ∧ episode (parse_filename filename) = None).
Proof.
  destruct (se_search (stem filename)) as [[[pre [g1 g2]] post]|] eqn:Hs.
  - left. destruct (parse_tv _ _ _ _ _ Hs) as (Htv & Hse & Hep & _).
    destruct (se_search_Some _ _ _ _ _ Hs) as [(t & _ & c & e & _ & _ & _ & H1 & H2) _].
    split; [exact Htv |]. exists (int_of_digits g1), (int_of_digits g2).
    auto using int_of_digits12.
  - right. now apply parse_not_tv.
Qed.

(** C9 (as stated) fails: [show.s00e00.mkv] is an episode whose season
    and episode are both zero. *)
Lemma C9_counterexample :
  is_tv (parse_filename special) = true
  ∧ ¬ (∃ n m, season (parse_filename special) = Some n
              ∧ episode (parse_filename special) = Some m
              ∧ 0 < n ∧ 0 < m).
Proof.
  split; [reflexivity |]. intros (n & m & Hn & _ & Hpos & _).
  vm_compute in Hn. injection Hn as <-. lia.
Qed.

End ClassifierEpisodes.

(** ** The year pattern *)

Section YearPattern.

Let bracket : ascii → bool := in_set (lit "()[]").

Lemma year_token_shape (y : str) :
  year_token y ↔
  ∃ a b c d, y = [a; b; c; d]
    ∧ ((a = "1"%char ∧ b = "9"%char) ∨ (a = "2"%char ∧ b = "0"%char))
    ∧ is_digit c = true ∧ is_digit d = true.
Proof.
  split.
  - intros (Hl & Hd & Hr).
    destruct y as [|a [|b [|c [|d [|]]]]]; try discriminate.
    inversion Hd as [|? ? Ha Hd1]; subst. inversion Hd1 as [|? ? Hb Hd2]; subst.
    inversion Hd2 as [|? ? Hc Hd3]; subst. inversion Hd3 as [|? ? Hdd _]; subst.
    exists a, b, c, d. split; [reflexivity |].
    unfold int_of_digits in Hr. simpl in Hr.
    pose proof (digit_val_range _ Ha). pose proof (digit_val_range _ Hb).
    pose proof (digit_val_range _ Hc). pose proof (digit_val_range _ Hdd).
    split; [| auto].
    assert ((digit_val a = 1 ∧ digit_val b = 9) ∨ (digit_val a = 2 ∧ digit_val b = 0))
      as [[Ea Eb] | [Ea Eb]] by lia.
    + left. split; [apply (digit_val_is a 1) | apply (digit_val_is b 9)]; assumption.
    + right. split; [apply (digit_val_is a 2) | apply (digit_val_is b 0)]; assumption.
  - intros (a & b & c & d & -> & Hab & Hc & Hd).
    pose proof (digit_val_range _ Hc). pose proof (digit_val_range _ Hd).
    split; [reflexivity |].
    destruct Hab as [[-> ->] | [-> ->]];
      (split; [repeat constructor; assumption |]);
      unfold int_of_digits; simpl; change (digit_val "1") with 1;
      change (digit_val "9") with 9; change (digit_val "2") with 2;
      change (digit_val "0") with 0; lia.
Qed.

Lemma year_core_Some (s y r : str) :
  year_core s = Some (y, r) ↔ s = y ++ r ∧ year_token y.
Proof.
  rewrite year_token_shape. split.
  - unfold year_core. destruct s as [|a [|b [|c [|d r']]]]; try discriminate.
    destruct (_ && _) eqn:Hcond; [| discriminate].
    intros [= <- <-]. split; [reflexivity |]. exists a, b, c, d.
    apply andb_prop in Hcond as [Hcond Hd]. apply andb_prop in Hcond as [Hab Hc].
    repeat split; try assumption.
    apply orb_prop in Hab as [Hab | Hab]; apply andb_prop in Hab as [Ha Hb];
      apply char_eqb_eq in Ha, Hb; auto.
  - intros (-> & a & b & c & d & -> & Hab & Hc & Hd). simpl.
    rewrite Hc, Hd. destruct Hab as [[-> ->] | [-> ->]]; reflexivity.
Qed.

Lemma year_token_digits (y : str) :
  year_token y → Forall (fun c => is_digit c = true) y.
Proof. intros (_ & H & _). exact H. Qed.

Lemma strip_with_open (P : ascii → bool) (o : ascii) (m : str) :
  P o = true → strip_with P (o :: m) = strip_with P m.
Proof. intros H. unfold strip_with. simpl. now rewrite H. Qed.

Lemma drop_while_snoc (P : ascii → bool) (m : str) (c : ascii) :
  drop_while P (m ++ [c])
  = if forallb P m then drop_while P [c] else drop_while P m ++ [c].
Proof.
  induction m as [|x m IH]; simpl; [reflexivity |].
  destruct (P x); simpl; [exact IH | reflexivity].
Qed.

Lemma drop_while_all (P : ascii → bool) (m : str) :
  forallb P m = true → drop_while P m = [].
Proof.
  induction m as [|x m IH]; simpl; [reflexivity |].
  destruct (P x); simpl; [exact IH | discriminate].
Qed.

Lemma strip_with_close (P : ascii → bool) (m : str) (c : ascii) :
  P c = true → strip_with P (m ++ [c]) = strip_with P m.
Proof.
  intros H. unfold strip_with. rewrite drop_while_snoc.
  destruct (forallb P m) eqn:Hall.
  - simpl. rewrite H. rewrite (drop_while_all _ _ Hall). reflexivity.
  - rewrite rev_app_distr. simpl. now rewrite H.
Qed.

Lemma strip_year (y : str) : year_token y → strip_with bracket y = y.
Proof.
  intros Hy. pose proof (year_token_digits _ Hy) as Hd.
  destruct Hy as (Hl & _). destruct y as [|a [|b [|c [|d [|]]]]]; try discriminate.
  inversion Hd as [|? ? Ha Hd1]; subst. inversion Hd1 as [|? ? _ Hd2]; subst.
  inversion Hd2 as [|? ? _ Hd3]; subst. inversion Hd3 as [|? ? Hdd _]; subst.
  assert (Ha' : bracket a = false) by (unfold bracket; auto with chars).
  assert (Hd' : bracket d = false) by (unfold bracket; auto with chars).
  unfold strip_with. cbn [drop_while]. rewrite Ha'.
  cbn [rev app drop_while]. rewrite Hd'. reflexivity.
Qed.

Lemma strip_year_close (m y r : str) :
  strip_with bracket m = y → strip_with bracket (year_close m r).1 = y.
Proof.
  intros H. unfold year_close. destruct r as [|c r']; [exact H |].
  destruct (is_close c) eqn:Hc; [| exact H]. simpl.
  rewrite strip_with_close; [exact H | auto with chars].
Qed.

(** A match of the year pattern at the head of [s] carries the year token
    that starts at the head, or right after an opening bracket. *)
Lemma year_match_here_Some (s g0 rest : str) :
  year_match_here s = Some (g0, rest) →
  ∃ y, strip_with bracket g0 = y
       ∧ ((∃ r, year_core s = Some (y, r))
          ∨ (∃ o t r, s = o :: t ∧ is_open o = true ∧ year_core t = Some (y, r))).
Proof.
  unfold year_match_here.
  assert (Hbare : ∀ g0 rest,
    match year_core s with Some (y, r) => Some (year_close y r) | None => None end
      = Some (g0, rest) →
    ∃ y, strip_with bracket g0 = y ∧ ∃ r, year_core s = Some (y, r)).
  { intros g rs. destruct (year_core s) as [[y r]|] eqn:Hc; [| discriminate].
    intros [= Heq]. exists y. split; [| eauto].
    replace g with (year_close y r).1 by (rewrite Heq; reflexivity).
    apply strip_year_close, strip_year. now apply year_core_Some in Hc as [_ ?]. }
  destruct s as [|o t].
  - intros H. apply Hbare in H as (y & ? & ?). eauto.
  - destruct (is_open o) eqn:Ho.
    + destruct (year_core t) as [[y r]|] eqn:Hc.
      * intros [= Heq]. exists y. split; [| right; eauto 6].
        replace g0 with (year_close (o :: y) r).1 by (rewrite Heq; reflexivity).
        apply strip_year_close. rewrite strip_with_open by auto with chars.
        apply strip_year. now apply year_core_Some in Hc as [_ ?].
      * intros H. apply Hbare in H as (y & ? & ?). eauto.
    + intros H. apply Hbare in H as (y & ? & ?). eauto.
Qed.

Lemma year_match_here_None (s : str) :
  year_match_here s = None →
  year_core s = None
  ∧ ∀ o t, s = o :: t → is_open o = true → year_core t = None.
Proof.
  unfold year_match_here. destruct s as [|o t].
  - intros _. split; [reflexivity | discriminate].
  - destruct (is_open o) eqn:Ho.
    + destruct (year_core t) as [[y r]|] eqn:Hc; [discriminate |].
      destruct (year_core (o :: t)) as [[y r]|]; [discriminate |].
      intros _. split; [reflexivity |]. intros ? ? [= <- <-] _. exact Hc.
    + destruct (year_core (o :: t)) as [[y r]|]; [discriminate |].
      intros _. split; [reflexivity |]. intros ? ? [= <- <-] ?. congruence.
Qed.

Lemma year_core_unique (y r y' r' : str) :
  year_core (y ++ r) = Some (y', r') → year_token y → y' = y.
Proof.
  intros Hc Hy. apply year_core_Some in Hc as [Heq (Hl' & _)].
  destruct Hy as (Hl & _).
  assert (H : take 4 (y ++ r) = take 4 (y' ++ r')) by now rewrite Heq.
  rewrite !take_app_length' in H by (symmetry; assumption). congruence.
Qed.

Lemma year_search_here (s g0 rest : str) :
  year_match_here s = Some (g0, rest) → year_search s = Some ([], g0, rest).
Proof. intros H. destruct s; cbn [year_search]; now rewrite H. Qed.

(** [year_search] finds the leftmost year token of the string, with or
    without brackets around it. *)
Lemma year_search_leftmost (p0 y r : str) :
  year_token y →
  (∀ p' y' r', year_at (p0 ++ y ++ r) p' y' r' → (length p0 <= length p')%nat) →
  ∃ pre g0 post,
    year_search (p0 ++ y ++ r) = Some (pre, g0, post)
    ∧ strip_with bracket g0 = y.
Proof.
  intros Hy. induction p0 as [|x p0 IH]; intros Hleft.
  - assert (Hc : year_core (y ++ r) = Some (y, r)) by now apply year_core_Some.
    simpl app. destruct (year_match_here (y ++ r)) as [[g0 rest]|] eqn:Hm.
    + exists [], g0, rest. split.
      * now apply year_search_here.
      * apply year_match_here_Some in Hm as (y' & <- & [(r' & Hc') | (o & t & r' & Heq & Ho & _)]).
        { congruence. }
        { exfalso. destruct Hy as (Hl & Hd & _).
          destruct y as [|a y0]; [discriminate Hl |].
          injection Heq as -> _. inversion Hd; subst.
          pose proof (digit_not_open o). intuition congruence. }
    + apply year_match_here_None in Hm as [Hn _]. congruence.
  - cbn [app year_search].
    destruct (year_match_here (x :: p0 ++ y ++ r)) as [[g0 rest]|] eqn:Hm.
    + exists [], g0, rest. split; [reflexivity |].
      apply year_match_here_Some in Hm as (y' & Hg & [(r' & Hc') | (o & t & r' & Heq & Ho & Hc')]).
      * exfalso. apply year_core_Some in Hc' as [Heq Hy'].
        specialize (Hleft [] y' r'). simpl in Hleft.
        assert (S (length p0) <= 0)%nat by (apply Hleft; split; assumption). lia.
      * injection Heq as <- <-.
        pose proof Hc' as Hc''. apply year_core_Some in Hc'' as [Heq Hy'].
        assert (Hp0 : p0 = []).
        { specialize (Hleft [x] y' r'). simpl in Hleft.
          assert (S (length p0) <= 1)%nat.
          { apply Hleft. split; [simpl; now rewrite Heq | assumption]. }
          destruct p0; [reflexivity | simpl in *; lia]. }
        subst p0. simpl in Hc'. rewrite Hg. eapply year_core_unique; eassumption.
    + destruct IH as (pre & g0 & post & Hs & Hg).
      { intros p' y' r' [Heq Hy']. specialize (Hleft (x :: p') y' r').
        simpl in Hleft. assert (S (length p0) <= S (length p'))%nat.
        { apply Hleft. split; [simpl; now rewrite Heq | assumption]. }
        lia. }
      rewrite Hs. eauto.
Qed.

Lemma parse_year (filename pre g0 post : str) :
  se_search (stem filename) = None →
  year_search (stem filename) = Some (pre, g0, post) →
  is_tv (parse_filename filename) = false
  ∧ year (parse_filename filename)
    = Some (int_of_digits (strip_with (in_set (lit "()[]")) g0)).
Proof.
  intros Hse Hy. unfold parse_filename. rewrite Hse, Hy. simpl. auto.
Qed.

Lemma no_se_token_search (s : str) : ¬ has_se_token s → se_search s = None.
Proof.
  intros H. destruct (se_search s) as [[[pre [g1 g2]] post]|] eqn:Hs; [| reflexivity].
  exfalso. apply H. apply se_search_Some in Hs as [Htok _]. red. eauto 6.
Qed.

End YearPattern.

(** ** The classifier: movies *)

Section ClassifierMovies.

Lemma year_at_core (s p y r : str) :
  year_at s p y r → year_core (drop (length p) s) = Some (y, r).
Proof.
  intros [-> Hy]. rewrite drop_app_length. now apply year_core_Some.
Qed.

Lemma year_search_lower_bound (s pre g0 post : str) :
  year_search s = Some (pre, g0, post) →
  ∀ p y r, year_at s p y r → (length pre <= length p)%nat.
Proof.
  revert pre. induction s as [|c s IH]; intros pre Hs p y r Hat.
  - simpl in Hs. discriminate.
  - cbn [year_search] in Hs.
    destruct (year_match_here (c :: s)) as [[g r0]|] eqn:Hm.
    + injection Hs as <- _ _. simpl; lia.
    + destruct (year_search s) as [[[pre0 g] r0]|] eqn:Hs'; [| discriminate].
      injection Hs as <- <- <-.
      apply year_match_here_None in Hm as [Hn _].
      destruct p as [|c' p].
      * apply year_at_core in Hat. cbn [length drop] in Hat. congruence.
      * destruct Hat as [Heq Hy]. injection Heq as <- Heq.
        assert (length pre0 <= length p)%nat
          by (eapply IH; [reflexivity | split; eassumption]).
        simpl; lia.
Qed.

(** C3 (as amended): when the stem of a filename contains a 4-digit year
    in 1900..2099 between an opening and a closing bracket, no
    season/episode token, and no 4-digit run of that form starting to
    the left of that year, the classifier returns a movie whose year is
    that integer. *)
Theorem C3_bracketed_year (filename pre y post : str) (o c : ascii) :
  stem filename = pre ++ [o] ++ y ++ [c] ++ post →
  is_open o = true → is_close c = true → year_token y →
  ¬ has_se_token (stem filename) →
  (∀ pre' y' post',
     year_at (stem filename) pre' y' post' → (length pre < length pre')%nat) →
  is_tv (parse_filename filename) = false
  ∧ year (parse_filename filename) = Some (int_of_digits y).
Proof.
  intros Hstem Ho Hc Hy Hno Hleft.
  apply no_se_token_search in Hno.
  destruct (year_search_leftmost (pre ++ [o]) y ([c] ++ post) Hy)
    as (pre0 & g0 & post0 & Hs & Hg).
  { intros p' y' r' Hat. rewrite length_app. simpl.
    assert (length pre < length p')%nat; [| lia].
    apply (Hleft p' y' r'). rewrite Hstem, app_assoc. exact Hat. }
  replace ((pre ++ [o]) ++ y ++ [c] ++ post) with (stem filename) in Hs
    by (rewrite Hstem, <- app_assoc; reflexivity).
  destruct (parse_year _ _ _ _ Hno Hs) as [Htv Hyear].
  rewrite Hg in Hyear. auto.
Qed.

Lemma matrix_year_token : year_token (lit "1999").
Proof.
  split; [reflexivity |]. split; [repeat constructor |].
  vm_compute. split; discriminate.
Qed.

Lemma matrix_no_se_token : ¬ has_se_token (stem matrix).
Proof. intros H. apply has_se_token_search in H as (? & ? & ? & ? & H). discriminate H. Qed.

Lemma matrix_leftmost (pre' y' post' : str) :
  year_at (stem matrix) pre' y' post' → (length (lit "The.Matrix.") < length pre')%nat.
Proof.
  intros Hat.
  assert (Hle : (length (lit "The.Matrix.") <= length pre')%nat).
  { eapply (year_search_lower_bound (stem matrix)); [vm_compute; reflexivity | exact Hat]. }
  apply year_at_core in Hat.
  destruct (decide (length pre' = length (lit "The.Matrix."))) as [Heq | Hne].
  - rewrite Heq in Hat. vm_compute in Hat. discriminate.
  - lia.
Qed.

Lemma C3_witness :
  is_tv (parse_filename matrix) = false
  ∧ year (parse_filename matrix) = Some (int_of_digits (lit "1999")).
Proof.
  apply (C3_bracketed_year matrix (lit "The.Matrix.") (lit "1999") (lit ".1080p")
           "("%char ")"%char).
  - reflexivity.
  - reflexivity.
  - reflexivity.
  - exact matrix_year_token.
  - exact matrix_no_se_token.
  - exact matrix_leftmost.
Defined.

(** C3 (as stated) fails: [2001 A Space Odyssey (1968).mkv] contains the
    parenthesised year 1968 and no season/episode token, and the
    classifier returns a year that is not 1968. *)
Lemma C3_counterexample :
  (∃ pre post, stem odyssey = pre ++ lit "(1968)" ++ post)
  ∧ year_token (lit "1968")
  ∧ ¬ has_se_token (stem odyssey)
  ∧ year (parse_filename odyssey) ≠ Some (int_of_digits (lit "1968")).
Proof.
  split; [exists (lit "2001 A Space Odyssey "), []; reflexivity |].
  split.
  { split; [reflexivity |]. split; [repeat constructor |].
    vm_compute. split; discriminate. }
  split.
  { intros H. apply has_se_token_search in H as (? & ? & ? & ? & H). discriminate H. }
  vm_compute. discriminate.
Qed.

Example odyssey_parsed :
  year (parse_filename odyssey) = Some 2001 ∧ title (parse_filename odyssey) = [].
Proof. vm_compute. auto. Qed.

End ClassifierMovies.

(** ** The title normalizer *)

Section TitleCase.

Let nospace (w : str) : Prop := Forall (fun c => is_space c = false) w.

Lemma words_nospace (s : str) :
  nospace (words s).1 ∧ Forall word (words s).2.
Proof.
  induction s as [|c s [IHw IHws]]; simpl.
  - split; constructor.
  - destruct (words s) as [w ws]. simpl in *.
    destruct (is_space c) eqn:Hc; simpl.
    + split; [constructor |]. destruct w; simpl; [assumption |].
      constructor; [split; [discriminate | assumption] | assumption].
    + split; [constructor; assumption | assumption].
Qed.

Lemma split_ws_words (s : str) : Forall word (split_ws s).
Proof.
  unfold split_ws. pose proof (words_nospace s) as [Hw Hws].
  destruct (words s) as [w ws]. simpl in *.
  destruct w; simpl; [assumption |].
  constructor; [split; [discriminate | assumption] | assumption].
Qed.

Lemma words_app_nospace (w x : str) :
  nospace w → words (w ++ x) = (w ++ (words x).1, (words x).2).
Proof.
  induction 1 as [|c w Hc Hw IH]; simpl.
  - now destruct (words x).
  - rewrite IH, Hc. reflexivity.
Qed.

Lemma words_join (ws : list str) :
  Forall word ws →
  words (join (lit " ") ws) = match ws with [] => ([], []) | w :: rest => (w, rest) end.
Proof.
  induction 1 as [|w ws [Hne Hw] Hws IH]; [reflexivity |].
  destruct ws as [|w2 rest].
  - simpl. rewrite <- (app_nil_r w) at 1.
    rewrite words_app_nospace by assumption. simpl. now rewrite app_nil_r.
  - change (join (lit " ") (w :: w2 :: rest))
      with (w ++ " "%char :: join (lit " ") (w2 :: rest)).
    rewrite words_app_nospace by assumption.
    cbn [words]. rewrite IH. simpl.
    inversion Hws as [|? ? [Hne2 _] _]; subst.
    destruct w2; [congruence |]. simpl. now rewrite app_nil_r.
Qed.

(** Splitting a title that was joined from words gives the words back. *)
Lemma split_ws_join (ws : list str) :
  Forall word ws → split_ws (join (lit " ") ws) = ws.
Proof.
  intros H. unfold split_ws. rewrite words_join by assumption.
  destruct H as [|w ws [Hne _] _]; [reflexivity |].
  destruct w; [congruence | reflexivity].
Qed.

Lemma lower_nospace (w : str) : nospace w → nospace (lower w).
Proof.
  induction 1 as [|c w Hc Hw IH]; simpl; constructor; [| exact IH].
  now rewrite lower_char_space.
Qed.

Lemma lower_word (w : str) : word w → word (lower w).
Proof.
  intros [Hne Hw]. split; [| now apply lower_nospace].
  destruct w; [congruence | discriminate].
Qed.

Lemma capitalize_word (w : str) : word w → word (capitalize w).
Proof.
  intros [Hne Hw]. destruct w as [|c r]; [congruence |].
  inversion Hw as [|? ? Hc Hr]; subst. split; [discriminate |].
  simpl. constructor; [now rewrite upper_char_space | now apply lower_nospace].
Qed.

Lemma title_word_word (n i : nat) (w : str) : word w → word (title_word n i w).
Proof.
  intros H. unfold title_word.
  destruct (_ || _); [now apply capitalize_word |].
  destruct (in_words _ _); [now apply lower_word | now apply capitalize_word].
Qed.

Lemma Forall_imap_word (f : nat → str → str) (ws : list str) :
  (∀ i w, word w → word (f i w)) → Forall word ws → Forall word (imap f ws).
Proof.
  intros Hf H. revert f Hf. induction H as [|w ws Hw Hws IH]; intros f Hf; simpl.
  - constructor.
  - constructor; [now apply Hf |]. apply IH. intros i x. apply Hf.
Qed.

Lemma in_words_In (w : str) (ws : list str) : in_words w ws = true ↔ In w ws.
Proof.
  unfold in_words, str_eqb. rewrite existsb_exists. split.
  - intros (x & Hx & Heq). apply bool_decide_eq_true in Heq. now subst.
  - intros H. exists w. split; [exact H | now apply bool_decide_eq_true].
Qed.

(** The rule of the specification for the word at index [i] of [n]
    words: capitalised at both ends of the title, otherwise lowercase
    when it is a minor word and capitalised when it is not. *)
Lemma title_word_rule (n i : nat) (w : str) :
  title_word n i w
  = if decide (i = 0 ∨ i = n - 1)%nat then capitalize w
    else if decide (In (lower w) lowercase_words) then lower w
    else capitalize w.
Proof.
  unfold title_word.
  destruct (decide (i = 0 ∨ i = n - 1)%nat) as [Hi | Hi].
  - assert (((i =? 0) || (i =? n - 1))%nat = true) as ->; [| reflexivity].
    apply orb_true_iff. rewrite !Nat.eqb_eq. exact Hi.
  - assert (((i =? 0) || (i =? n - 1))%nat = false) as ->.
    { apply orb_false_iff. rewrite !Nat.eqb_neq. lia. }
    destruct (decide (In (lower w) lowercase_words)) as [Hin | Hin].
    + apply in_words_In in Hin. now rewrite Hin.
    + destruct (in_words (lower w) lowercase_words) eqn:E; [| reflexivity].
      apply in_words_In in E. contradiction.
Qed.

Lemma imap_ext_eq {A B} (f g : nat → A → B) (l : list A) :
  (∀ i x, f i x = g i x) → imap f l = imap g l.
Proof.
  revert f g. induction l as [|x l IH]; intros f g H; simpl; [reflexivity |].
  rewrite H. f_equal. apply IH. intros i y. apply H.
Qed.

(** C4: the words of the normalised title are the words of the input,
    each capitalised, except that a word of the minor-word set which is
    neither the first nor the last word is put in lowercase; the title
    is these words joined by single spaces, and a title of one word is
    that word capitalised. *)
Theorem C4_title_case_words (text : str) :
  let n := length (split_ws text) in
  let rule (i : nat) (w : str) :=
    if decide (i = 0 ∨ i = n - 1)%nat then capitalize w
    else if decide (In (lower w) lowercase_words) then lower w
    else capitalize w in
  split_ws (title_case text) = imap rule (split_ws text)
  ∧ title_case text = join (lit " ") (imap rule (split_ws text))
  ∧ (∀ w, split_ws text = [w] → title_case text = capitalize w).
Proof.
  intros n rule.
  assert (Hrule : imap (title_word n) (split_ws text) = imap rule (split_ws text))
    by (apply imap_ext_eq; intros; apply title_word_rule).
  assert (Htc : title_case text = join (lit " ") (imap rule (split_ws text)))
    by (unfold title_case; fold n; now rewrite Hrule).
  split; [| split; [exact Htc |]].
  - rewrite Htc, <- Hrule. apply split_ws_join.
    apply Forall_imap_word; [intros; now apply title_word_word | apply split_ws_words].
  - intros w Hw. unfold title_case. rewrite Hw. reflexivity.
Qed.

Example title_case_boundaries :
  title_case (lit "the matrix OF the") = lit "The Matrix of The"
  ∧ title_case (lit "of") = lit "Of"
  ∧ title_case (lit "  war   AND peace ") = lit "War and Peace".
Proof. vm_compute. auto. Qed.

End TitleCase.

(** ** The path resolver *)

Section PathResolver.

Let noslash (s : str) : Prop := Forall (fun c => c ≠ "/"%char) s.

Lemma safe_app (a b : str) : safe a → safe b → safe (a ++ b).
Proof. intros Ha Hb. apply Forall_app. auto. Qed.

Lemma sanitize_safe (s : str) : safe (sanitize s).
Proof.
  unfold safe, sanitize, remove_chars. induction s as [|c s IH]; simpl; [constructor |].
  destruct (is_unsafe c) eqn:Hc; simpl; [exact IH | constructor; assumption].
Qed.

Lemma safe_noslash (s : str) : safe s → noslash s.
Proof.
  induction 1 as [|c s Hc Hs IH]; constructor; [| exact IH].
  intros ->. discriminate Hc.
Qed.

Lemma uint_safe (d : Decimal.uint) :
  safe (lit (NilEmpty.string_of_uint d)).
Proof. induction d; simpl; constructor; solve [reflexivity | assumption]. Qed.

Lemma str_of_int_safe (z : Z) : safe (str_of_int z).
Proof.
  unfold str_of_int, NilZero.string_of_int, NilZero.string_of_uint.
  destruct (Z.to_int z) as [d | d]; destruct d; simpl;
    repeat (constructor; [reflexivity |]); try apply uint_safe; constructor.
Qed.

Lemma fmt_02d_safe (z : Z) : safe (fmt_02d z).
Proof.
  unfold fmt_02d. destruct (z <? 0); [apply str_of_int_safe |].
  destruct (z <? 10); [| apply str_of_int_safe].
  constructor; [reflexivity | apply str_of_int_safe].
Qed.

Lemma lit_safe_season : safe (lit "Season ").
Proof. repeat constructor. Qed.

Lemma split_on_noslash (s : str) : noslash s → split_on "/" s = (s, []).
Proof.
  induction 1 as [|c s Hc Hs IH]; simpl; [reflexivity |].
  rewrite IH. destruct (char_eqb c "/") eqn:E; [| reflexivity].
  apply char_eqb_eq in E. contradiction.
Qed.

Lemma parts_noslash (s : str) :
  noslash s → parts s = if decide (s = [] ∨ s = lit ".") then [] else [s].
Proof.
  intros H. unfold parts. rewrite split_on_noslash by assumption.
  unfold str_eqb. simpl List.filter.
  destruct (decide (s = [] ∨ s = lit ".")) as [[-> | ->] | Hn]; [reflexivity .. |].
  rewrite !bool_decide_eq_false_2 by tauto. reflexivity.
Qed.

Lemma path_join_noslash (base : path) (s : str) :
  noslash s → path_join base s = base ++ parts s.
Proof.
  intros H. unfold path_join. destruct s as [|c s]; [reflexivity |].
  inversion H as [|? ? Hc _]; subst.
  destruct c as [[] [] [] [] [] [] [] []]; try reflexivity. congruence.
Qed.

(** Joining a name without slash adds at most that one component. *)
Lemma path_join_dir (base : path) (s : str) :
  noslash s → ∃ l, path_join base s = base ++ l ∧ (l = [] ∨ l = [s]).
Proof.
  intros H. rewrite path_join_noslash, parts_noslash by assumption.
  destruct (decide _); eauto.
Qed.

Lemma path_join_entry (base : path) (s : str) :
  noslash s → (1 < length s)%nat ∨ entry_name s → path_join base s = base ++ [s].
Proof.
  intros H Hs. rewrite path_join_noslash, parts_noslash by assumption.
  destruct (decide _) as [[-> | ->] | _]; [| | reflexivity].
  - destruct Hs as [Hl | [Hne _]]; [simpl in Hl; lia | congruence].
  - destruct Hs as [Hl | (_ & Hne & _)]; [simpl in Hl; lia | congruence].
Qed.

Lemma suffix_noslash (nm : str) : noslash nm → noslash (suffix_of_name nm).
Proof.
  intros H. unfold suffix_of_name. destruct (cut nm); [| constructor].
  now apply Forall_drop.
Qed.

Lemma noslash_app (a b : str) : noslash a → noslash b → noslash (a ++ b).
Proof. intros Ha Hb. apply Forall_app. auto. Qed.

(** The movie directory, the show directory and the season directory
    never contain an unsafe character. *)
Lemma movie_dir_name_safe (i : info) : safe (movie_dir_name i).
Proof. apply sanitize_safe. Qed.

Lemma show_name_safe (i : info) : safe (show_name i).
Proof. apply sanitize_safe. Qed.

Lemma season_dir_name_safe (se : Z) : safe (season_dir_name se).
Proof. apply safe_app; [apply lit_safe_season | apply fmt_02d_safe]. Qed.

(** The episode filename is safe up to the extension of the source. *)
Lemma episode_name_safe (file_path : path) (i : info) (se ep : Z) :
  safe (path_suffix file_path) → safe (episode_name file_path i se ep).
Proof.
  intros H. unfold episode_name.
  repeat apply safe_app; try apply fmt_02d_safe; try apply show_name_safe;
    try assumption; repeat constructor.
Qed.

Lemma episode_name_noslash (file_path : path) (i : info) (se ep : Z) :
  noslash (path_name file_path) → noslash (episode_name file_path i se ep).
Proof.
  intros H. unfold episode_name.
  repeat apply noslash_app;
    try (apply safe_noslash; first [apply fmt_02d_safe | apply show_name_safe]);
    try (now apply suffix_noslash); repeat constructor; discriminate.
Qed.

Lemma episode_name_long (file_path : path) (i : info) (se ep : Z) :
  (1 < length (episode_name file_path i se ep))%nat.
Proof. unfold episode_name. rewrite !length_app. simpl. lia. Qed.

Lemma season_dir_name_long (se : Z) : (1 < length (season_dir_name se))%nat.
Proof. unfold season_dir_name. rewrite length_app. simpl. lia. Qed.

Opaque path_join.

(** C5 (as amended): for every classified file, the directory
    components the resolver adds below the library root (the movie
    directory, or the show directory and the season directory) contain
    no unsafe character; the episode filename contains none provided the
    extension of the source file contains none; the movie filename is
    the name of the source file, unchanged and not sanitised. *)
Theorem C5_destination_components (file_path d : path) :
  entry_name (path_name file_path) →
  dest_of file_path = Some d →
  (is_tv (parse_filename (path_name file_path)) = false
   ∧ ∃ ds, d = MOVIES_DIR ++ ds ++ [path_name file_path] ∧ Forall safe ds)
  ∨ (is_tv (parse_filename (path_name file_path)) = true
     ∧ ∃ ds fname, d = TV_DIR ++ ds ++ [fname] ∧ Forall safe ds
                   ∧ (safe (path_suffix file_path) → safe fname)).
Proof.
  intros Hname Hd. unfold dest_of in Hd.
  assert (Hns : noslash (path_name file_path)) by apply Hname.
  set (i := parse_filename (path_name file_path)) in *.
  destruct (is_tv i) eqn:Htv.
  - right. split; [reflexivity |]. unfold tv_dest in Hd.
    destruct (season i) as [se|]; [| discriminate].
    destruct (episode i) as [ep|]; [| discriminate].
    injection Hd as <-.
    destruct (path_join_dir TV_DIR (show_name i)) as (l & -> & Hl);
      [apply safe_noslash, show_name_safe |].
    rewrite (path_join_entry _ (season_dir_name se));
      [| apply safe_noslash, season_dir_name_safe | left; apply season_dir_name_long].
    rewrite (path_join_entry _ (episode_name file_path i se ep));
      [| now apply episode_name_noslash | left; apply episode_name_long].
    exists (l ++ [season_dir_name se]), (episode_name file_path i se ep).
    split; [now rewrite <- !app_assoc |]. split; [| apply episode_name_safe].
    apply Forall_app. split.
    + destruct Hl as [-> | ->]; [apply Forall_nil_2 |].
      apply Forall_cons_2; [apply show_name_safe | apply Forall_nil_2].
    + apply Forall_cons_2; [apply season_dir_name_safe | apply Forall_nil_2].
  - left. split; [reflexivity |]. injection Hd as <-. unfold movie_dest.
    destruct (path_join_dir MOVIES_DIR (movie_dir_name i)) as (l & -> & Hl);
      [apply safe_noslash, movie_dir_name_safe |].
    rewrite (path_join_entry _ (path_name file_path)) by auto.
    exists l. split; [now rewrite <- app_assoc |].
    destruct Hl as [-> | ->]; [apply Forall_nil_2 |].
    apply Forall_cons_2; [apply movie_dir_name_safe | apply Forall_nil_2].
Qed.

Transparent path_join.

Lemma what_entry_name : entry_name (path_name (DOWNLOAD_DIR ++ [what])).
Proof.
  unfold path_name. rewrite last_last.
  split; [discriminate |]. split; [discriminate |].
  repeat constructor; discriminate.
Qed.

Lemma C5_witness :
  (is_tv (parse_filename (path_name (DOWNLOAD_DIR ++ [what]))) = false
   ∧ ∃ ds, MOVIES_DIR ++ [lit "What"; what]
           = MOVIES_DIR ++ ds ++ [path_name (DOWNLOAD_DIR ++ [what])]
           ∧ Forall safe ds)
  ∨ (is_tv (parse_filename (path_name (DOWNLOAD_DIR ++ [what]))) = true
     ∧ ∃ ds fname, MOVIES_DIR ++ [lit "What"; what] = TV_DIR ++ ds ++ [fname]
                   ∧ Forall safe ds
                   ∧ (safe (path_suffix (DOWNLOAD_DIR ++ [what])) → safe fname)).
Proof.
  apply (C5_destination_components (DOWNLOAD_DIR ++ [what])
           (MOVIES_DIR ++ [lit "What"; what])).
  - exact what_entry_name.
  - vm_compute. reflexivity.
Defined.

(** C5 (as stated) fails: the movie [what?.mkv] is linked under its own
    name, which contains a question mark. *)
Lemma C5_counterexample :
  ∃ d comp, dest_of (DOWNLOAD_DIR ++ [what]) = Some d ∧ In comp d ∧ ¬ safe comp.
Proof.
  exists (MOVIES_DIR ++ [lit "What"; what]), what.
  split; [vm_compute; reflexivity |].
  split; [apply in_or_app; right; simpl; auto |].
  intros H. unfold safe in H.
  assert (Hq : is_unsafe "?"%char = false).
  { eapply (proj1 (List.Forall_forall _ _) H). vm_compute. tauto. }
  discriminate Hq.
Qed.

(** Every recognised video extension is free of unsafe characters, so
    for the files [find_video_files] returns the episode filename is
    safe. *)
Lemma video_extension_safe (p : path) :
  has_extension VIDEO_EXTENSIONS p = true → safe (lower (path_suffix p)).
Proof.
  unfold has_extension. intros H. apply in_words_In in H.
  simpl in H. repeat (destruct H as [<- | H]; [repeat constructor |]). destruct H.
Qed.

End PathResolver.

(** ** The file system operations *)

Section FileSystem.


Lemma is_file_true (s : fs) (p : path) :
  is_file s p = true ↔ ∃ ino, files s !! p = Some ino.
Proof. unfold is_file. rewrite bool_decide_eq_true. reflexivity. Qed.

Lemma is_dir_true (s : fs) (p : path) :
  is_dir s p = true ↔ ∃ d, dirs s !! p = Some d.
Proof. unfold is_dir. rewrite bool_decide_eq_true. reflexivity. Qed.

Lemma exists_false (s : fs) (p : path) :
  exists_ s p = false ↔ files s !! p = None ∧ dirs s !! p = None.
Proof.
  unfold exists_, is_file, is_dir. rewrite orb_false_iff, !bool_decide_eq_false.
  rewrite <- !eq_None_not_Some. reflexivity.
Qed.

(** [os.mkdir] on a path that exists raises [EEXIST] and changes
    nothing. *)
Lemma os_mkdir_exists (s : fs) (p : path) :
  exists_ s p = true → os_mkdir p s = (inl EEXIST, s).
Proof. intros H. unfold os_mkdir, bind, get. simpl. now rewrite H. Qed.

(** [mkdir(parents=True, exist_ok=True)] on an existing directory
    succeeds and changes nothing. *)
Lemma mkdir_parents_rev_existing (s : fs) (rp : path) :
  is_dir s (rev rp) = true → mkdir_parents_rev rp s = (inr tt, s).
Proof.
  intros H.
  assert (Hex : exists_ s (rev rp) = true)
    by (unfold exists_; rewrite H; apply orb_true_r).
  destruct rp as [|c rp]; cbn [mkdir_parents_rev]; cbv zeta; unfold try_except;
    rewrite (os_mkdir_exists _ _ Hex); unfold bind, get; cbv beta iota;
    rewrite H; reflexivity.
Qed.

Lemma mkdir_parents_existing (s : fs) (p : path) :
  is_dir s p = true → mkdir_parents p s = (inr tt, s).
Proof.
  intros H. unfold mkdir_parents. apply mkdir_parents_rev_existing.
  now rewrite rev_involutive.
Qed.

Lemma unlink_ok (s s' : fs) (p : path) :
  unlink p s = (inr tt, s') ↔
  (∃ ino, files s !! p = Some ino)
  ∧ s' = {| files := delete p (files s); dirs := dirs s |}.
Proof.
  unfold unlink, bind, get, put, raise. simpl.
  destruct (files s !! p) as [ino|] eqn:E.
  - split; [intros [= <-]; eauto | intros [_ ->]; reflexivity].
  - split; [discriminate | intros [[? ?] _]; discriminate].
Qed.

Lemma os_link_ok (s s' : fs) (src dst : path) :
  os_link src dst s = (inr tt, s') ↔
  ∃ ino, files s !! src = Some ino
         ∧ dirs s !! parent dst = Some ino.1
         ∧ exists_ s dst = false
         ∧ s' = {| files := <[dst := ino]> (files s); dirs := dirs s |}.
Proof.
  unfold os_link, bind, get, put, raise. simpl.
  destruct (files s !! src) as [ino|] eqn:Esrc.
  2: { split; [discriminate | intros (? & ? & _); discriminate]. }
  destruct (dirs s !! parent dst) as [d|] eqn:Edir.
  2: { split; [discriminate | intros (? & _ & ? & _); discriminate]. }
  destruct (exists_ s dst) eqn:Eex.
  { split; [discriminate | intros (? & _ & _ & ? & _); discriminate]. }
  destruct (bool_decide (ino.1 = d)) eqn:Edev.
  - apply bool_decide_eq_true in Edev. subst d. split.
    + intros [= <-]. exists ino. auto.
    + intros (ino' & [= <-] & _ & _ & ->). reflexivity.
  - apply bool_decide_eq_false in Edev. split; [discriminate |].
    intros (ino' & [= <-] & [= Hd] & _). congruence.
Qed.

(** Errors never change the state in [unlink] and [os.link]. *)
Lemma unlink_state (s s' : fs) (p : path) (e : oserror) :
  unlink p s = (inl e, s') → s' = s.
Proof.
  unfold unlink, bind, get, put, raise. simpl.
  destruct (files s !! p); [discriminate | now intros [= _ <-]].
Qed.

Lemma os_link_state (s s' : fs) (src dst : path) (e : oserror) :
  os_link src dst s = (inl e, s') → s' = s.
Proof.
  unfold os_link, bind, get, put, raise. simpl.
  destruct (files s !! src); [| now intros [= _ <-]].
  destruct (dirs s !! parent dst); [| now intros [= _ <-]].
  destruct (exists_ s dst); [now intros [= _ <-] |].
  destruct (bool_decide _); [discriminate | now intros [= _ <-]].
Qed.

(** [create_hardlink] step by step. *)
Lemma create_hardlink_unfold (s : fs) (src dst : path) :
  create_hardlink src dst s =
  match mkdir_parents (parent dst) s with
  | (inl _, sa) => (inr false, sa)
  | (inr _, sa) =>
      match (if exists_ sa dst then unlink dst sa else (inr tt, sa)) with
      | (inl _, sb) => (inr false, sb)
      | (inr _, sb) =>
          match os_link src dst sb with
          | (inl _, sc) => (inr false, sc)
          | (inr _, sc) => (inr true, sc)
          end
      end
  end.
Proof.
  unfold create_hardlink, try_except, bind, get, ret.
  destruct (mkdir_parents (parent dst) s) as [[e | []] sa]; [reflexivity |].
  simpl. destruct (exists_ sa dst).
  - destruct (unlink dst sa) as [[e | []] sb]; [reflexivity |].
    destruct (os_link src dst sb) as [[e | []] sc]; reflexivity.
  - destruct (os_link src dst sa) as [[e | []] sc]; reflexivity.
Qed.

(** What a successful [create_hardlink] leaves behind: the destination
    is a new entry for the inode of the source, in a state [sb] where it
    was absent. *)
Lemma create_hardlink_success (s s1 : fs) (src dst : path) :
  create_hardlink src dst s = (inr true, s1) →
  ∃ sb ino,
    files sb !! src = Some ino
    ∧ dirs sb !! parent dst = Some ino.1
    ∧ exists_ sb dst = false
    ∧ s1 = {| files := <[dst := ino]> (files sb); dirs := dirs sb |}.
Proof.
  rewrite create_hardlink_unfold.
  destruct (mkdir_parents (parent dst) s) as [[e | []] sa]; [discriminate |].
  destruct (if exists_ sa dst then unlink dst sa else (inr tt, sa))
    as [[e | []] sb]; [discriminate |].
  destruct (os_link src dst sb) as [[e | []] sc] eqn:Hl; [discriminate |].
  intros [= <-]. apply os_link_ok in Hl as (ino & ? & ? & ? & ->). eauto 6.
Qed.

End FileSystem.

(** ** The hardlink organizer *)

Section Organizer.



Lemma run_result {A} (r : (oserror + A) * fs) (a : oserror + A) :
  r.1 = a → r = (a, r.2).
Proof. destruct r. simpl. now intros ->. Qed.


Example organized_links :
  files organized !! rick_dest = Some (1, 7)%nat
  ∧ files organized !! rick_src = Some (1, 7)%nat
  ∧ nlink organized (1, 7)%nat = 2%nat.
Proof. vm_compute. auto. Qed.

(** C10: there is a file system state in which the destination exists
    and the link cannot be made (here the source lies on another
    device): [create_hardlink] reports failure and the destination
    entry, removed before the attempt, is gone. *)
Theorem C10_overwrite_not_atomic :
  ∃ (s : fs) (src dst : path),
    exists_ s dst = true
    ∧ (create_hardlink src dst s).1 = inr false
    ∧ exists_ (create_hardlink src dst s).2 dst = false
    ∧ (os_link src dst (create_hardlink src dst s).2).1 = inl EXDEV.
Proof.
  exists stale_tree, rick_src, rick_dest. vm_compute. auto.
Qed.

(** In general: a destination that is removed stays removed whenever the
    link then fails, for whatever reason. *)
Lemma create_hardlink_loses_destination (s : fs) (src dst : path) (e : oserror) :
  is_file s dst = true →
  is_dir s (parent dst) = true →
  os_link src dst {| files := delete dst (files s); dirs := dirs s |}
    = (inl e, {| files := delete dst (files s); dirs := dirs s |}) →
  create_hardlink src dst s
  = (inr false, {| files := delete dst (files s); dirs := dirs s |}).
Proof.
  intros Hf Hd Hl. rewrite create_hardlink_unfold.
  rewrite mkdir_parents_existing by assumption.
  assert (exists_ s dst = true) as -> by (unfold exists_; now rewrite Hf).
  apply is_file_true in Hf.
  assert (Hun : unlink dst s = (inr tt, {| files := delete dst (files s); dirs := dirs s |}))
    by (apply unlink_ok; auto).
  rewrite Hun, Hl. reflexivity.
Qed.

(** A run over the staging tree organises its one episode. *)
Example organize_directory_counts :
  (organize_directory DOWNLOAD_DIR (tree 1)).1 = inr (1, 1)%nat
  ∧ (organize_directory DOWNLOAD_DIR (tree 2)).1 = inr (0, 1)%nat
  ∧ (organize_directory MOVIES_DIR (tree 1)).1 = inr (0, 0)%nat.
Proof. vm_compute. auto. Qed.

(** The same happens when the organizer is run on the library itself:
    source and destination are one path, the entry is removed and cannot
    be linked back. *)
Example organize_library_in_place :
  dest_of rick_dest = Some rick_dest
  ∧ (organize_file rick_dest library_only).1 = inr false
  ∧ files (organize_file rick_dest library_only).2 = ∅.
Proof. vm_compute. auto. Qed.

End Organizer.

(** ** The orphan reconciler *)

Section Reconciler.

Lemma entries_In (s : fs) (p : path) :
  In p (entries s) ↔ is_file s p = true ∨ is_dir s p = true.
Proof.
  unfold entries. rewrite <- list_elem_of_In, elem_of_elements, elem_of_union.
  rewrite !elem_of_dom, is_file_true, is_dir_true. reflexivity.
Qed.

(** The walk below [root] returns exactly the regular files it can
    reach. *)
Lemma walk_files_In (s : fs) (root p : path) :
  In p (walk_files s root) ↔ reaches s root p = true ∧ is_file s p = true.
Proof.
  unfold walk_files. rewrite filter_In, entries_In, andb_true_iff. tauto.
Qed.

Lemma find_broken_hardlinks_In (s : fs) (p : path) :
  In p (find_broken_hardlinks s)
  ↔ reaches s downloads_dir p = true ∧ is_file s p = true
    ∧ has_extension ORPHAN_EXTENSIONS p = true ∧ st_nlink s p = Some 1%nat.
Proof.
  unfold find_broken_hardlinks.
  rewrite filter_In, walk_files_In, andb_true_iff, bool_decide_eq_true. tauto.
Qed.

(** C7: the scan reports a path exactly when it is a regular file
    reached below the staging root, its extension (in any case) is one
    of the four recognised ones and its link count is 1; in particular
    such a file with link count 1 is reported, and no file with link
    count 2 or more is. *)
Theorem C7_orphan_scan (s : fs) (p : path) :
  (In p (find_broken_hardlinks s)
   ↔ reaches s downloads_dir p = true ∧ is_file s p = true
     ∧ has_extension ORPHAN_EXTENSIONS p = true ∧ st_nlink s p = Some 1%nat)
  ∧ (∀ n, st_nlink s p = Some n → (2 <= n)%nat → ¬ In p (find_broken_hardlinks s)).
Proof.
  split; [apply find_broken_hardlinks_In |].
  intros n Hn Hge Hin. apply find_broken_hardlinks_In in Hin as (_ & _ & _ & H1).
  rewrite Hn in H1. injection H1 as ->. lia.
Qed.

(** Linking adds one to the link count of the inode. *)
Lemma nlink_link (s : fs) (dst : path) (ino : inode) :
  files s !! dst = None →
  nlink {| files := <[dst := ino]> (files s); dirs := dirs s |} ino = S (nlink s ino).
Proof.
  intros H. unfold nlink. simpl.
  rewrite map_filter_insert_True by reflexivity.
  apply map_size_insert_None. apply map_lookup_filter_None. now left.
Qed.

Lemma nlink_positive (s : fs) (p : path) (ino : inode) :
  files s !! p = Some ino → (1 <= nlink s ino)%nat.
Proof.
  intros H. unfold nlink.
  assert (size (filter (fun kv : path * inode => kv.2 = ino) (files s)) ≠ 0%nat); [| lia].
  apply map_size_ne_0_lookup. exists p, ino.
  apply map_lookup_filter_Some. auto.
Qed.

(** X8: a file that has just been organised is not an orphan: its inode
    has the new library entry besides the staging one, so the scan of the
    reconciler does not report it. *)
Lemma organized_not_orphan (s s1 : fs) (file_path : path) :
  organize_file file_path s = (inr true, s1) →
  ¬ In file_path (find_broken_hardlinks s1).
Proof.
  unfold organize_file. destruct (dest_of file_path) as [d|]; [| discriminate].
  intros H. apply create_hardlink_success in H as (sb & ino & Hsrc & _ & Hex & ->).
  apply exists_false in Hex as [Hf _].
  assert (Hne : file_path ≠ d) by (intros ->; congruence).
  intros Hin. apply find_broken_hardlinks_In in Hin as (_ & _ & _ & H1).
  unfold st_nlink in H1. simpl in H1.
  rewrite lookup_insert_ne in H1 by congruence. rewrite Hsrc in H1. simpl in H1.
  injection H1 as H1.
  rewrite (nlink_link sb d ino Hf) in H1.
  pose proof (nlink_positive sb file_path ino Hsrc). lia.
Qed.

Example scan_before_and_after :
  find_broken_hardlinks (tree 1) = [rick_src]
  ∧ find_broken_hardlinks organized = [].
Proof. vm_compute. auto. Qed.

Lemma drop_while_split (P : ascii → bool) (s : str) :
  ∃ a, s = a ++ drop_while P s ∧ Forall (fun c => P c = true) a.
Proof.
  induction s as [|c s (a & Heq & Ha)]; simpl.
  - exists []. split; [reflexivity | constructor].
  - destruct (P c) eqn:Hc.
    + exists (c :: a). split; [simpl; now rewrite <- Heq | now constructor].
    + exists []. split; [reflexivity | constructor].
Qed.

(** [strip] removes a prefix and a suffix made of the stripped
    characters. *)
Lemma strip_with_split (P : ascii → bool) (s : str) :
  ∃ a b, s = a ++ strip_with P s ++ b
         ∧ Forall (fun c => P c = true) a ∧ Forall (fun c => P c = true) b.
Proof.
  unfold strip_with.
  destruct (drop_while_split P s) as (a & Ha & Fa).
  destruct (drop_while_split P (rev (drop_while P s))) as (b & Hb & Fb).
  exists a, (rev b). split; [| split; [exact Fa | now apply Forall_rev]].
  rewrite Ha at 1. f_equal.
  rewrite <- (rev_involutive (drop_while P s)) at 1.
  rewrite Hb at 1. now rewrite rev_app_distr.
Qed.

Lemma drop_while_head (P : ascii → bool) (c : ascii) (s : str) :
  P c = false → drop_while P (c :: s) = c :: s.
Proof. intros H. simpl. now rewrite H. Qed.

Lemma drop_while_prefix (P : ascii → bool) (a s : str) :
  Forall (fun c => P c = true) a → drop_while P (a ++ s) = drop_while P s.
Proof. induction 1 as [|c a Hc Ha IH]; simpl; [reflexivity | now rewrite Hc]. Qed.

Lemma strip_with_core (P : ascii → bool) (a b : str) (c : ascii) :
  Forall (fun x => P x = true) a → Forall (fun x => P x = true) b → P c = false →
  strip_with P (a ++ c :: b) = [c].
Proof.
  intros Ha Hb Hc. unfold strip_with.
  rewrite drop_while_prefix, drop_while_head by assumption.
  change (c :: b) with ([c] ++ b). rewrite rev_app_distr.
  rewrite drop_while_prefix by now apply Forall_rev.
  simpl. now rewrite Hc.
Qed.

Lemma lower_char_y (c : ascii) :
  lower_char c = "y"%char ↔ c = "y"%char ∨ c = "Y"%char.
Proof.
  split.
  - destruct c as [[] [] [] [] [] [] [] []]; vm_compute; intros H;
      first [discriminate H | now left | now right].
  - intros [-> | ->]; reflexivity.
Qed.

Lemma y_not_space (c : ascii) : c = "y"%char ∨ c = "Y"%char → is_space c = false.
Proof. intros [-> | ->]; reflexivity. Qed.

(** X10: the answers that count as a confirmation are exactly the letter
    [y], in either case, with any whitespace before and after it; a word
    such as "yes" is not one. *)
Lemma affirmative_iff (response : str) :
  affirmative response = true
  ↔ ∃ a b c, response = a ++ c :: b
             ∧ Forall (fun x => is_space x = true) a
             ∧ Forall (fun x => is_space x = true) b
             ∧ (c = "y"%char ∨ c = "Y"%char).
Proof.
  unfold affirmative, str_eqb. rewrite bool_decide_eq_true. split.
  - intros H. destruct (strip_with_split is_space response) as (a & b & Heq & Ha & Hb).
    fold (strip response) in Heq.
    destruct (strip response) as [|c [|c' r]]; try discriminate H.
    injection H as H. apply lower_char_y in H.
    exists a, b, c. auto.
  - intros (a & b & c & -> & Ha & Hb & Hc). unfold strip.
    rewrite strip_with_core by auto using y_not_space.
    simpl. f_equal. now apply lower_char_y.
Qed.

Lemma cleanup_unconfirmed_state (s : fs) (response : str) :
  affirmative response = false →
  (cleanup_orphaned_files (Some response) s).2 = s.
Proof.
  intros H. unfold cleanup_orphaned_files, bind, get. cbv beta iota.
  destruct (find_broken_hardlinks s); [reflexivity |].
  rewrite H. reflexivity.
Qed.

(** C8: an answer that is not a confirmation ends the cleanup with the
    file system exactly as it was: no file is unlinked and no directory is
    removed. *)
Theorem C8_cleanup_needs_confirmation (s : fs) (response : str) :
  affirmative response = false →
  cleanup_orphaned_files (Some response) s = (inr tt, s).
Proof.
  intros H. unfold cleanup_orphaned_files, bind, get. cbv beta iota.
  destruct (find_broken_hardlinks s); [reflexivity |].
  rewrite H. reflexivity.
Qed.

Lemma C8_witness :
  cleanup_orphaned_files (Some (lit "yes")) (tree 1) = (inr tt, tree 1).
Proof.
  apply (C8_cleanup_needs_confirmation (tree 1) (lit "yes")).
  vm_compute. reflexivity.
Defined.

(** Without an answer (end of input) nothing changes either, and any
    change of the file system implies a confirmation. *)
Lemma cleanup_changes_only_confirmed (s : fs) (answer : option str) :
  (cleanup_orphaned_files answer s).2 ≠ s →
  ∃ response, answer = Some response ∧ affirmative response = true.
Proof.
  intros H. destruct answer as [response|].
  - destruct (affirmative response) eqn:E; [eauto |].
    rewrite cleanup_unconfirmed_state in H by assumption. contradiction.
  - exfalso. apply H. unfold cleanup_orphaned_files, bind, get. cbv beta iota.
    destruct (find_broken_hardlinks s); reflexivity.
Qed.

(** With a confirmation the orphan is deleted; the staging root itself
    stays. *)
Example cleanup_confirmed :
  files (cleanup_orphaned_files (Some (lit " Y ")) (tree 1)).2 = ∅
  ∧ is_dir (cleanup_orphaned_files (Some (lit " Y ")) (tree 1)).2 downloads_dir = true
  ∧ files (cleanup_orphaned_files (Some (lit "yes")) (tree 1)).2 !! rick_src
    = Some (1, 7)%nat.
Proof. vm_compute. auto. Qed.

End Reconciler.

(** * Further properties of the code *)

(** ** Titles in normal form *)

Section TitleNormalForm.

Lemma lower_char_idem (c : ascii) : lower_char (lower_char c) = lower_char c.
Proof. destruct c as [[] [] [] [] [] [] [] []]; vm_compute; reflexivity. Qed.

Lemma upper_char_idem (c : ascii) : upper_char (upper_char c) = upper_char c.
Proof. destruct c as [[] [] [] [] [] [] [] []]; vm_compute; reflexivity. Qed.

Lemma lower_upper_char (c : ascii) : lower_char (upper_char c) = lower_char c.
Proof. destruct c as [[] [] [] [] [] [] [] []]; vm_compute; reflexivity. Qed.

Lemma lower_idem (w : str) : lower (lower w) = lower w.
Proof.
  induction w as [|c w IH]; simpl; [reflexivity |].
  now rewrite lower_char_idem, IH.
Qed.

Lemma capitalize_idem (w : str) : capitalize (capitalize w) = capitalize w.
Proof.
  destruct w as [|c w]; simpl; [reflexivity |].
  now rewrite upper_char_idem, lower_idem.
Qed.

Lemma lower_capitalize (w : str) : lower (capitalize w) = lower w.
Proof.
  destruct w as [|c w]; simpl; [reflexivity |].
  now rewrite lower_upper_char, lower_idem.
Qed.

Lemma title_word_idem (n i : nat) (w : str) :
  title_word n i (title_word n i w) = title_word n i w.
Proof.
  unfold title_word. destruct (_ || _)%nat; [apply capitalize_idem |].
  destruct (in_words (lower w) lowercase_words) eqn:E.
  - now rewrite lower_idem, E.
  - now rewrite lower_capitalize, E, capitalize_idem.
Qed.

Lemma imap_imap {A B C} (f : nat → B → C) (g : nat → A → B) (l : list A) :
  imap f (imap g l) = imap (fun i x => f i (g i x)) l.
Proof.
  revert f g. induction l as [|x l IH]; intros f g; simpl; [reflexivity |].
  f_equal. apply IH.
Qed.

Lemma length_imap {A B} (f : nat → A → B) (l : list A) :
  length (imap f l) = length l.
Proof.
  revert f. induction l as [|x l IH]; intros f; simpl; [reflexivity |].
  f_equal. apply IH.
Qed.

(** The words of a normalised title, as [split] sees them again. *)
Lemma split_ws_title_case (text : str) :
  split_ws (title_case text)
  = imap (title_word (length (split_ws text))) (split_ws text).
Proof.
  unfold title_case. apply split_ws_join.
  apply Forall_imap_word; [intros; now apply title_word_word | apply split_ws_words].
Qed.

(** On the alphabet of the embedding, normalising a normalised title
    changes nothing. *)
Lemma title_case_idem (text : str) :
  title_case (title_case text) = title_case text.
Proof.
  unfold title_case at 1. rewrite split_ws_title_case, length_imap, imap_imap.
  unfold title_case. f_equal. apply imap_ext_eq. intros i w. apply title_word_idem.
Qed.

Let sep_free (s : str) : Prop := Forall (fun c => in_set (lit "._-") c = false) s.

Lemma lower_char_sep (c : ascii) :
  in_set (lit "._-") (lower_char c) = in_set (lit "._-") c.
Proof. destruct c as [[] [] [] [] [] [] [] []]; vm_compute; reflexivity. Qed.

Lemma upper_char_sep (c : ascii) :
  in_set (lit "._-") (upper_char c) = in_set (lit "._-") c.
Proof. destruct c as [[] [] [] [] [] [] [] []]; vm_compute; reflexivity. Qed.

Lemma sub_runs_removes (P : ascii → bool) (b : bool) (s : str) :
  P " "%char = false → Forall (fun c => P c = false) (sub_runs P b s).
Proof.
  intros Hsp. revert b. induction s as [|c s IH]; intros b; simpl; [constructor |].
  destruct (P c) eqn:Hc.
  - destruct b; [apply IH | constructor; [exact Hsp | apply IH]].
  - constructor; [exact Hc | apply IH].
Qed.

Lemma sub_runs_keeps (Q : ascii → Prop) (P : ascii → bool) (b : bool) (s : str) :
  Q " "%char → Forall Q s → Forall Q (sub_runs P b s).
Proof.
  intros Hsp H. revert b. induction H as [|c s Hc Hs IH]; intros b; simpl; [constructor |].
  destruct (P c); [destruct b |]; auto.
Qed.

Lemma drop_while_keeps (Q : ascii → Prop) (P : ascii → bool) (s : str) :
  Forall Q s → Forall Q (drop_while P s).
Proof.
  induction 1 as [|c s Hc Hs IH]; simpl; [constructor |].
  destruct (P c); [exact IH | now constructor].
Qed.

Lemma strip_with_keeps (Q : ascii → Prop) (P : ascii → bool) (s : str) :
  Forall Q s → Forall Q (strip_with P s).
Proof.
  intros H. unfold strip_with.
  apply Forall_rev, drop_while_keeps, Forall_rev, drop_while_keeps, H.
Qed.

Lemma words_keep (Q : ascii → Prop) (s : str) :
  Forall Q s → Forall Q (words s).1 ∧ Forall (Forall Q) (words s).2.
Proof.
  induction 1 as [|c s Hc Hs [IHw IHws]]; simpl; [split; constructor |].
  destruct (words s) as [w ws]. simpl in *.
  destruct (is_space c); simpl.
  - split; [constructor |]. destruct w; simpl; [assumption | now constructor].
  - split; [now constructor | assumption].
Qed.

Lemma split_ws_keeps (Q : ascii → Prop) (s : str) :
  Forall Q s → Forall (Forall Q) (split_ws s).
Proof.
  intros H. unfold split_ws. destruct (words_keep Q s H) as [Hw Hws].
  destruct (words s) as [w ws]. simpl in *.
  destruct w; simpl; [assumption | now constructor].
Qed.

Lemma join_keeps (Q : ascii → Prop) (ws : list str) :
  Q " "%char → Forall (Forall Q) ws → Forall Q (join (lit " ") ws).
Proof.
  intros Hsp. induction 1 as [|w ws Hw Hws IH]; [constructor |].
  destruct ws as [|w2 rest]; [exact Hw |].
  change (join (lit " ") (w :: w2 :: rest))
    with (w ++ " "%char :: join (lit " ") (w2 :: rest)).
  apply Forall_app. split; [exact Hw | constructor; [exact Hsp | exact IH]].
Qed.

Lemma lower_sep_free (w : str) : sep_free w → sep_free (lower w).
Proof.
  induction 1 as [|c w Hc Hw IH]; simpl; constructor; [| exact IH].
  now rewrite lower_char_sep.
Qed.

Lemma capitalize_sep_free (w : str) : sep_free w → sep_free (capitalize w).
Proof.
  intros H. destruct H as [|c w Hc Hw]; simpl; constructor.
  - now rewrite upper_char_sep.
  - now apply lower_sep_free.
Qed.

Lemma title_word_sep_free (n i : nat) (w : str) :
  sep_free w → sep_free (title_word n i w).
Proof.
  intros H. unfold title_word. destruct (_ || _)%nat; [now apply capitalize_sep_free |].
  destruct (in_words _ _); [now apply lower_sep_free | now apply capitalize_sep_free].
Qed.

Lemma Forall_imap_pred {A} (P : A → Prop) (f : nat → A → A) (l : list A) :
  (∀ i x, P x → P (f i x)) → Forall P l → Forall P (imap f l).
Proof.
  intros Hf H. revert f Hf. induction H as [|x l Hx Hl IH]; intros f Hf; simpl.
  - constructor.
  - constructor; [now apply Hf |]. apply IH. intros i y. apply Hf.
Qed.

Lemma title_case_sep_free (text : str) : sep_free text → sep_free (title_case text).
Proof.
  intros H. unfold title_case. apply join_keeps; [reflexivity |].
  apply Forall_imap_pred; [intros; now apply title_word_sep_free |].
  now apply split_ws_keeps.
Qed.

Lemma clean_title_sep_free (raw : str) : sep_free (clean_title raw).
Proof.
  unfold clean_title. apply title_case_sep_free.
  apply sub_runs_keeps; [reflexivity |].
  apply strip_with_keeps. apply sub_runs_removes. reflexivity.
Qed.

Lemma lower_char_ascii (c : ascii) :
  in_range 0 127 c = true → in_range 0 127 (lower_char c) = true.
Proof. destruct c as [[] [] [] [] [] [] [] []]; vm_compute; auto. Qed.

Lemma upper_char_ascii (c : ascii) :
  in_range 0 127 c = true → in_range 0 127 (upper_char c) = true.
Proof. destruct c as [[] [] [] [] [] [] [] []]; vm_compute; auto. Qed.

Lemma lower_ascii (w : str) : ascii_text w → ascii_text (lower w).
Proof.
  induction 1 as [|c w Hc Hw IH]; simpl; constructor; [| exact IH].
  now apply lower_char_ascii.
Qed.

Lemma capitalize_ascii (w : str) : ascii_text w → ascii_text (capitalize w).
Proof.
  intros H. destruct H as [|c w Hc Hw]; simpl; constructor.
  - now apply upper_char_ascii.
  - now apply lower_ascii.
Qed.

Lemma title_word_ascii (n i : nat) (w : str) :
  ascii_text w → ascii_text (title_word n i w).
Proof.
  intros H. unfold title_word. destruct (_ || _)%nat; [now apply capitalize_ascii |].
  destruct (in_words _ _); [now apply lower_ascii | now apply capitalize_ascii].
Qed.

Lemma title_case_ascii (text : str) : ascii_text text → ascii_text (title_case text).
Proof.
  intros H. unfold title_case. apply join_keeps; [reflexivity |].
  apply Forall_imap_pred; [intros; now apply title_word_ascii |].
  now apply split_ws_keeps.
Qed.

(** X1: on ASCII text the title normalizer is idempotent.  The
    normalised title of an ASCII text is ASCII again, and normalising it
    once more changes nothing.  The restriction matters: on that
    alphabet [split], [lower] and [capitalize] are embedded exactly,
    while outside it [capitalize] can produce a word whose lower-case
    form is a minor word although the word it came from was none. *)
Theorem X1_title_case_idempotent (text : str) :
  ascii_text text →
  ascii_text (title_case text)
  ∧ title_case (title_case text) = title_case text.
Proof.
  intros H. split; [now apply title_case_ascii | apply title_case_idem].
Qed.

Lemma X1_witness :
  ascii_text (lit "the lord of the rings")
  ∧ ascii_text (title_case (lit "the lord of the rings"))
  ∧ title_case (title_case (lit "the lord of the rings"))
    = title_case (lit "the lord of the rings").
Proof.
  assert (H : ascii_text (lit "the lord of the rings"))
    by (unfold ascii_text; simpl; repeat (constructor; [reflexivity |]); constructor).
  split; [exact H | apply (X1_title_case_idempotent _ H)].
Defined.

(** Every title the classifier returns is a cleaned raw title. *)
Lemma parse_title_clean (filename : str) :
  ∃ raw, title (parse_filename filename) = clean_title raw.
Proof.
  unfold parse_filename.
  destruct (se_search (stem filename)) as [[[pre [g1 g2]] post]|]; [simpl; eauto |].
  destruct (year_search (stem filename)) as [[[pre g0] post]|]; simpl; eauto.
Qed.

(** X2: the title the classifier returns is in normal form: it holds
    none of the separators dot, underscore and hyphen, and it is its own
    words joined by single spaces, so it has no leading, trailing or
    doubled whitespace. *)
Theorem X2_parsed_title_normal_form (filename : str) :
  Forall (fun c => in_set (lit "._-") c = false) (title (parse_filename filename))
  ∧ title (parse_filename filename)
    = join (lit " ") (split_ws (title (parse_filename filename))).
Proof.
  destruct (parse_title_clean filename) as [raw ->].
  split; [apply clean_title_sep_free |]. unfold clean_title.
  rewrite split_ws_title_case. reflexivity.
Qed.

End TitleNormalForm.

(** ** Year and resolution of the classifier *)

Section YearAndResolution.

(** Whatever [year_search] matches carries a year token of the string. *)
Lemma year_search_token (s pre g0 post : str) :
  year_search s = Some (pre, g0, post) →
  ∃ p r, year_at s p (strip_with (in_set (lit "()[]")) g0) r.
Proof.
  revert pre. induction s as [|c s IH]; intros pre.
  - simpl. discriminate.
  - cbn [year_search]. destruct (year_match_here (c :: s)) as [[g r0]|] eqn:Hm.
    + intros [= <- <- <-].
      apply year_match_here_Some in Hm
        as (y & <- & [(r & Hc) | (o & t & r & Heq & _ & Hc)]);
        apply year_core_Some in Hc as [Hs Hy].
      * exists [], r. split; [exact Hs | exact Hy].
      * exists [o], r. split; [rewrite Heq, Hs; reflexivity | exact Hy].
    + destruct (year_search s) as [[[pre0 g] r0]|] eqn:Hs; [| discriminate].
      intros [= <- <- <-]. destruct (IH _ eq_refl) as (p & r & Heq & Hy).
      exists (c :: p), r. split; [rewrite Heq at 1; reflexivity | exact Hy].
Qed.

(** X3: when the classifier returns a year, the file is a movie without
    season and episode, the year lies in 1900..2099, and its four digits
    stand in the stem of the filename. *)
Theorem X3_year_range (filename : str) (y : Z) :
  year (parse_filename filename) = Some y →
  is_tv (parse_filename filename) = false
  ∧ season (parse_filename filename) = None
  ∧ episode (parse_filename filename) = None
  ∧ 1900 <= y <= 2099
  ∧ ∃ pre ds post,
      stem filename = pre ++ ds ++ post ∧ year_token ds ∧ int_of_digits ds = y.
Proof.
  destruct (se_search (stem filename)) as [[[pre [g1 g2]] post]|] eqn:Hse.
  - destruct (parse_tv _ _ _ _ _ Hse) as (_ & _ & _ & Hy & _). congruence.
  - destruct (parse_not_tv _ Hse) as (Htv & Hs & He).
    destruct (year_search (stem filename)) as [[[pre g0] post]|] eqn:Hys.
    + destruct (parse_year _ _ _ _ Hse Hys) as [_ Hyear].
      rewrite Hyear. intros [= <-].
      destruct (year_search_token _ _ _ _ Hys) as (p & r & Heq & Hy).
      repeat split; try assumption; try apply Hy. eauto 6.
    + unfold parse_filename. rewrite Hse, Hys. simpl. discriminate.
Qed.

Lemma X3_witness :
  is_tv (parse_filename matrix) = false
  ∧ season (parse_filename matrix) = None
  ∧ episode (parse_filename matrix) = None
  ∧ 1900 <= 1999 <= 2099
  ∧ ∃ pre ds post,
      stem matrix = pre ++ ds ++ post ∧ year_token ds ∧ int_of_digits ds = 1999.
Proof. apply (X3_year_range matrix 1999). vm_compute. reflexivity. Defined.

Lemma literal_ci_Some (l s m rest : str) :
  literal_ci l s = Some (m, rest) → s = m ++ rest ∧ lower m = lower l.
Proof.
  revert s m. induction l as [|a l IH]; intros s m; simpl.
  - destruct s; intros [= <- <-]; auto.
  - destruct s as [|c s]; [discriminate |].
    destruct (char_eqb (lower_char a) (lower_char c)) eqn:E; [| discriminate].
    destruct (literal_ci l s) as [[m' rest']|] eqn:Hl; [| discriminate].
    intros [= <- <-]. destruct (IH _ _ Hl) as [-> Hm].
    apply char_eqb_eq in E. simpl. split; [reflexivity | congruence].
Qed.

Lemma head_omap {A B} (f : A → option B) (l : list A) (y : B) :
  head (omap f l) = Some y → ∃ x, In x l ∧ f x = Some y.
Proof.
  induction l as [|x l IH]; simpl; [discriminate |].
  destruct (f x) as [z|] eqn:Hfx; simpl.
  - intros [= ->]. eauto.
  - intros H. destruct (IH H) as (x' & ? & ?). eauto.
Qed.

Lemma res_search_Some (s pre g post : str) :
  res_search s = Some (pre, g, post) →
  s = pre ++ g ++ post
  ∧ ∃ l, In l ["720p"; "1080p"; "2160p"; "4K"]%string ∧ lower g = lower (lit l).
Proof.
  revert pre. induction s as [|c s IH]; intros pre.
  - simpl. discriminate.
  - cbn [res_search]. destruct (res_match_here (c :: s)) as [[g' r]|] eqn:Hm.
    + intros [= <- <- <-]. unfold res_match_here in Hm.
      apply head_omap in Hm as (l & Hin & Hl).
      apply literal_ci_Some in Hl as [Heq Hlow]. split; [exact Heq | eauto].
    + destruct (res_search s) as [[[pre0 g'] r]|] eqn:Hs; [| discriminate].
      intros [= <- <- <-]. destruct (IH _ eq_refl) as [-> Hl].
      split; [reflexivity | exact Hl].
Qed.

(** X4: the resolution the classifier returns is empty, or it is a piece
    of the stem that equals one of 720p, 1080p, 2160p and 4K up to
    letter case; it is returned as the filename spells it. *)
Theorem X4_resolution_tag (filename : str) :
  resolution (parse_filename filename) = []
  ∨ ((∃ pre post,
        stem filename = pre ++ resolution (parse_filename filename) ++ post)
     ∧ ∃ l, In l ["720p"; "1080p"; "2160p"; "4K"]%string
            ∧ lower (resolution (parse_filename filename)) = lower (lit l)).
Proof.
  assert (Hres : resolution (parse_filename filename)
                 = match res_search (stem filename) with
                   | Some (_, g1, _) => g1
                   | None => []
                   end).
  { unfold parse_filename.
    destruct (se_search (stem filename)) as [[[? [? ?]] ?]|]; [reflexivity |].
    destruct (year_search (stem filename)) as [[[? ?] ?]|]; reflexivity. }
  rewrite Hres.
  destruct (res_search (stem filename)) as [[[pre g] post]|] eqn:Hs; [| now left].
  right. apply res_search_Some in Hs as [Heq Hl]. split; [eauto | exact Hl].
Qed.

Example resolution_spelling :
  resolution (parse_filename (lit "Movie.2010.1080P.x264.mkv")) = lit "1080P"
  ∧ resolution (parse_filename (lit "Movie.2010.mkv")) = [].
Proof. vm_compute. auto. Qed.

End YearAndResolution.

(** ** The organizer: what a run does and does not touch *)

Section OrganizerFrame.

(** A step that leaves every file entry alone and removes no directory. *)
Let grows (s s' : fs) : Prop := files s' = files s ∧ dirs s ⊆ dirs s'.

Lemma grows_refl (s : fs) : grows s s.
Proof. split; reflexivity. Qed.

Lemma grows_trans (a b c : fs) : grows a b → grows b c → grows a c.
Proof. intros [Hf1 Hd1] [Hf2 Hd2]. split; [congruence | etrans; eassumption]. Qed.

Lemma os_mkdir_grows (p : path) (s : fs) : grows s (os_mkdir p s).2.
Proof.
  unfold os_mkdir, bind, get, put, raise. cbv beta iota.
  destruct (exists_ s p) eqn:Hex; [apply grows_refl |].
  destruct (dirs s !! parent p); [| apply grows_refl].
  apply exists_false in Hex as [_ Hd].
  split; [reflexivity |]. simpl. now apply insert_subseteq.
Qed.

Lemma handler_grows (p : path) (e : oserror) (s : fs) :
  grows s ((let* s0 := get in if is_dir s0 p then ret tt else raise e) s).2.
Proof. unfold bind, get, ret, raise. cbv beta iota. destruct (is_dir s p); apply grows_refl. Qed.

Lemma mkdir_exist_ok_grows (p : path) (s : fs) : grows s (mkdir_exist_ok p s).2.
Proof.
  unfold mkdir_exist_ok, try_except. pose proof (os_mkdir_grows p s) as H.
  destruct (os_mkdir p s) as [[e | []] s1]; [| exact H]. simpl in H.
  eapply grows_trans; [exact H |].
  destruct e; first [apply grows_refl | apply handler_grows].
Qed.

Lemma mkdir_parents_rev_grows (rp : path) (s : fs) :
  grows s (mkdir_parents_rev rp s).2.
Proof.
  revert s. induction rp as [|c rp IH]; intros s; cbn [mkdir_parents_rev]; cbv zeta;
    unfold try_except.
  - pose proof (os_mkdir_grows (rev (@nil str)) s) as H0.
    destruct (os_mkdir (rev []) s) as [[e | []] s1]; [| exact H0]. simpl in H0.
    eapply grows_trans; [exact H0 |].
    destruct e; first [apply grows_refl | apply handler_grows].
  - pose proof (os_mkdir_grows (rev (c :: rp)) s) as H1.
    destruct (os_mkdir (rev (c :: rp)) s) as [[e | []] s1]; [| exact H1]. simpl in H1.
    eapply grows_trans; [exact H1 |].
    destruct e; try apply handler_grows.
    unfold bind. specialize (IH s1).
    destruct (mkdir_parents_rev rp s1) as [[e | []] s2]; [exact IH |].
    eapply grows_trans; [exact IH | apply mkdir_exist_ok_grows].
Qed.

Lemma unlink_frame (p : path) (s : fs) :
  (∀ q, q ≠ p → files (unlink p s).2 !! q = files s !! q)
  ∧ dirs (unlink p s).2 = dirs s.
Proof.
  unfold unlink, bind, get, put, raise. cbv beta iota.
  destruct (files s !! p); simpl; [| auto].
  split; [| reflexivity]. intros q Hq. now apply lookup_delete_ne.
Qed.

Lemma os_link_frame (src dst : path) (s : fs) :
  (∀ q, q ≠ dst → files (os_link src dst s).2 !! q = files s !! q)
  ∧ dirs (os_link src dst s).2 = dirs s.
Proof.
  unfold os_link, bind, get, put, raise. cbv beta iota.
  destruct (files s !! src); [| auto].
  destruct (dirs s !! parent dst); [| auto].
  destruct (exists_ s dst); [auto |].
  destruct (bool_decide _); simpl; [| auto].
  split; [| reflexivity]. intros q Hq. now apply lookup_insert_ne.
Qed.

Lemma dest_of_Some (file_path : path) : ∃ d, dest_of file_path = Some d.
Proof.
  unfold dest_of. set (nm := path_name file_path).
  destruct (se_search (stem nm)) as [[[pre [g1 g2]] post]|] eqn:Hse.
  - destruct (parse_tv _ _ _ _ _ Hse) as (-> & Hs & He & _).
    unfold tv_dest. rewrite Hs, He. eauto.
  - destruct (parse_not_tv _ Hse) as (-> & _). eauto.
Qed.

Lemma X8_witness : ¬ In rick_src (find_broken_hardlinks organized).
Proof.
  apply (organized_not_orphan (tree 1) organized rick_src).
  apply run_result. vm_compute. reflexivity.
Defined.

Lemma orphan_extension_is_video (p : path) :
  has_extension ORPHAN_EXTENSIONS p = true → has_extension VIDEO_EXTENSIONS p = true.
Proof.
  unfold has_extension. rewrite !in_words_In. simpl. tauto.
Qed.

(** X9: every file the reconciler reports is one the organizer finds
    when it walks the staging root: the reconciler's extensions are
    among the organizer's. *)
Theorem X9_orphans_are_video_files (s : fs) (p : path) :
  In p (find_broken_hardlinks s) → In p (find_video_files s DOWNLOAD_DIR).
Proof.
  intros H. apply find_broken_hardlinks_In in H as (Hr & Hf & He & _).
  unfold find_video_files. apply filter_In. split.
  - apply walk_files_In. auto.
  - now apply orphan_extension_is_video.
Qed.

Lemma X9_witness : In rick_src (find_video_files (tree 1) DOWNLOAD_DIR).
Proof.
  apply (X9_orphans_are_video_files (tree 1) rick_src).
  vm_compute. left. reflexivity.
Defined.

End OrganizerFrame.

(** ** The reconciler: what a cleanup removes *)

Section CleanupEffects.

Lemma unlink_raises (p : path) (s s' : fs) (e : oserror) :
  unlink p s = (inl e, s') → files s !! p = None ∧ s' = s.
Proof.
  unfold unlink, bind, get, put, raise. cbv beta iota.
  destruct (files s !! p); [discriminate | intros [= _ <-]; auto].
Qed.

Lemma any_iterdir_state (d : path) (s : fs) : (any_iterdir d s).2 = s.
Proof.
  unfold any_iterdir, bind, get, ret, raise. cbv beta iota.
  destruct (is_dir s d); reflexivity.
Qed.

Lemma rmdir_state (d : path) (s : fs) :
  (rmdir d s).2 = s
  ∨ (rmdir d s).2 = {| files := files s; dirs := delete d (dirs s) |}.
Proof.
  unfold rmdir, bind, get, put, raise. cbv beta iota.
  destruct (is_dir s d); [| now left].
  destruct (children s d); [now right | now left].
Qed.

(** One pass of the deletion loop: the file entry is gone afterwards,
    at most the parent directory is removed with it, never the staging
    root, and no exception leaves the loop body. *)
Lemma delete_orphan_effect (p : path) (s : fs) :
  files (delete_orphan p s).2 = delete p (files s)
  ∧ (dirs (delete_orphan p s).2 = dirs s
     ∨ (parent p ≠ downloads_dir
        ∧ dirs (delete_orphan p s).2 = delete (parent p) (dirs s)))
  ∧ (delete_orphan p s).1 = inr tt.
Proof.
  unfold delete_orphan, try_except, bind. cbv zeta.
  destruct (unlink p s) as [[e | []] s1] eqn:Hu.
  { apply unlink_raises in Hu as [Hnone ->]. unfold ret. simpl.
    split; [symmetry; now apply delete_id | auto]. }
  apply unlink_ok in Hu as [_ ->].
  set (s1 := {| files := delete p (files s); dirs := dirs s |}).
  destruct (bool_decide (parent p ≠ downloads_dir)) eqn:Hroot; [| unfold ret; simpl; auto].
  apply bool_decide_eq_true in Hroot.
  pose proof (any_iterdir_state (parent p) s1) as Hit.
  destruct (any_iterdir (parent p) s1) as [[e | nonempty] s2]; simpl in Hit; subst s2;
    [unfold ret; simpl; auto |].
  destruct nonempty; cbn [negb]; [unfold ret; simpl; auto |].
  destruct (rmdir_state (parent p) s1) as [Hrm | Hrm];
    destruct (rmdir (parent p) s1) as [[e | []] s3]; simpl in Hrm; subst s3;
    unfold ret; simpl; auto.
Qed.

Lemma delete_all_effect (orphaned : list path) (s : fs) :
  (∀ q, files (delete_all orphaned s).2 !! q
        = if decide (q ∈ orphaned) then None else files s !! q)
  ∧ (∀ d, d = downloads_dir ∨ (∀ p, In p orphaned → parent p ≠ d) →
          dirs (delete_all orphaned s).2 !! d = dirs s !! d)
  ∧ dirs (delete_all orphaned s).2 ⊆ dirs s
  ∧ (delete_all orphaned s).1 = inr tt.
Proof.
  revert s. induction orphaned as [|p rest IH]; intros s.
  - simpl. unfold ret. simpl. repeat split; auto.
  - cbn [delete_all]. unfold bind.
    destruct (delete_orphan_effect p s) as (Hf & Hd & Hr).
    destruct (delete_orphan p s) as [r s1]. simpl in Hf, Hd, Hr. subst r.
    destruct (IH s1) as (IHf & IHd & IHsub & IHr).
    split; [| split; [| split; [| exact IHr]]].
    + intros q. rewrite IHf, Hf.
      destruct (decide (q ∈ rest)) as [Hin | Hin].
      * rewrite decide_True by (apply elem_of_cons; now right). reflexivity.
      * destruct (decide (q = p)) as [-> | Hne].
        { rewrite decide_True by (apply elem_of_cons; now left).
          apply lookup_delete_eq. }
        { rewrite decide_False by (rewrite elem_of_cons; tauto).
          now apply lookup_delete_ne. }
    + intros d Hdir. rewrite IHd.
      * destruct Hd as [-> | [Hroot ->]]; [reflexivity |].
        apply lookup_delete_ne. destruct Hdir as [-> | Hdir]; [exact Hroot |].
        apply Hdir. now left.
      * destruct Hdir as [-> | Hdir]; [now left | right].
        intros q Hq. apply Hdir. now right.
    + etrans; [exact IHsub |].
      destruct Hd as [-> | [_ ->]]; [reflexivity | apply delete_subseteq].
Qed.

(** The state a cleanup ends in, by the answer given. *)
Lemma cleanup_state (answer : option str) (s : fs) :
  (cleanup_orphaned_files answer s).2
  = match answer with
    | Some response =>
        if affirmative response
        then (delete_all (find_broken_hardlinks s) s).2 else s
    | None => s
    end.
Proof.
  unfold cleanup_orphaned_files, bind, get, ret, raise. cbv beta iota.
  destruct (find_broken_hardlinks s) as [|p l] eqn:E.
  - destruct answer as [r|]; [destruct (affirmative r) |]; reflexivity.
  - destruct answer as [r|]; [destruct (affirmative r) |]; reflexivity.
Qed.

(** X11: whatever the answer, a cleanup leaves every file entry that the
    scan did not report exactly as it was. *)
Theorem X11_cleanup_keeps_other_files (s : fs) (answer : option str) (q : path) :
  ¬ In q (find_broken_hardlinks s) →
  files (cleanup_orphaned_files answer s).2 !! q = files s !! q.
Proof.
  intros Hq. rewrite cleanup_state.
  destruct answer as [r|]; [| reflexivity].
  destruct (affirmative r); [| reflexivity].
  destruct (delete_all_effect (find_broken_hardlinks s) s) as (Hf & _).
  rewrite Hf. rewrite decide_False by (now rewrite list_elem_of_In). reflexivity.
Qed.

Lemma X11_witness :
  files (cleanup_orphaned_files (Some (lit "y")) organized).2 !! rick_src
  = files organized !! rick_src.
Proof.
  apply (X11_cleanup_keeps_other_files organized (Some (lit "y")) rick_src).
  intros H. vm_compute in H. exact H.
Defined.

(** X12: a cleanup never removes the staging root, and it leaves alone
    every directory that is not the parent of a reported file; no
    directory is ever added. *)
Theorem X12_cleanup_directories (s : fs) (answer : option str) :
  dirs (cleanup_orphaned_files answer s).2 !! downloads_dir = dirs s !! downloads_dir
  ∧ (∀ d, (∀ p, In p (find_broken_hardlinks s) → parent p ≠ d) →
          dirs (cleanup_orphaned_files answer s).2 !! d = dirs s !! d)
  ∧ dirs (cleanup_orphaned_files answer s).2 ⊆ dirs s.
Proof.
  rewrite cleanup_state.
  destruct answer as [r|]; [| auto].
  destruct (affirmative r); [| auto].
  destruct (delete_all_effect (find_broken_hardlinks s) s) as (_ & Hd & Hsub & _).
  split; [apply Hd; now left | split; [| exact Hsub]].
  intros d Hdir. apply Hd. now right.
Qed.

Lemma nlink_one_unique (s : fs) (ino : inode) (p q : path) :
  nlink s ino = 1%nat → files s !! p = Some ino → files s !! q = Some ino → p = q.
Proof.
  unfold nlink. intros H1 Hp Hq.
  set (m := filter (fun kv : path * inode => kv.2 = ino) (files s)) in *.
  assert (Hsz : size (dom m) = 1%nat) by now rewrite size_dom.
  apply (size_singleton_inv _ _ _ Hsz); apply elem_of_dom; exists ino;
    apply map_lookup_filter_Some; auto.
Qed.

Lemma reaches_mono (s s' : fs) (root p : path) :
  dirs s' ⊆ dirs s → reaches s' root p = true → reaches s root p = true.
Proof.
  intros Hsub. unfold reaches. rewrite !andb_true_iff, !forallb_forall.
  intros [Hpre Hall]. split; [exact Hpre |].
  intros a Ha. specialize (Hall a Ha). apply orb_true_iff in Hall as [Hd | Hl];
    apply orb_true_iff; [left | now right].
  apply is_dir_true in Hd as [d Hd]. apply is_dir_true. exists d.
  eapply lookup_weaken; eassumption.
Qed.

End CleanupEffects.

(** ** The destination name: extension and re-classification *)

Section DestinationName.

Let nodot (s : str) : Prop := Forall (fun c => c ≠ "."%char) s.
Let noslash (s : str) : Prop := Forall (fun c => c ≠ "/"%char) s.

Lemma rfind_dot_nodot (s : str) : nodot s → rfind_dot s = None.
Proof.
  induction 1 as [|c s Hc Hs IH]; simpl; [reflexivity |].
  rewrite IH. destruct (char_eqb c ".") eqn:E; [| reflexivity].
  apply char_eqb_eq in E. contradiction.
Qed.

Lemma rfind_dot_last (a b : str) :
  nodot b → rfind_dot (a ++ "."%char :: b) = Some (length a).
Proof.
  intros Hb. induction a as [|x a IH]; simpl.
  - now rewrite (rfind_dot_nodot b Hb).
  - now rewrite IH.
Qed.

Lemma rfind_dot_Some (s : str) (i : nat) :
  rfind_dot s = Some i → ∃ a b, s = a ++ "."%char :: b ∧ length a = i ∧ nodot b.
Proof.
  revert i. induction s as [|c s IH]; intros i; simpl; [discriminate |].
  destruct (rfind_dot s) as [j|] eqn:Hr.
  - intros [= <-]. destruct (IH j eq_refl) as (a & b & -> & Hl & Hb).
    exists (c :: a), b. simpl. auto.
  - destruct (char_eqb c ".") eqn:E; [| discriminate].
    intros [= <-]. apply char_eqb_eq in E. subst c.
    exists [], s. repeat split.
    clear IH. induction s as [|x s IHs]; [constructor |].
    simpl in Hr. destruct (rfind_dot s); [discriminate |].
    destruct (char_eqb x ".") eqn:Ex; [discriminate |].
    constructor; [| now apply IHs].
    intros ->. discriminate Ex.
Qed.

(** A suffix is empty, or a dot followed by a non-empty extension
    without dots. *)
Lemma suffix_shape (nm : str) :
  suffix_of_name nm = []
  ∨ ∃ ext, suffix_of_name nm = "."%char :: ext ∧ ext ≠ [] ∧ nodot ext.
Proof.
  unfold suffix_of_name, cut.
  destruct (rfind_dot nm) as [i|] eqn:Hr; [| now left].
  destruct ((0 <? i) && (i <? length nm - 1))%nat eqn:Hi; [| now left].
  right. apply rfind_dot_Some in Hr as (a & b & -> & <- & Hb).
  exists b. rewrite drop_app_length. split; [reflexivity |]. split; [| exact Hb].
  apply andb_prop in Hi as [_ Hi]. apply Nat.ltb_lt in Hi.
  rewrite length_app in Hi. simpl in Hi. destruct b; [simpl in Hi; lia | discriminate].
Qed.

(** Cutting a name made of a dot-free head and a suffix gives both
    back. *)
Lemma cut_head_suffix (a sfx : str) :
  nodot a → a ≠ [] →
  sfx = [] ∨ (∃ ext, sfx = "."%char :: ext ∧ ext ≠ [] ∧ nodot ext) →
  suffix_of_name (a ++ sfx) = sfx ∧ stem_of_name (a ++ sfx) = a.
Proof.
  intros Ha Hne [-> | (ext & -> & Hext & Hnd)]; unfold suffix_of_name, stem_of_name, cut.
  - rewrite app_nil_r, (rfind_dot_nodot a Ha). auto.
  - rewrite (rfind_dot_last a ext Hnd).
    assert (((0 <? length a) && (length a <? length (a ++ "."%char :: ext) - 1))%nat
            = true) as ->.
    { apply andb_true_iff. rewrite !Nat.ltb_lt, length_app. simpl.
      destruct a; [congruence |]. destruct ext; [congruence |]. simpl. lia. }
    rewrite drop_app_length, take_app_length. auto.
Qed.

Lemma sanitize_keeps (Q : ascii → Prop) (s : str) : Forall Q s → Forall Q (sanitize s).
Proof.
  unfold sanitize, remove_chars. induction 1 as [|c s Hc Hs IH]; simpl; [constructor |].
  destruct (negb (is_unsafe c)); [now constructor | exact IH].
Qed.

Lemma sep_free_nodot (s : str) :
  Forall (fun c => in_set (lit "._-") c = false) s → nodot s.
Proof.
  induction 1 as [|c s Hc Hs IH]; constructor; [| exact IH].
  intros ->. discriminate Hc.
Qed.

Lemma show_name_nodot (filename : str) : nodot (show_name (parse_filename filename)).
Proof.
  unfold show_name. apply sanitize_keeps, sep_free_nodot.
  destruct (parse_title_clean filename) as [raw ->]. apply clean_title_sep_free.
Qed.

Lemma uint_nodot (d : Decimal.uint) : nodot (lit (NilEmpty.string_of_uint d)).
Proof. induction d; simpl; constructor; solve [discriminate | assumption]. Qed.

Lemma str_of_int_nodot (z : Z) : nodot (str_of_int z).
Proof.
  unfold str_of_int, NilZero.string_of_int, NilZero.string_of_uint.
  destruct (Z.to_int z) as [d | d]; destruct d; simpl;
    repeat (constructor; [discriminate |]); try apply uint_nodot; constructor.
Qed.

Lemma fmt_02d_nodot (z : Z) : nodot (fmt_02d z).
Proof.
  unfold fmt_02d. destruct (z <? 0); [apply str_of_int_nodot |].
  destruct (z <? 10); [| apply str_of_int_nodot].
  constructor; [discriminate | apply str_of_int_nodot].
Qed.

(** The part of the episode filename before the extension. *)
Let episode_head (i : info) (se ep : Z) : str :=
  show_name i ++ lit " - S" ++ fmt_02d se ++ lit "E" ++ fmt_02d ep.

Lemma episode_name_head (file_path : path) (i : info) (se ep : Z) :
  episode_name file_path i se ep = episode_head i se ep ++ path_suffix file_path.
Proof. unfold episode_name, episode_head. now rewrite <- !app_assoc. Qed.

Lemma episode_head_nodot (filename : str) (se ep : Z) :
  nodot (episode_head (parse_filename filename) se ep)
  ∧ episode_head (parse_filename filename) se ep ≠ [].
Proof.
  unfold episode_head. split.
  - repeat apply Forall_app_2; try apply fmt_02d_nodot; try apply show_name_nodot;
      repeat constructor; discriminate.
  - intros H. apply (f_equal length) in H. rewrite !length_app in H. simpl in H. lia.
Qed.

Opaque path_join.

(** The last component of the destination: the episode filename for an
    episode, the name of the source for a movie. *)
Lemma dest_of_name (file_path d : path) :
  entry_name (path_name file_path) →
  dest_of file_path = Some d →
  path_name d
  = match season (parse_filename (path_name file_path)),
          episode (parse_filename (path_name file_path)) with
    | Some se, Some ep =>
        if is_tv (parse_filename (path_name file_path))
        then episode_name file_path (parse_filename (path_name file_path)) se ep
        else path_name file_path
    | _, _ => path_name file_path
    end.
Proof.
  intros Hname Hd. unfold dest_of in Hd.
  assert (Hns : noslash (path_name file_path)) by apply Hname.
  set (i := parse_filename (path_name file_path)) in *.
  destruct (is_tv i) eqn:Htv.
  - unfold tv_dest in Hd.
    destruct (season i) as [se|]; [| discriminate].
    destruct (episode i) as [ep|]; [| discriminate].
    injection Hd as <-.
    rewrite (path_join_entry _ (episode_name file_path i se ep));
      [| now apply episode_name_noslash | left; apply episode_name_long].
    unfold path_name. apply last_last.
  - injection Hd as <-. unfold movie_dest.
    rewrite (path_join_entry _ (path_name file_path)) by auto.
    unfold path_name at 1. rewrite last_last.
    destruct (season i); [destruct (episode i) |]; reflexivity.
Qed.

Transparent path_join.

(** X14: the library copy keeps the extension of the source file, for an
    episode (whose filename is rebuilt) as for a movie. *)
Theorem X14_destination_keeps_extension (file_path d : path) :
  entry_name (path_name file_path) →
  dest_of file_path = Some d →
  path_suffix d = path_suffix file_path.
Proof.
  intros Hname Hd. unfold path_suffix at 1. rewrite (dest_of_name _ _ Hname Hd).
  set (i := parse_filename (path_name file_path)).
  destruct (season i) as [se|]; [| reflexivity].
  destruct (episode i) as [ep|]; [| reflexivity].
  destruct (is_tv i); [| reflexivity].
  rewrite episode_name_head.
  destruct (episode_head_nodot (path_name file_path) se ep) as [Hnd Hne].
  apply cut_head_suffix; try assumption. apply suffix_shape.
Qed.

Lemma rick_entry_name : entry_name (path_name rick_src).
Proof.
  unfold rick_src, path_name. rewrite last_last.
  split; [discriminate |]. split; [discriminate |].
  repeat constructor; discriminate.
Qed.

Lemma X14_witness : path_suffix rick_dest = path_suffix rick_src.
Proof.
  apply (X14_destination_keeps_extension rick_src rick_dest).
  - exact rick_entry_name.
  - vm_compute. reflexivity.
Defined.

(** Characters a season/episode token is made of. *)
Let tokenish (c : ascii) : bool := is_Ss c || is_digit c || is_Ee c.

Lemma digits12_tokenish (g : str) :
  digits12 g → Forall (fun c => tokenish c = true) g.
Proof.
  intros [Hd _]. eapply Forall_impl; [exact Hd |].
  intros c Hc. unfold tokenish. simpl in Hc. rewrite Hc. now destruct (is_Ss c).
Qed.

(** A token does not reach across a character it cannot contain: it lies
    before that character or after it. *)
Lemma token_split (a R pre g1 g2 post : str) (sp : ascii) :
  tokenish sp = false →
  se_token_at (a ++ sp :: R) pre g1 g2 post →
  (∃ post', se_token_at a pre g1 g2 post')
  ∨ (∃ pre', pre = a ++ sp :: pre' ∧ se_token_at R pre' g1 g2 post).
Proof.
  intros Hsp (t & Heq & c & e & -> & Hc & He & Hg1 & Hg2).
  remember (c :: g1 ++ e :: g2) as T eqn:HT0.
  assert (HT : Forall (fun x => tokenish x = true) T).
  { subst T. constructor; [unfold tokenish; now rewrite Hc |].
    apply Forall_app. split; [now apply digits12_tokenish |].
    constructor; [| now apply digits12_tokenish].
    unfold tokenish. rewrite He. now destruct (is_Ss e), (is_digit e). }
  assert (Htok : ∀ m, se_token_here (T ++ m) g1 g2 m).
  { intros m. exists c, e. subst T. simpl. rewrite <- app_assoc. auto. }
  assert (Hhd : ∃ T', T = c :: T') by (subst T; eauto).
  assert (Heq' : a ++ sp :: R = pre ++ T ++ post).
  { rewrite Heq. subst T. simpl. now rewrite <- app_assoc. }
  clear Heq HT0. apply app_eq_inv in Heq' as [(l & Ha & Hl) | (l & Hpre & Hl)].
  - (* the token starts inside [a] *)
    apply app_eq_inv in Hl as [(m & HTm & Hm) | (m & Hlm & Hm)].
    + destruct m as [|x m].
      * left. exists [], (T ++ []). rewrite app_nil_r in HTm. subst l.
        split; [now rewrite app_nil_r | apply Htok].
      * exfalso. injection Hm as -> _. rewrite HTm in HT.
        apply Forall_app in HT as [_ HT]. inversion HT; subst. congruence.
    + left. exists m, (T ++ m). split; [rewrite Ha, Hlm; reflexivity | apply Htok].
  - (* the token starts at or after [sp] *)
    destruct l as [|x l].
    + exfalso. destruct Hhd as [T' ->]. simpl in Hl. injection Hl as -> _.
      unfold tokenish in Hsp. rewrite Hc in Hsp. discriminate.
    + injection Hl as <- ->. right. exists l. split; [exact Hpre |].
      exists (T ++ post). split; [reflexivity | apply Htok].
Qed.

Lemma no_token_in_nil (pre g1 g2 post : str) : ¬ se_token_at [] pre g1 g2 post.
Proof.
  intros (t & Heq & c & e & -> & _). destruct pre; discriminate.
Qed.

(** In [show - Sxx...] a token is a token of the show name or lies in
    the part after the hyphen. *)
Lemma token_after_show (show tok pre g1 g2 post : str) :
  (∀ p a b q, ¬ se_token_at show p a b q) →
  se_token_at (show ++ lit " - " ++ tok) pre g1 g2 post →
  ∃ pre', pre = show ++ lit " - " ++ pre' ∧ se_token_at tok pre' g1 g2 post.
Proof.
  intros Hshow H.
  change (show ++ lit " - " ++ tok)
    with (show ++ " "%char :: ([] ++ "-"%char :: ([] ++ " "%char :: tok))) in H.
  apply token_split in H as [(q & H) | (p1 & -> & H)]; [| | reflexivity].
  { exfalso. eapply Hshow; eassumption. }
  apply token_split in H as [(q & H) | (p2 & -> & H)]; [| | reflexivity].
  { exfalso. eapply no_token_in_nil; eassumption. }
  apply token_split in H as [(q & H) | (p3 & -> & H)]; [| | reflexivity].
  { exfalso. eapply no_token_in_nil; eassumption. }
  exists p3. split; [reflexivity | exact H].
Qed.

(** Two digits written by [:02d] read back as the number. *)
Lemma fmt_02d_two_digits (z : Z) :
  0 <= z <= 99 →
  ∃ a b, fmt_02d z = [a; b] ∧ is_digit a = true ∧ is_digit b = true
         ∧ int_of_digits [a; b] = z.
Proof.
  intros Hz.
  set (check := fun n : nat =>
         match fmt_02d (Z.of_nat n) with
         | [a; b] => is_digit a && is_digit b && (int_of_digits [a; b] =? Z.of_nat n)
         | _ => false
         end).
  assert (Hall : forallb check (seq 0 100) = true) by (vm_compute; reflexivity).
  rewrite forallb_forall in Hall.
  specialize (Hall (Z.to_nat z)). unfold check in Hall.
  rewrite Z2Nat.id in Hall by lia.
  destruct (fmt_02d z) as [|a [|b [|]]];
    try (discriminate Hall; apply in_seq; lia).
  assert (H : is_digit a && is_digit b && (int_of_digits [a; b] =? z) = true)
    by (apply Hall, in_seq; lia).
  apply andb_prop in H as [H H3]. apply andb_prop in H as [H1 H2].
  apply Z.eqb_eq in H3. eauto 6.
Qed.

Lemma name_of_entry (s : str) :
  noslash s → (1 < length s)%nat → PathName.name s = s.
Proof.
  intros Hns Hl. unfold PathName.name. rewrite parts_noslash by assumption.
  destruct (decide _) as [[-> | ->] | _]; [simpl in Hl; lia .. | reflexivity].
Qed.

(** X15: the canonical episode filename classifies back to the same
    season and episode, provided the sanitised show name does not itself
    contain a season/episode token: running the classifier on the
    library copy gives the numbers of the staging copy. *)
Theorem X15_episode_name_round_trip (file_path d : path) :
  entry_name (path_name file_path) →
  dest_of file_path = Some d →
  is_tv (parse_filename (path_name file_path)) = true →
  ¬ has_se_token (show_name (parse_filename (path_name file_path))) →
  is_tv (parse_filename (path_name d)) = true
  ∧ season (parse_filename (path_name d))
    = season (parse_filename (path_name file_path))
  ∧ episode (parse_filename (path_name d))
    = episode (parse_filename (path_name file_path)).
Proof.
  intros Hname Hd Htv Hshow.
  pose proof (dest_of_name _ _ Hname Hd) as Hlast.
  set (i := parse_filename (path_name file_path)) in *.
  destruct (se_search (stem (path_name file_path))) as [[[pre [g1 g2]] post]|] eqn:Hse.
  2: { destruct (parse_not_tv _ Hse) as (Hno & _). fold i in Hno. congruence. }
  destruct (parse_tv _ _ _ _ _ Hse) as (_ & Hs & He & _). fold i in Hs, He.
  destruct (se_search_Some _ _ _ _ _ Hse) as [(t0 & _ & c0 & e0 & _ & _ & _ & Hd1 & Hd2) _].
  rewrite Hs, He, Htv in Hlast. rewrite Hs, He.
  set (se := int_of_digits g1) in *. set (ep := int_of_digits g2) in *.
  destruct (fmt_02d_two_digits se (int_of_digits12 _ Hd1)) as (a1 & b1 & Hf1 & Ha1 & Hb1 & Hv1).
  destruct (fmt_02d_two_digits ep (int_of_digits12 _ Hd2)) as (a2 & b2 & Hf2 & Ha2 & Hb2 & Hv2).
  (* the stem of the episode filename *)
  assert (Hstem : stem (path_name d) = episode_head i se ep).
  { rewrite Hlast. unfold stem.
    rewrite name_of_entry;
      [| apply episode_name_noslash, Hname | apply episode_name_long].
    rewrite episode_name_head.
    destruct (episode_head_nodot (path_name file_path) se ep) as [Hnd Hne].
    apply cut_head_suffix; try assumption. apply suffix_shape. }
  set (tok := "S"%char :: [a1; b1] ++ "E"%char :: [a2; b2]).
  assert (Hhead : episode_head i se ep = show_name i ++ lit " - " ++ tok).
  { unfold episode_head, tok. rewrite Hf1, Hf2. reflexivity. }
  assert (Hours : se_token_here tok [a1; b1] [a2; b2] []).
  { exists "S"%char, "E"%char. unfold tok. rewrite app_nil_r.
    repeat split; auto using digits12_two. }
  assert (Hat : se_token_at (stem (path_name d)) (show_name i ++ lit " - ")
                  [a1; b1] [a2; b2] []).
  { exists tok. split; [| exact Hours]. rewrite Hstem, Hhead. now rewrite <- app_assoc. }
  destruct (has_se_token_search (stem (path_name d))) as (pre' & h1 & h2 & post' & Hs').
  { red. eauto 6. }
  destruct (se_search_Some _ _ _ _ _ Hs') as [Htok' Hleft].
  destruct (Hleft _ _ _ _ Hat) as [Hle Hsame].
  rewrite Hstem, Hhead in Htok'.
  apply token_after_show in Htok' as (p3 & -> & (t3 & Ht3 & Htok3)).
  2: { intros p x y q H. apply Hshow. red. eauto 6. }
  assert (p3 = []) as ->.
  { rewrite !length_app in Hle. destruct p3; [reflexivity | simpl in Hle; lia]. }
  simpl in Ht3. subst t3.
  destruct Hsame as [Hg1 Hg2]; [now rewrite app_nil_r |].
  subst h1.
  assert (h2 = [a2; b2]) as ->.
  { destruct Htok3 as (c3 & e3 & Heq & _ & _ & _ & Hh2).
    unfold tok in Heq. simpl in Heq. injection Heq as _ _ Heq.
    apply digits12_cases in Hh2 as [(x & -> & _) | (x & y & -> & _)];
      [simpl in Hg2; lia |].
    simpl in Heq. now injection Heq as <- <- _. }
  destruct (parse_tv _ _ _ _ _ Hs') as (Htv' & Hs2 & He2 & _).
  rewrite Hs2, He2, Hv1, Hv2. auto.
Qed.

Lemma X15_witness :
  is_tv (parse_filename (path_name rick_dest)) = true
  ∧ season (parse_filename (path_name rick_dest))
    = season (parse_filename (path_name rick_src))
  ∧ episode (parse_filename (path_name rick_dest))
    = episode (parse_filename (path_name rick_src)).
Proof.
  apply (X15_episode_name_round_trip rick_src rick_dest).
  - exact rick_entry_name.
  - vm_compute. reflexivity.
  - vm_compute. reflexivity.
  - intros H. apply has_se_token_search in H as (? & ? & ? & ? & H).
    vm_compute in H. discriminate H.
Defined.

(** The hypothesis on the show name is needed: sanitising can create a
    token that was not one before. *)
Example sanitised_show_name_token :
  dest_of [lit "s:01e02.s03e04.mkv"]
  = Some (TV_DIR ++ [lit "S01e02"; lit "Season 03"; lit "S01e02 - S03E04.mkv"])
  ∧ season (parse_filename (lit "S01e02 - S03E04.mkv")) = Some 1.
Proof. vm_compute. auto. Qed.

End DestinationName.

(** ** The movie directory *)

Section MovieDirectory.

Lemma sanitize_app (a b : str) : sanitize (a ++ b) = sanitize a ++ sanitize b.
Proof. unfold sanitize, remove_chars. apply List.filter_app. Qed.

Lemma sanitize_safe_id (s : str) : safe s → sanitize s = s.
Proof.
  unfold sanitize, remove_chars. induction 1 as [|c s Hc Hs IH]; simpl; [reflexivity |].
  rewrite Hc. simpl. now rewrite IH.
Qed.

Lemma digit_val_inj (a b : ascii) :
  is_digit a = true → is_digit b = true → digit_val a = digit_val b → a = b.
Proof.
  intros Ha Hb Heq. pose proof (digit_val_range _ Ha) as Hr.
  rewrite (digit_val_is a (Z.to_N (digit_val a)) Ha) by (rewrite Z2N.id; lia).
  rewrite (digit_val_is b (Z.to_N (digit_val a)) Hb) by (rewrite Z2N.id; lia).
  reflexivity.
Qed.

(** [str(int(ds))] spells a year token as it was. *)
Lemma str_of_int_year (ds : str) :
  year_token ds → str_of_int (int_of_digits ds) = ds.
Proof.
  intros Hy. pose proof Hy as (Hl & Hd & Hr).
  set (check := fun n : nat =>
         match str_of_int (Z.of_nat n) with
         | [a; b; c; d] =>
             is_digit a && is_digit b && is_digit c && is_digit d
             && (int_of_digits [a; b; c; d] =? Z.of_nat n)
         | _ => false
         end).
  assert (Hall : forallb check (seq 1900 200) = true) by (vm_compute; reflexivity).
  rewrite forallb_forall in Hall.
  specialize (Hall (Z.to_nat (int_of_digits ds))). unfold check in Hall.
  rewrite Z2Nat.id in Hall by lia.
  assert (Hin : In (Z.to_nat (int_of_digits ds)) (seq 1900 200)) by (apply in_seq; lia).
  specialize (Hall Hin).
  destruct (str_of_int (int_of_digits ds)) as [|a' [|b' [|c' [|d' [|]]]]];
    try discriminate Hall.
  apply andb_prop in Hall as [Hall Hv]. apply andb_prop in Hall as [Hall Hd'].
  apply andb_prop in Hall as [Hall Hc']. apply andb_prop in Hall as [Ha' Hb'].
  apply Z.eqb_eq in Hv.
  destruct ds as [|a [|b [|c [|d [|]]]]]; try discriminate Hl.
  inversion Hd as [|? ? Ha Hd1]; subst. inversion Hd1 as [|? ? Hb Hd2]; subst.
  inversion Hd2 as [|? ? Hc Hd3]; subst. inversion Hd3 as [|? ? Hdd _]; subst.
  unfold int_of_digits in Hv. simpl in Hv.
  pose proof (digit_val_range _ Ha). pose proof (digit_val_range _ Hb).
  pose proof (digit_val_range _ Hc). pose proof (digit_val_range _ Hdd).
  pose proof (digit_val_range _ Ha'). pose proof (digit_val_range _ Hb').
  pose proof (digit_val_range _ Hc'). pose proof (digit_val_range _ Hd').
  f_equal; [apply digit_val_inj; try assumption; lia |].
  f_equal; [apply digit_val_inj; try assumption; lia |].
  f_equal; [apply digit_val_inj; try assumption; lia |].
  f_equal. apply digit_val_inj; try assumption; lia.
Qed.

(** X16: when the classifier returns a year, the movie directory is the
    sanitised title followed by that year in parentheses, spelled with
    the four digits of the year token found in the filename. *)
Theorem X16_movie_directory_name (filename : str) (y : Z) :
  year (parse_filename filename) = Some y →
  ∃ ds, year_token ds ∧ int_of_digits ds = y
        ∧ (∃ pre post, stem filename = pre ++ ds ++ post)
        ∧ movie_dir_name (parse_filename filename)
          = sanitize (title (parse_filename filename)) ++ lit " (" ++ ds ++ lit ")".
Proof.
  intros Hyear.
  destruct (se_search (stem filename)) as [[[pre [g1 g2]] post]|] eqn:Hse.
  { destruct (parse_tv _ _ _ _ _ Hse) as (_ & _ & _ & Hy & _). congruence. }
  destruct (year_search (stem filename)) as [[[pre g0] post]|] eqn:Hys.
  2: { unfold parse_filename in Hyear. rewrite Hse, Hys in Hyear. discriminate. }
  destruct (parse_year _ _ _ _ Hse Hys) as [_ Hyear'].
  destruct (year_search_token _ _ _ _ Hys) as (p & r & Heq & Htok).
  set (ds := strip_with (in_set (lit "()[]")) g0) in *.
  assert (Hy : int_of_digits ds = y) by congruence.
  exists ds. split; [exact Htok |]. split; [exact Hy |]. split; [eauto |].
  unfold movie_dir_name. rewrite Hyear', Hy.
  assert ((y =? 0) = false) as ->.
  { apply Z.eqb_neq. destruct Htok as (_ & _ & Hr). lia. }
  rewrite <- Hy, (str_of_int_year ds Htok).
  rewrite !sanitize_app. f_equal.
  rewrite (sanitize_safe_id (lit " (")) by (repeat constructor).
  rewrite (sanitize_safe_id (lit ")")) by (repeat constructor).
  rewrite (sanitize_safe_id ds); [reflexivity |].
  destruct Htok as (_ & Hd & _). eapply Forall_impl; [exact Hd |].
  intros c Hc. now apply digit_safe.
Qed.

Lemma X16_witness :
  ∃ ds, year_token ds ∧ int_of_digits ds = 1999
        ∧ (∃ pre post, stem matrix = pre ++ ds ++ post)
        ∧ movie_dir_name (parse_filename matrix)
          = sanitize (title (parse_filename matrix)) ++ lit " (" ++ ds ++ lit ")".
Proof. apply (X16_movie_directory_name matrix 1999). vm_compute. reflexivity. Defined.

Example matrix_directory :
  movie_dir_name (parse_filename matrix) = lit "The Matrix (1999)".
Proof. vm_compute. reflexivity. Qed.

End MovieDirectory.

(** ** The relevance filter of the torrent search *)

Section TorrentSearchFilter.

Lemma starts_with_spec (p s : str) :
  starts_with p s = true ↔ ∃ post, s = p ++ post.
Proof.
  revert s. induction p as [|a p IH]; intros s; simpl.
  - split; [eauto | reflexivity].
  - destruct s as [|c s].
    + split; [discriminate | intros [post H]; discriminate].
    + rewrite andb_true_iff, char_eqb_eq, IH. split.
      * intros [-> [post ->]]. eauto.
      * intros [post [= -> ->]]. eauto.
Qed.

(** [needle in hay] holds exactly when [hay] has [needle] as a piece. *)
Lemma contains_spec (needle hay : str) :
  contains needle hay = true ↔ ∃ pre post, hay = pre ++ needle ++ post.
Proof.
  induction hay as [|c hay IH].
  - simpl. rewrite orb_false_r, starts_with_spec. split.
    + intros [post H]. exists [], post. exact H.
    + intros (pre & post & H). destruct pre; [eauto | discriminate].
  - cbn [contains]. rewrite orb_true_iff, starts_with_spec, IH. split.
    + intros [[post H] | (pre & post & ->)].
      * exists [], post. exact H.
      * exists (c :: pre), post. reflexivity.
    + intros (pre & post & H). destruct pre as [|x pre].
      * left. eauto.
      * right. injection H as _ ->. eauto.
Qed.

Lemma filtered_results_spec (query : str) (results : list result) (r : result) :
  In r (filtered_results query results) →
  In r (firstn 50 results) ∧ relevant query r = true.
Proof. unfold filtered_results. apply filter_In. Qed.

Lemma try_methods_spec (query : str) (answers : list response) :
  try_methods query answers = []
  ∨ ∃ results, In (Answer 200 results) answers
               ∧ try_methods query answers = firstn 20 (filtered_results query results).
Proof.
  induction answers as [|a rest IH]; [now left |].
  destruct a as [|status_code results]; cbn [try_methods].
  - destruct IH as [-> | (rs & Hin & ->)]; [now left |]. right. exists rs. split; [now right | reflexivity].
  - destruct (status_code =? 200) eqn:Hst.
    + apply Z.eqb_eq in Hst. subst status_code.
      destruct results as [|r0 results'].
      * destruct IH as [-> | (rs & Hin & ->)]; [now left |].
        right. exists rs. split; [now right | reflexivity].
      * destruct (filtered_results query (r0 :: results')) as [|f fs] eqn:Hf.
        { destruct IH as [-> | (rs & Hin & ->)]; [now left |].
          right. exists rs. split; [now right | reflexivity]. }
        right. exists (r0 :: results'). split; [now left |]. now rewrite Hf.
    + destruct IH as [-> | (rs & Hin & ->)]; [now left |].
      right. exists rs. split; [now right | reflexivity].
Qed.

(** X17: [search_torrents_fixed] returns at most 20 results; they all
    come from the first 50 results of one answer with status 200, and
    the lowercased title of each contains the lowercased query; when the
    indexer check fails it returns nothing. *)
Theorem X17_search_results_are_relevant
    (jackett_ok : bool) (r1 r2 r3 : response) (query : str) :
  (length (search_torrents_fixed jackett_ok r1 r2 r3 query) <= 20)%nat
  ∧ (jackett_ok = false → search_torrents_fixed jackett_ok r1 r2 r3 query = [])
  ∧ (search_torrents_fixed jackett_ok r1 r2 r3 query = []
     ∨ ∃ results,
         In (Answer 200 results) [r1; r2; r3]
         ∧ ∀ r, In r (search_torrents_fixed jackett_ok r1 r2 r3 query) →
                In r (firstn 50 results)
                ∧ ∃ pre post,
                    lower (title_or_empty r) = pre ++ lower query ++ post).
Proof.
  unfold search_torrents_fixed. destruct jackett_ok.
  2: { simpl. split; [lia | split; [reflexivity | now left]]. }
  split; [| split; [discriminate |]].
  - destruct (try_methods_spec query [r1; r2; r3]) as [-> | (rs & _ & ->)];
      [simpl; lia |].
    rewrite length_take. lia.
  - destruct (try_methods_spec query [r1; r2; r3]) as [-> | (rs & Hin & ->)];
      [now left |].
    right. exists rs. split; [exact Hin |]. intros r Hr.
    assert (Hr' : In r (filtered_results query rs)).
    { rewrite <- (firstn_skipn 20 (filtered_results query rs)).
      apply in_or_app. now left. }
    apply filtered_results_spec in Hr' as [H50 Hrel]. split; [exact H50 |].
    now apply contains_spec.
Qed.

Example search_falls_back :
  let hit := mk_result (Some (lit "Rick.And.Morty.S08E01.1080p")) 1 1 in
  let miss := mk_result (Some (lit "Something else")) 1 1 in
  search_torrents_fixed true (Answer 200 [miss]) Raised (Answer 200 [miss; hit])
    (lit "rick.and")
  = [hit]
  ∧ search_torrents_fixed true (Answer 404 [hit]) Raised (Answer 200 [])
      (lit "rick.and") = [].
Proof. vm_compute. auto. Qed.

End TorrentSearchFilter.

(** * The scripts in an environment that can fail *)

(** ** Rules for runs *)

Section Runs.

Lemma triple_ret {A} (a : A) (Q : A → fs → Prop) (X : oserror → fs → Prop) :
  Guarded.triple (Q a) (ret a) Q X.
Proof. intros s H. exact H. Qed.

Lemma triple_raise {A} (e : oserror) (Q : A → fs → Prop) (X : oserror → fs → Prop) :
  Guarded.triple (X e) (raise e) Q X.
Proof. intros s H. exact H. Qed.

Lemma triple_bind {A B} (P : fs → Prop) (m : M A) (Q1 : A → fs → Prop)
    (k : A → M B) (Q : B → fs → Prop) (X : oserror → fs → Prop) :
  Guarded.triple P m Q1 X → (∀ a, Guarded.triple (Q1 a) (k a) Q X) →
  Guarded.triple P (bind m k) Q X.
Proof.
  intros Hm Hk s HP. specialize (Hm s HP). unfold bind.
  destruct (m s) as [[e | a] s1]; [exact Hm | now apply Hk].
Qed.

Lemma triple_try {A} (P : fs → Prop) (m : M A) (Q : A → fs → Prop)
    (X1 : oserror → fs → Prop) (h : oserror → M A) (X : oserror → fs → Prop) :
  Guarded.triple P m Q X1 → (∀ e, Guarded.triple (X1 e) (h e) Q X) →
  Guarded.triple P (try_except m h) Q X.
Proof.
  intros Hm Hh s HP. specialize (Hm s HP). unfold try_except.
  destruct (m s) as [[e | a] s1]; [now apply Hh | exact Hm].
Qed.

Lemma triple_get (P : fs → Prop) (X : oserror → fs → Prop) :
  Guarded.triple P get (fun s0 s => s = s0 ∧ P s) X.
Proof. intros s H. simpl. auto. Qed.

Lemma triple_weaken {A} (P P' : fs → Prop) (m : M A) (Q Q' : A → fs → Prop)
    (X X' : oserror → fs → Prop) :
  Guarded.triple P m Q X →
  (∀ s, P' s → P s) → (∀ a s, Q a s → Q' a s) → (∀ e s, X e s → X' e s) →
  Guarded.triple P' m Q' X'.
Proof.
  intros Hm HP HQ HX s H. specialize (Hm s (HP s H)).
  destruct (m s) as [[e | a] s1]; auto.
Qed.

(** The state a run starts from may be named. *)
Lemma triple_from {A} (P : fs → Prop) (m : M A) (Q : A → fs → Prop)
    (X : oserror → fs → Prop) :
  (∀ s0, P s0 → Guarded.triple (fun s => s = s0) m Q X) → Guarded.triple P m Q X.
Proof. intros H s HP. now apply (H s HP). Qed.

(** A guarded call goes as the call itself or is refused in the state it
    was made in. *)
Lemma triple_guard {A} (E : Guarded.env) (c : Guarded.syscall) (P : fs → Prop)
    (m : M A) (Q : A → fs → Prop) (X : oserror → fs → Prop) :
  Guarded.triple P m Q X → (∀ s, P s → X EPERM s) →
  Guarded.triple P (Guarded.guard E c m) Q X.
Proof.
  intros Hm Hr s HP. specialize (Hm s HP). unfold Guarded.guard.
  destruct (m s) as [[e | a] s1]; [exact Hm |].
  destruct (Guarded.refuses E c); [now apply Hr | exact Hm].
Qed.

Lemma guard_allowed {A} (E : Guarded.env) (c : Guarded.syscall) (m : M A) (s : fs) :
  Guarded.refuses E c = false → Guarded.guard E c m s = m s.
Proof.
  intros H. unfold Guarded.guard. rewrite H. now destruct (m s) as [[e | a] s1].
Qed.

End Runs.

(** ** Runs that keep to their files *)

Section KeepsTo.

Variable E : Guarded.env.
Variable T : path → Prop.

Lemma step_refl (s : fs) : Guarded.step T s s.
Proof. split; reflexivity. Qed.

Lemma step_trans (a b c : fs) :
  Guarded.step T a b → Guarded.step T b c → Guarded.step T a c.
Proof.
  intros [Hf1 Hd1] [Hf2 Hd2]. split; [| etrans; eassumption].
  intros q Hq. rewrite Hf2, Hf1 by assumption. reflexivity.
Qed.

(** A run whose every outcome is a step keeps to [T]. *)
Lemma keeps_to_step {A} (m : M A) :
  (∀ s, Guarded.step T s (m s).2) → Guarded.keeps_to T m.
Proof.
  intros H s0 s Hs. specialize (H s).
  destruct (m s) as [[e | a] s1]; simpl in H; eapply step_trans; eassumption.
Qed.

Lemma keeps_to_ret {A} (a : A) : Guarded.keeps_to T (ret a).
Proof. intros s0 s H. exact H. Qed.

Lemma keeps_to_raise {A} (e : oserror) : Guarded.keeps_to T (@raise A e).
Proof. intros s0 s H. exact H. Qed.

Lemma keeps_to_bind {A B} (m : M A) (k : A → M B) :
  Guarded.keeps_to T m → (∀ a, Guarded.keeps_to T (k a)) → Guarded.keeps_to T (bind m k).
Proof. intros Hm Hk s0. eapply triple_bind; [apply Hm | intros a; apply Hk]. Qed.

Lemma keeps_to_try {A} (m : M A) (h : oserror → M A) :
  Guarded.keeps_to T m → (∀ e, Guarded.keeps_to T (h e)) →
  Guarded.keeps_to T (try_except m h).
Proof. intros Hm Hh s0. eapply triple_try; [apply Hm | intros e; apply Hh]. Qed.

Lemma keeps_to_guard {A} (c : Guarded.syscall) (m : M A) :
  Guarded.keeps_to T m → Guarded.keeps_to T (Guarded.guard E c m).
Proof. intros Hm s0. apply triple_guard; [apply Hm | auto]. Qed.

Lemma keeps_to_state {A} (f : fs → A) :
  Guarded.keeps_to T (let* s := get in ret (f s)).
Proof. intros s0 s H. exact H. Qed.

Lemma keeps_to_os_mkdir (p : path) : Guarded.keeps_to T (Guarded.os_mkdir E p).
Proof.
  apply keeps_to_guard, keeps_to_step. intros s.
  destruct (os_mkdir_grows p s) as [Hf Hd]. split; [| exact Hd].
  intros q _. now rewrite Hf.
Qed.

Lemma keeps_to_path_is_dir (p : path) : Guarded.keeps_to T (Guarded.path_is_dir E p).
Proof. apply keeps_to_guard, keeps_to_state. Qed.

Lemma keeps_to_path_exists (p : path) : Guarded.keeps_to T (Guarded.path_exists E p).
Proof. apply keeps_to_guard, keeps_to_state. Qed.

Lemma keeps_to_handler (p : path) (e : oserror) :
  Guarded.keeps_to T
    (let* d := Guarded.path_is_dir E p in if d then ret tt else raise e).
Proof.
  apply keeps_to_bind; [apply keeps_to_path_is_dir |].
  intros []; [apply keeps_to_ret | apply keeps_to_raise].
Qed.

Lemma keeps_to_mkdir_exist_ok (p : path) : Guarded.keeps_to T (Guarded.mkdir_exist_ok E p).
Proof.
  apply keeps_to_try; [apply keeps_to_os_mkdir |].
  intros e. destruct e; first [apply keeps_to_raise | apply keeps_to_handler].
Qed.

Lemma keeps_to_mkdir_parents_rev (rp : path) :
  Guarded.keeps_to T (Guarded.mkdir_parents_rev E rp).
Proof.
  induction rp as [|c rp IH]; cbn [Guarded.mkdir_parents_rev]; cbv zeta;
    (apply keeps_to_try; [apply keeps_to_os_mkdir |]); intros e;
    destruct e; try apply keeps_to_handler; try apply keeps_to_raise.
  apply keeps_to_bind; [exact IH | intros _; apply keeps_to_mkdir_exist_ok].
Qed.

Lemma keeps_to_mkdir_parents (p : path) : Guarded.keeps_to T (Guarded.mkdir_parents E p).
Proof. apply keeps_to_mkdir_parents_rev. Qed.

Lemma keeps_to_unlink (p : path) : T p → Guarded.keeps_to T (Guarded.unlink E p).
Proof.
  intros Hp. apply keeps_to_guard, keeps_to_step. intros s.
  destruct (unlink_frame p s) as [Hf Hd]. split; [| now rewrite Hd].
  intros q Hq. apply Hf. intros ->. contradiction.
Qed.

Lemma keeps_to_os_link (src dst : path) :
  T dst → Guarded.keeps_to T (Guarded.os_link E src dst).
Proof.
  intros Hp. apply keeps_to_guard, keeps_to_step. intros s.
  destruct (os_link_frame src dst s) as [Hf Hd]. split; [| now rewrite Hd].
  intros q Hq. apply Hf. intros ->. contradiction.
Qed.

Lemma keeps_to_open_append (p : path) : T p → Guarded.keeps_to T (Guarded.open_append p).
Proof.
  intros Hp. apply keeps_to_step. intros s.
  unfold Guarded.open_append, bind, get, put, ret, raise. cbv beta iota.
  destruct (is_file s p); [apply step_refl |].
  destruct (is_dir s p); [apply step_refl |].
  destruct (dirs s !! parent p); [| apply step_refl].
  split; [| reflexivity]. intros q Hq. simpl.
  apply lookup_insert_ne. intros ->. contradiction.
Qed.

Lemma keeps_to_log (m : Guarded.message) :
  T Guarded.log_file → Guarded.keeps_to T (Guarded.log E m).
Proof.
  intros Hp. unfold Guarded.log. destruct (Guarded.log_result_of E m).
  - now apply keeps_to_open_append.
  - apply keeps_to_raise.
  - apply keeps_to_bind; [now apply keeps_to_open_append | intros _; apply keeps_to_raise].
Qed.

Lemma keeps_to_create_hardlink (src dst : path) :
  T dst → T Guarded.log_file → Guarded.keeps_to T (Guarded.create_hardlink E src dst).
Proof.
  intros Hd Hl. apply keeps_to_try.
  - apply keeps_to_bind; [apply keeps_to_mkdir_parents | intros _].
    apply keeps_to_bind; [apply keeps_to_path_exists | intros there].
    apply keeps_to_bind.
    { destruct there; [now apply keeps_to_unlink | apply keeps_to_ret]. }
    intros _. apply keeps_to_bind; [now apply keeps_to_os_link | intros _].
    apply keeps_to_bind; [now apply keeps_to_log | intros _; apply keeps_to_ret].
  - intros e. apply keeps_to_bind; [now apply keeps_to_log | intros _; apply keeps_to_ret].
Qed.

Lemma keeps_to_organize_file (file_path : path) :
  (∀ d, dest_of file_path = Some d → T d) → T Guarded.log_file →
  Guarded.keeps_to T (Guarded.organize_file E file_path).
Proof.
  intros Hd Hl. unfold Guarded.organize_file.
  apply keeps_to_bind; [now apply keeps_to_log | intros _]. cbv zeta.
  apply keeps_to_bind; [now apply keeps_to_log | intros _].
  destruct (dest_of file_path) as [d|]; [| apply keeps_to_raise].
  apply keeps_to_create_hardlink; auto.
Qed.

End KeepsTo.

(** ** The organizer *)

Section GuardedOrganizer.

Variable E : Guarded.env.

(** X5: in whatever way the environment fails, organising a file
    changes no file entry except the one at its destination and the log
    file, and removes no directory: whether the run returns or raises,
    the staging copy stays where it is unless it is its own
    destination. *)
Theorem X5_organize_file_frame (s : fs) (file_path q : path) :
  dest_of file_path ≠ Some q →
  q ≠ Guarded.log_file →
  files (Guarded.organize_file E file_path s).2 !! q = files s !! q
  ∧ dirs s ⊆ dirs (Guarded.organize_file E file_path s).2.
Proof.
  intros Hq Hl.
  pose proof (keeps_to_organize_file E
                (fun x => dest_of file_path = Some x ∨ x = Guarded.log_file) file_path)
    as H.
  specialize (H (fun d Hd => or_introl Hd) (or_intror eq_refl) s s (step_refl _ s)).
  destruct (Guarded.organize_file E file_path s) as [[e | b] s1]; simpl;
    destruct H as [Hf Hd]; (split; [apply Hf; tauto | exact Hd]).
Qed.

(** A log call that goes through on a log file that exists changes
    nothing. *)
Lemma log_appends (m : Guarded.message) (s : fs) :
  Guarded.log_result_of E m = Guarded.Appended →
  is_file s Guarded.log_file = true →
  Guarded.log E m s = (inr tt, s).
Proof.
  intros Hm Hf. unfold Guarded.log, Guarded.open_append, bind, get, ret.
  rewrite Hm. cbv beta iota. rewrite Hf. reflexivity.
Qed.

Lemma path_exists_allowed (p : path) (s : fs) :
  Guarded.refuses E (Guarded.Stat p) = false →
  Guarded.path_exists E p s = (inr (exists_ s p), s).
Proof. intros H. unfold Guarded.path_exists. now rewrite guard_allowed. Qed.

Lemma path_is_dir_allowed (p : path) (s : fs) :
  Guarded.refuses E (Guarded.Stat p) = false →
  Guarded.path_is_dir E p s = (inr (is_dir s p), s).
Proof. intros H. unfold Guarded.path_is_dir. now rewrite guard_allowed. Qed.

Lemma guarded_os_mkdir_exists (s : fs) (p : path) :
  exists_ s p = true → Guarded.os_mkdir E p s = (inl EEXIST, s).
Proof.
  intros H. unfold Guarded.os_mkdir, Guarded.guard.
  now rewrite (os_mkdir_exists _ _ H).
Qed.

(** [mkdir(parents=True, exist_ok=True)] on a directory that exists and
    whose status can be read succeeds and changes nothing. *)
Lemma guarded_mkdir_parents_existing (s : fs) (p : path) :
  is_dir s p = true →
  Guarded.refuses E (Guarded.Stat p) = false →
  Guarded.mkdir_parents E p s = (inr tt, s).
Proof.
  intros H Hst. unfold Guarded.mkdir_parents.
  assert (Hex : exists_ s (rev (rev p)) = true)
    by (rewrite rev_involutive; unfold exists_; rewrite H; apply orb_true_r).
  destruct (rev p) as [|c rp] eqn:Hrp; cbn [Guarded.mkdir_parents_rev]; cbv zeta;
    unfold try_except; rewrite (guarded_os_mkdir_exists _ _ Hex); unfold bind;
    rewrite <- Hrp, rev_involutive, path_is_dir_allowed by assumption;
    rewrite H; reflexivity.
Qed.

(** The log file is not its own destination. *)
Lemma dest_of_log_file : dest_of Guarded.log_file ≠ Some Guarded.log_file.
Proof. vm_compute. discriminate. Qed.

(** X7: when a file is its own destination, as a library file the
    organizer is run on, and the operating system answers for the file
    and its directory and does not refuse to unlink it, the entry is
    removed and cannot be linked back: if the run returns at all (no log
    call raises outside the handler), it reports failure and the file is
    gone from that path. *)
Theorem X7_organize_in_place (s : fs) (p : path) (b : bool) :
  dest_of p = Some p →
  is_file s p = true →
  is_dir s (parent p) = true →
  Guarded.refuses E (Guarded.Stat (parent p)) = false →
  Guarded.refuses E (Guarded.Stat p) = false →
  Guarded.refuses E (Guarded.Unlink p) = false →
  (Guarded.organize_file E p s).1 = inr b →
  b = false ∧ files (Guarded.organize_file E p s).2 !! p = None.
Proof.
  intros Hd Hf Hdir Hsd Hsp Hun.
  assert (Hne : p ≠ Guarded.log_file).
  { intros ->. now apply dest_of_log_file. }
  set (T := fun x : path => x = Guarded.log_file).
  set (P0 := fun s1 : fs => is_file s1 p = true ∧ is_dir s1 (parent p) = true).
  set (Gone := fun s1 : fs => files s1 !! p = None).
  assert (Hlog0 : ∀ m, Guarded.triple P0 (Guarded.log E m) (fun _ => P0) (fun _ _ => True)).
  { intros m. apply triple_from. intros s0 [H1 H2].
    eapply triple_weaken; [apply (keeps_to_log E T m eq_refl s0) | ..].
    - intros s1 ->. apply step_refl.
    - intros _ s1 [Hfs Hds]. split.
      + apply is_file_true. rewrite Hfs by exact Hne. now apply is_file_true.
      + apply is_dir_true in H2 as [d H2]. apply is_dir_true. exists d.
        eapply lookup_weaken; eassumption.
    - auto. }
  assert (Hlog1 : ∀ m, Guarded.triple Gone (Guarded.log E m) (fun _ => Gone) (fun _ _ => True)).
  { intros m. apply triple_from. intros s0 H1.
    eapply triple_weaken; [apply (keeps_to_log E T m eq_refl s0) | ..].
    - intros s1 ->. apply step_refl.
    - intros _ s1 [Hfs _]. unfold Gone. now rewrite Hfs by exact Hne.
    - auto. }
  assert (Hbody : Guarded.triple P0
            (Guarded.mkdir_parents E (parent p) ;;
             let* there := Guarded.path_exists E p in
             (if there then Guarded.unlink E p else ret tt) ;;
             Guarded.os_link E p p ;;
             Guarded.log E (Guarded.Hard_linked (path_name p) p) ;;
             ret true)
            (fun _ _ => False) (fun _ => Gone)).
  { intros s1 [H1 H2]. unfold bind.
    rewrite guarded_mkdir_parents_existing, path_exists_allowed by assumption.
    assert (exists_ s1 p = true) as -> by (unfold exists_; now rewrite H1).
    apply is_file_true in H1.
    unfold Guarded.unlink. rewrite guard_allowed by assumption.
    rewrite (proj2 (unlink_ok s1 _ p) (conj H1 eq_refl)).
    unfold Guarded.os_link, Guarded.guard, os_link, bind, get, raise.
    cbn [files dirs fst snd]. rewrite lookup_delete_eq.
    unfold Gone. simpl. apply lookup_delete_eq. }
  assert (Hrun : Guarded.triple P0 (Guarded.organize_file E p)
                   (fun b1 s1 => b1 = false ∧ Gone s1) (fun _ _ => True)).
  { unfold Guarded.organize_file. rewrite Hd. cbv zeta.
    eapply triple_bind; [apply Hlog0 | intros ?; cbv beta].
    eapply triple_bind; [apply Hlog0 | intros ?; cbv beta].
    eapply triple_try.
    { eapply triple_weaken; [exact Hbody | auto | intros ? ? [] | intros ? ? H; exact H]. }
    intros e. cbv beta.
    eapply triple_bind; [apply Hlog1 | intros ?; cbv beta].
    intros s1 H1. simpl. auto. }
  specialize (Hrun s (conj Hf Hdir)).
  destruct (Guarded.organize_file E p s) as [[e | b1] s1]; simpl; [discriminate |].
  intros [= <-]. exact Hrun.
Qed.

Opaque path_join.

(** With a file name free of slashes the destination lies below one of
    the two library roots. *)
Lemma dest_of_in_library (file_path d : path) :
  Forall (fun c => c ≠ "/"%char) (path_name file_path) →
  dest_of file_path = Some d →
  ∃ l, d = MOVIES_DIR ++ l ∨ d = TV_DIR ++ l.
Proof.
  intros Hns Hd. unfold dest_of in Hd.
  set (i := parse_filename (path_name file_path)) in *.
  destruct (is_tv i).
  - unfold tv_dest in Hd.
    destruct (season i) as [se|]; [| discriminate].
    destruct (episode i) as [ep|]; [| discriminate].
    injection Hd as <-.
    destruct (path_join_dir TV_DIR (show_name i)) as (l1 & -> & _);
      [apply safe_noslash, show_name_safe |].
    destruct (path_join_dir (TV_DIR ++ l1) (season_dir_name se)) as (l2 & -> & _);
      [apply safe_noslash, season_dir_name_safe |].
    destruct (path_join_dir ((TV_DIR ++ l1) ++ l2) (episode_name file_path i se ep))
      as (l3 & -> & _); [now apply episode_name_noslash |].
    exists (l1 ++ l2 ++ l3). right. now rewrite <- !app_assoc.
  - injection Hd as <-. unfold movie_dest.
    destruct (path_join_dir MOVIES_DIR (movie_dir_name i)) as (l1 & -> & _);
      [apply safe_noslash, movie_dir_name_safe |].
    destruct (path_join_dir (MOVIES_DIR ++ l1) (path_name file_path)) as (l2 & -> & _);
      [exact Hns |].
    exists (l1 ++ l2). left. now rewrite <- app_assoc.
Qed.

Transparent path_join.

Lemma dest_of_not_log_file (file_path : path) :
  Forall (fun c => c ≠ "/"%char) (path_name file_path) →
  dest_of file_path ≠ Some Guarded.log_file.
Proof.
  intros Hns Hd. destruct (dest_of_in_library _ _ Hns Hd) as (l & [H | H]);
    vm_compute in H; discriminate H.
Qed.

Section LogGoesThrough.

Hypothesis Hlog : ∀ m, Guarded.log_result_of E m = Guarded.Appended.

Let logged (s : fs) : Prop := is_file s Guarded.log_file = true.

Lemma create_hardlink_returns (src dst : path) :
  dst ≠ Guarded.log_file →
  Guarded.triple logged (Guarded.create_hardlink E src dst)
    (fun _ => logged) (fun _ _ => False).
Proof.
  intros Hne. apply triple_from. intros s0 H0.
  set (T := fun x : path => x = dst).
  assert (HK : ∀ s, Guarded.step T s0 s → logged s).
  { intros s [Hf _]. unfold logged. apply is_file_true.
    rewrite Hf by (unfold T; congruence). now apply is_file_true. }
  assert (Hl : ∀ m, Guarded.triple (Guarded.step T s0) (Guarded.log E m)
                      (fun _ => Guarded.step T s0) (fun _ _ => False)).
  { intros m s Hs. rewrite log_appends; [exact Hs | apply Hlog | apply HK, Hs]. }
  eapply triple_weaken with (P := Guarded.step T s0) (Q := fun _ => Guarded.step T s0)
                            (X := fun _ _ => False).
  - apply triple_try with (X1 := fun _ => Guarded.step T s0).
    + eapply triple_bind; [apply (keeps_to_mkdir_parents E T) | intros ?; cbv beta].
      eapply triple_bind; [apply (keeps_to_path_exists E T) | intros there; cbv beta].
      eapply triple_bind.
      { destruct there; [now apply (keeps_to_unlink E T) | apply (keeps_to_ret T)]. }
      intros ?; cbv beta.
      eapply triple_bind; [now apply (keeps_to_os_link E T) | intros ?; cbv beta].
      eapply triple_bind with (Q1 := fun _ => Guarded.step T s0).
      { eapply triple_weaken;
          [apply Hl | intros ? H; exact H | intros ? ? H; exact H | intros ? ? []]. }
      intros ?; cbv beta. apply (keeps_to_ret T).
    + intros e. eapply triple_bind; [apply Hl | intros ?; cbv beta].
      intros s Hs. exact Hs.
  - intros s ->. apply step_refl.
  - intros _ s Hs. now apply HK.
  - auto.
Qed.

Lemma organize_file_returns_logged (file_path : path) :
  dest_of file_path ≠ Some Guarded.log_file →
  Guarded.triple logged (Guarded.organize_file E file_path)
    (fun _ => logged) (fun _ _ => False).
Proof.
  intros Hne. unfold Guarded.organize_file. cbv zeta.
  assert (Hl : ∀ m, Guarded.triple logged (Guarded.log E m)
                      (fun _ => logged) (fun _ _ => False)).
  { intros m s Hs. rewrite log_appends; [exact Hs | apply Hlog | exact Hs]. }
  eapply triple_bind; [apply Hl | intros ?; cbv beta].
  eapply triple_bind; [apply Hl | intros ?; cbv beta].
  destruct (dest_of_Some file_path) as [d Hd]. rewrite Hd in *.
  apply create_hardlink_returns. congruence.
Qed.

Lemma organize_all_returns (video_files : list path) (k : nat) :
  (∀ f, In f video_files → dest_of f ≠ Some Guarded.log_file) →
  Guarded.triple logged (Guarded.organize_all E video_files k)
    (fun n s => logged s ∧ (k <= n)%nat ∧ (n <= k + length video_files)%nat)
    (fun _ _ => False).
Proof.
  revert k. induction video_files as [|f rest IH]; intros k Hd; cbn [Guarded.organize_all].
  - intros s Hs. simpl. repeat split; [exact Hs | lia | lia].
  - eapply triple_bind; [apply organize_file_returns_logged, Hd; now left |].
    intros ok. cbv beta.
    eapply triple_weaken; [apply IH; intros f' Hf'; apply Hd; now right | auto | | auto].
    intros n s (Hs & Hlo & Hhi). split; [exact Hs |]. simpl. destruct ok; lia.
Qed.

(** X6: a run of [organize_directory] absorbs every failure to link:
    when each log call goes through on a log file that exists, the tree
    can be read and no file name holds a slash, the run returns,
    whichever calls to make a directory, to unlink or to link the
    operating system refuses.  The numbers of its last log line are the
    count of organised files, at most the number of video files found,
    and that number, the length of [find_video_files] when the target
    exists and zero when not. *)
Theorem X6_organize_directory_counts (target_dir : path) (s : fs) :
  Guarded.readable E →
  is_file s Guarded.log_file = true →
  (∀ f, In f (find_video_files s target_dir) →
        Forall (fun c => c ≠ "/"%char) (path_name f)) →
  ∃ n m, (Guarded.organize_directory E target_dir s).1 = inr (n, m)
         ∧ (n <= m)%nat
         ∧ m = (if exists_ s target_dir
                then length (find_video_files s target_dir) else 0%nat).
Proof.
  intros Hread Hf Hnames. unfold Guarded.organize_directory, bind.
  rewrite path_exists_allowed by apply Hread.
  destruct (exists_ s target_dir); cbn [negb].
  2: { rewrite log_appends by auto. exists 0%nat, 0%nat. auto. }
  rewrite log_appends by auto. cbn [get].
  destruct (find_video_files s target_dir) as [|f rest] eqn:Hv.
  { rewrite log_appends by auto. exists 0%nat, 0%nat. auto. }
  rewrite log_appends by auto.
  pose proof (organize_all_returns (f :: rest) 0) as Hall.
  specialize (Hall (fun f' Hf' => dest_of_not_log_file f' (Hnames f' Hf')) s Hf).
  destruct (Guarded.organize_all E (f :: rest) 0 s) as [[e | n] s1]; [destruct Hall |].
  destruct Hall as (Hs1 & _ & Hhi).
  rewrite log_appends by auto. exists n, (length (f :: rest)). auto.
Qed.

End LogGoesThrough.

End GuardedOrganizer.

Section GuardedOrganizerRuns.

Lemma X5_witness :
  files (Guarded.organize_file Guarded.obliging rick_src (Guarded.with_log (tree 2))).2
    !! rick_src
  = files (Guarded.with_log (tree 2)) !! rick_src
  ∧ dirs (Guarded.with_log (tree 2))
    ⊆ dirs (Guarded.organize_file Guarded.obliging rick_src (Guarded.with_log (tree 2))).2.
Proof.
  apply (X5_organize_file_frame Guarded.obliging (Guarded.with_log (tree 2))
           rick_src rick_src);
    intros H; vm_compute in H; discriminate H.
Defined.

Lemma X6_witness :
  ∃ n m, (Guarded.organize_directory Guarded.obliging DOWNLOAD_DIR
            (Guarded.with_log (tree 1))).1 = inr (n, m)
         ∧ (n <= m)%nat
         ∧ m = (if exists_ (Guarded.with_log (tree 1)) DOWNLOAD_DIR
                then length (find_video_files (Guarded.with_log (tree 1)) DOWNLOAD_DIR)
                else 0%nat).
Proof.
  apply (X6_organize_directory_counts Guarded.obliging (fun _ => eq_refl)
           DOWNLOAD_DIR (Guarded.with_log (tree 1))).
  - intros p. split; reflexivity.
  - vm_compute. reflexivity.
  - assert (Hv : find_video_files (Guarded.with_log (tree 1)) DOWNLOAD_DIR = [rick_src])
      by (vm_compute; reflexivity).
    rewrite Hv. intros f [<- | []]. apply rick_entry_name.
Defined.

Lemma X7_witness :
  false = false
  ∧ files (Guarded.organize_file Guarded.obliging rick_dest
             (Guarded.with_log library_only)).2 !! rick_dest = None.
Proof.
  apply (X7_organize_in_place Guarded.obliging (Guarded.with_log library_only)
           rick_dest false); vm_compute; reflexivity.
Defined.

(** The same runs, computed: the episode is linked on one device and
    refused across two; run on the library itself, the organizer removes
    the file. *)
Example guarded_runs :
  (Guarded.organize_directory Guarded.obliging DOWNLOAD_DIR (Guarded.with_log (tree 1))).1
  = inr (1, 1)%nat
  ∧ (Guarded.organize_directory Guarded.obliging DOWNLOAD_DIR (Guarded.with_log (tree 2))).1
    = inr (0, 1)%nat
  ∧ (Guarded.organize_file Guarded.obliging rick_dest (Guarded.with_log library_only)).1
    = inr false.
Proof. vm_compute. auto. Qed.

(** Without a log directory the first log call raises and nothing is
    organised. *)
Example no_log_directory :
  (Guarded.organize_file Guarded.obliging rick_src (tree 1)).1 = inl ENOENT
  ∧ files (Guarded.organize_file Guarded.obliging rick_src (tree 1)).2 !! rick_dest = None.
Proof. vm_compute. auto. Qed.

End GuardedOrganizerRuns.

(** ** The reconciler *)

Section GuardedCleanup.

Variable E : Guarded.env.

Lemma guarded_unlink_effect (p : path) (s : fs) :
  (Guarded.unlink E p s = (inr tt, {| files := delete p (files s); dirs := dirs s |})
   ∧ Guarded.refuses E (Guarded.Unlink p) = false)
  ∨ (∃ e, Guarded.unlink E p s = (inl e, s)
          ∧ (files s !! p = None ∨ Guarded.refuses E (Guarded.Unlink p) = true)).
Proof.
  unfold Guarded.unlink, Guarded.guard.
  destruct (unlink p s) as [[e | []] s1] eqn:Hu.
  - right. apply unlink_raises in Hu as [Hn ->]. eauto.
  - apply unlink_ok in Hu as [_ ->].
    destruct (Guarded.refuses E (Guarded.Unlink p)); [right; eauto | left; auto].
Qed.

Lemma guarded_any_iterdir_effect (d : path) (s : fs) :
  (Guarded.any_iterdir E d s).2 = s
  ∧ ((Guarded.any_iterdir E d s).1 = inr false → children s d = []).
Proof.
  unfold Guarded.any_iterdir, Guarded.guard, any_iterdir, bind, get, ret, raise.
  cbv beta iota. destruct (is_dir s d); [| split; [reflexivity | discriminate]].
  destruct (Guarded.refuses E (Guarded.Scandir d)); [split; [reflexivity | discriminate] |].
  split; [reflexivity |]. simpl. destruct (children s d); [reflexivity | discriminate].
Qed.

Lemma guarded_rmdir_state (d : path) (s : fs) :
  (Guarded.rmdir E d s).2 = s
  ∨ (Guarded.rmdir E d s).2 = {| files := files s; dirs := delete d (dirs s) |}.
Proof.
  unfold Guarded.rmdir, Guarded.guard.
  destruct (rmdir_state d s) as [H | H]; destruct (rmdir d s) as [[e | []] s1];
    simpl in H; subst s1; simpl; auto;
    destruct (Guarded.refuses E (Guarded.Rmdir d)); simpl; auto.
Qed.

(** One pass of the deletion loop: the entry is gone unless the
    operating system refuses to unlink it; the directory of the file is
    removed at most when nothing is left in it, and never the staging
    root; no exception leaves the loop body. *)
Lemma guarded_delete_orphan_effect (p : path) (s : fs) :
  files (Guarded.delete_orphan E p s).2
  = (if Guarded.refuses E (Guarded.Unlink p) then files s else delete p (files s))
  ∧ (dirs (Guarded.delete_orphan E p s).2 = dirs s
     ∨ (parent p ≠ downloads_dir
        ∧ children {| files := delete p (files s); dirs := dirs s |} (parent p) = []
        ∧ Guarded.refuses E (Guarded.Unlink p) = false
        ∧ dirs (Guarded.delete_orphan E p s).2 = delete (parent p) (dirs s)))
  ∧ (Guarded.delete_orphan E p s).1 = inr tt.
Proof.
  unfold Guarded.delete_orphan, try_except, bind. cbv zeta.
  destruct (guarded_unlink_effect p s) as [[-> Hr] | (e & -> & Hwhy)].
  2: { unfold ret. simpl. split; [| auto].
       destruct Hwhy as [Hn | ->]; [| reflexivity].
       destruct (Guarded.refuses E _); [reflexivity | symmetry; now apply delete_id]. }
  rewrite Hr. set (s1 := {| files := delete p (files s); dirs := dirs s |}).
  destruct (bool_decide (parent p ≠ downloads_dir)) eqn:Hroot; [| unfold ret; simpl; auto].
  apply bool_decide_eq_true in Hroot.
  destruct (guarded_any_iterdir_effect (parent p) s1) as [Hst Hempty].
  destruct (Guarded.any_iterdir E (parent p) s1) as [[e | nonempty] s2];
    simpl in Hst; subst s2; [unfold ret; simpl; auto |].
  destruct nonempty; cbn [negb]; [unfold ret; simpl; auto |].
  specialize (Hempty eq_refl).
  destruct (guarded_rmdir_state (parent p) s1) as [Hrm | Hrm];
    destruct (Guarded.rmdir E (parent p) s1) as [[e | []] s3]; simpl in Hrm; subst s3;
    unfold ret; simpl; auto 10.
Qed.

Lemma guarded_delete_all_effect (orphaned : list path) (s : fs) :
  (∀ q, files (Guarded.delete_all E orphaned s).2 !! q
        = if decide (q ∈ orphaned ∧ Guarded.refuses E (Guarded.Unlink q) = false)
          then None else files s !! q)
  ∧ dirs (Guarded.delete_all E orphaned s).2 ⊆ dirs s
  ∧ (Guarded.delete_all E orphaned s).1 = inr tt.
Proof.
  revert s. induction orphaned as [|p rest IH]; intros s.
  - split; [| split; reflexivity]. intros q.
    change (Guarded.delete_all E [] s).2 with s.
    destruct (decide _) as [[H _] |]; [now apply not_elem_of_nil in H | reflexivity].
  - cbn [Guarded.delete_all]. unfold bind.
    destruct (guarded_delete_orphan_effect p s) as (Hf & Hd & Hr).
    destruct (Guarded.delete_orphan E p s) as [r s1]. simpl in Hf, Hd, Hr. subst r.
    destruct (IH s1) as (IHf & IHsub & IHr).
    split; [| split; [| exact IHr]].
    + intros q. rewrite IHf, Hf.
      destruct (decide (q ∈ rest ∧ Guarded.refuses E (Guarded.Unlink q) = false))
        as [[Hin Hq] | Hno].
      { rewrite decide_True; [reflexivity |]. split; [now apply elem_of_cons; right | exact Hq]. }
      destruct (decide (q = p)) as [-> | Hne].
      * destruct (Guarded.refuses E (Guarded.Unlink p)) eqn:Hp.
        { rewrite decide_False; [reflexivity |]. intros [_ H]. discriminate H. }
        { rewrite decide_True; [apply lookup_delete_eq |].
          split; [apply elem_of_cons; now left | reflexivity]. }
      * rewrite decide_False.
        { destruct (Guarded.refuses E (Guarded.Unlink p)); [reflexivity |].
          now apply lookup_delete_ne. }
        intros [Hin Hq]. apply elem_of_cons in Hin as [-> | Hin]; [congruence | tauto].
    + etrans; [exact IHsub |].
      destruct Hd as [-> | (_ & _ & _ & ->)]; [reflexivity | apply delete_subseteq].
Qed.

(** Every directory from the staging root down to [x] is there. *)
Let anchored (s : fs) (x : path) : Prop :=
  ∀ a, In a (ancestors x) → (length downloads_dir <= length a)%nat → is_dir s a = true.

Lemma ancestors_In (x a : path) :
  In a (ancestors x) ↔ ∃ n, (n < length x)%nat ∧ a = take n x.
Proof.
  unfold ancestors. rewrite in_map_iff. split.
  - intros (n & <- & Hn). apply in_seq in Hn. exists n. split; [lia | reflexivity].
  - intros (n & Hn & ->). exists n. split; [reflexivity | apply in_seq; lia].
Qed.

Lemma children_In (s : fs) (d c : path) :
  In c (children s d) ↔ In c (entries s) ∧ c ≠ [] ∧ parent c = d.
Proof.
  unfold children. rewrite filter_In, bool_decide_eq_true. reflexivity.
Qed.

Lemma reaches_anchored (s : fs) (x : path) :
  reaches s downloads_dir x = true
  ↔ (downloads_dir `prefix_of` x ∧ downloads_dir ≠ x) ∧ anchored s x.
Proof.
  unfold reaches, anchored. rewrite andb_true_iff, bool_decide_eq_true, forallb_forall.
  split; intros [Hp Ha]; (split; [exact Hp |]).
  - intros a Hin Hlen. specialize (Ha a Hin). apply orb_true_iff in Ha as [Ha | Ha];
      [exact Ha |]. apply Nat.ltb_lt in Ha. lia.
  - intros a Hin. apply orb_true_iff.
    destruct (Nat.ltb_spec (length a) (length downloads_dir)); [now right | left; auto].
Qed.

(** A pass of the loop leaves the directories above a file that is
    still there: a directory is removed only when it is empty. *)
Lemma guarded_delete_orphan_anchored (p x : path) (s : fs) :
  (length downloads_dir <= length (parent p))%nat →
  is_file (Guarded.delete_orphan E p s).2 x = true →
  anchored s x → anchored (Guarded.delete_orphan E p s).2 x.
Proof.
  intros Hlen Hx Hanch a Hin Hla.
  destruct (guarded_delete_orphan_effect p s) as (Hf & Hd & _).
  pose proof (Hanch a Hin Hla) as Hdir.
  destruct Hd as [Hd | (_ & Hempty & Hr & Hd)];
    [apply is_dir_true; rewrite Hd; now apply is_dir_true |].
  rewrite Hr in Hf.
  apply is_dir_true. rewrite Hd.
  destruct (decide (a = parent p)) as [-> | Hne];
    [exfalso | rewrite lookup_delete_ne by congruence; now apply is_dir_true].
  apply ancestors_In in Hin as (n & Hn & Ha).
  set (s1 := {| files := delete p (files s); dirs := dirs s |}) in *.
  assert (Hc : In (take (S n) x) (children s1 (parent p))).
  { apply children_In. split; [| split].
    - apply entries_In.
      destruct (decide (S n = length x)) as [Hlast | Hmore].
      + left. rewrite Hlast, firstn_all. apply is_file_true.
        apply is_file_true in Hx. rewrite Hf in Hx. exact Hx.
      + right. apply is_dir_true. simpl. apply is_dir_true. apply Hanch.
        * apply ancestors_In. exists (S n). split; [lia | reflexivity].
        * rewrite length_take. rewrite Ha, length_take in Hla. lia.
    - destruct x; [simpl in Hn; lia | discriminate].
    - unfold parent at 1. rewrite removelast_firstn by exact Hn. now symmetry. }
  rewrite Hempty in Hc. destruct Hc.
Qed.

Lemma guarded_delete_all_anchored (orphaned : list path) (x : path) (s : fs) :
  (∀ p, In p orphaned → (length downloads_dir <= length (parent p))%nat) →
  is_file (Guarded.delete_all E orphaned s).2 x = true →
  anchored s x → anchored (Guarded.delete_all E orphaned s).2 x.
Proof.
  revert s. induction orphaned as [|p rest IH]; intros s Hlen Hx Hanch; [exact Hanch |].
  cbn [Guarded.delete_all] in *. unfold bind in *.
  pose proof (guarded_delete_orphan_anchored p x s (Hlen p (or_introl eq_refl))) as Hstep.
  destruct (guarded_delete_orphan_effect p s) as (_ & _ & Hr).
  destruct (Guarded.delete_orphan E p s) as [r s1]. simpl in Hr, Hstep. subst r.
  apply IH; [intros q Hq; apply Hlen; now right | exact Hx |].
  apply Hstep; [| exact Hanch].
  destruct (guarded_delete_all_effect rest s1) as (Hf & _).
  apply is_file_true in Hx as [ino Hx]. rewrite Hf in Hx.
  destruct (decide _); [discriminate |]. apply is_file_true. eauto.
Qed.

Lemma orphan_below_root (s : fs) (p : path) :
  In p (find_broken_hardlinks s) → (length downloads_dir <= length (parent p))%nat.
Proof.
  intros H. apply find_broken_hardlinks_In in H as (Hr & _).
  apply reaches_anchored in Hr as [[[k ->] Hne] _].
  destruct k as [|c k _] using rev_ind; [rewrite app_nil_r in Hne; congruence |].
  unfold parent. rewrite app_assoc, removelast_last, length_app. lia.
Qed.

Lemma guarded_cleanup_run (response : str) (s : fs) :
  affirmative response = true →
  Guarded.cleanup_orphaned_files E (Some response) s
  = Guarded.delete_all E (find_broken_hardlinks s) s.
Proof.
  intros Hyes. unfold Guarded.cleanup_orphaned_files, bind, get. cbv beta iota.
  rewrite Hyes. destruct (find_broken_hardlinks s); reflexivity.
Qed.

(** X13: in an environment where the tree can be read, after a
    confirmed cleanup every reported file is gone from its path, unless
    the operating system refused to unlink it: then it is still there, a
    second scan reports it again, and it reports nothing else.  Files
    that survive keep the link count they had, and no directory above a
    file that survives is removed.  The failed deletions, and those of
    directories, are absorbed: the run returns. *)
Theorem X13_confirmed_cleanup_is_complete (s : fs) (response : str) :
  Guarded.readable E →
  affirmative response = true →
  (Guarded.cleanup_orphaned_files E (Some response) s).1 = inr tt
  ∧ (∀ p, In p (find_broken_hardlinks s) →
          files (Guarded.cleanup_orphaned_files E (Some response) s).2 !! p
          = if Guarded.refuses E (Guarded.Unlink p) then files s !! p else None)
  ∧ (∀ p, In p (find_broken_hardlinks (Guarded.cleanup_orphaned_files E (Some response) s).2)
          ↔ In p (find_broken_hardlinks s)
            ∧ Guarded.refuses E (Guarded.Unlink p) = true).
Proof.
  intros _ Hyes. rewrite guarded_cleanup_run by exact Hyes.
  destruct (guarded_delete_all_effect (find_broken_hardlinks s) s) as (Hf & Hsub & Hr).
  pose proof (guarded_delete_all_anchored (find_broken_hardlinks s)) as Hanch.
  set (s' := (Guarded.delete_all E (find_broken_hardlinks s) s).2) in *.
  assert (Hkept : ∀ q x, files s' !! q = Some x → files s !! q = Some x).
  { intros q x Hq. rewrite Hf in Hq. destruct (decide _); [discriminate | exact Hq]. }
  assert (Hgone : ∀ q x, files s !! q = Some x → files s' !! q = None →
                         In q (find_broken_hardlinks s)
                         ∧ Guarded.refuses E (Guarded.Unlink q) = false).
  { intros q x Hq Hn. rewrite Hf in Hn.
    destruct (decide _) as [[Hin Hq'] |]; [| congruence].
    split; [now apply list_elem_of_In | exact Hq']. }
  split; [exact Hr |]. split.
  { intros p Hp. rewrite Hf. apply list_elem_of_In in Hp.
    destruct (Guarded.refuses E (Guarded.Unlink p)) eqn:Hp'.
    - rewrite decide_False; [reflexivity |]. intros [_ H]. discriminate H.
    - rewrite decide_True; [reflexivity | auto]. }
  intros p. split.
  - intros Hin. apply find_broken_hardlinks_In in Hin as (Hreach & Hfile & Hext & Hn).
    apply is_file_true in Hfile as [ino Hp']. pose proof (Hkept _ _ Hp') as Hp.
    assert (Horph : In p (find_broken_hardlinks s)).
    { apply find_broken_hardlinks_In.
      split; [eapply reaches_mono; eassumption |].
      split; [apply is_file_true; eauto |]. split; [exact Hext |].
      unfold st_nlink in *. rewrite Hp' in Hn. rewrite Hp. simpl in *.
      injection Hn as Hn. f_equal. rewrite <- Hn. unfold nlink. f_equal.
      apply map_filter_strong_ext_1. intros q x. split.
      - intros [Hx Hq]. split; [exact Hx |]. simpl in Hx. subst x.
        destruct (files s' !! q) as [y|] eqn:Hq'.
        + apply Hkept in Hq'. congruence.
        + exfalso. destruct (Hgone _ _ Hq Hq') as [Hqin _].
          apply find_broken_hardlinks_In in Hqin as (_ & _ & _ & Hq1).
          unfold st_nlink in Hq1. rewrite Hq in Hq1. simpl in Hq1. injection Hq1 as Hq1.
          assert (q = p) as -> by (eapply nlink_one_unique; eassumption).
          congruence.
      - intros [Hx Hq]. split; [exact Hx | now apply Hkept]. }
    split; [exact Horph |].
    destruct (Guarded.refuses E (Guarded.Unlink p)) eqn:Hp''; [reflexivity |].
    rewrite Hf in Hp'. rewrite decide_True in Hp'; [discriminate |].
    split; [now apply list_elem_of_In | exact Hp''].
  - intros [Hin Href].
    pose proof Hin as Hin0.
    apply find_broken_hardlinks_In in Hin as (Hreach & Hfile & Hext & Hn).
    apply is_file_true in Hfile as [ino Hp].
    assert (Hp' : files s' !! p = Some ino).
    { rewrite Hf. rewrite decide_False; [exact Hp |]. intros [_ H]. congruence. }
    apply find_broken_hardlinks_In.
    split; [| split; [apply is_file_true; eauto | split; [exact Hext |]]].
    + apply reaches_anchored. apply reaches_anchored in Hreach as [Hpre Ha].
      split; [exact Hpre |]. apply Hanch; [| apply is_file_true; eauto | exact Ha].
      intros q Hq. eapply orphan_below_root; eassumption.
    + unfold st_nlink in *. rewrite Hp in Hn. rewrite Hp'. simpl in *.
      injection Hn as Hn. f_equal. rewrite <- Hn. unfold nlink. f_equal.
      apply map_filter_strong_ext_1. intros q x. split.
      * intros [Hx Hq]. split; [exact Hx | now apply Hkept].
      * intros [Hx Hq]. split; [exact Hx |]. simpl in Hx. subst x.
        assert (q = p) as -> by (eapply nlink_one_unique; eassumption).
        exact Hp'.
Qed.

End GuardedCleanup.

Section GuardedCleanupRuns.

Lemma X13_witness :
  (Guarded.cleanup_orphaned_files (Guarded.keeping rick_src) (Some (lit " Y ")) (tree 1)).1
  = inr tt
  ∧ (∀ p, In p (find_broken_hardlinks (tree 1)) →
          files (Guarded.cleanup_orphaned_files (Guarded.keeping rick_src)
                   (Some (lit " Y ")) (tree 1)).2 !! p
          = if Guarded.refuses (Guarded.keeping rick_src) (Guarded.Unlink p)
            then files (tree 1) !! p else None)
  ∧ (∀ p, In p (find_broken_hardlinks
                  (Guarded.cleanup_orphaned_files (Guarded.keeping rick_src)
                     (Some (lit " Y ")) (tree 1)).2)
          ↔ In p (find_broken_hardlinks (tree 1))
            ∧ Guarded.refuses (Guarded.keeping rick_src) (Guarded.Unlink p) = true).
Proof.
  apply (X13_confirmed_cleanup_is_complete (Guarded.keeping rick_src) (tree 1) (lit " Y ")).
  - intros p. split; reflexivity.
  - vm_compute. reflexivity.
Defined.

(** The two cases, computed on the staging tree with its one orphan. *)
Example guarded_cleanup_runs :
  find_broken_hardlinks
    (Guarded.cleanup_orphaned_files Guarded.obliging (Some (lit "y")) (tree 1)).2 = []
  ∧ find_broken_hardlinks
      (Guarded.cleanup_orphaned_files (Guarded.keeping rick_src) (Some (lit "y")) (tree 1)).2
    = [rick_src].
Proof. vm_compute. auto. Qed.

End GuardedCleanupRuns.

(** ** Where nothing fails

    In the environment that refuses nothing and logs every line, on a
    system whose log file exists, the functions of this part are those
    of [Linker] and [Cleanup]. *)

Section Obliging.

Lemma fresh_ino_unused (s : fs) (p : path) (ino : inode) :
  files s !! p = Some ino → (ino.2 < Guarded.fresh_ino s)%nat.
Proof.
  intros H. unfold Guarded.fresh_ino. apply Nat.lt_succ_r.
  assert (Hall : Forall (fun k => (k <= list_max (map (fun kv : path * inode => kv.2.2)
                                                     (map_to_list (files s))))%nat)
                   (map (fun kv : path * inode => kv.2.2) (map_to_list (files s))))
    by now apply list_max_le.
  rewrite List.Forall_forall in Hall. apply Hall.
  apply in_map_iff. exists (p, ino). split; [reflexivity |].
  apply list_elem_of_In, elem_of_map_to_list. exact H.
Qed.

Lemma obliging_guard {A} (c : Guarded.syscall) (m : M A) (s : fs) :
  Guarded.guard Guarded.obliging c m s = m s.
Proof. now apply guard_allowed. Qed.

Lemma obliging_mkdir_exist_ok (p : path) (s : fs) :
  Guarded.mkdir_exist_ok Guarded.obliging p s = mkdir_exist_ok p s.
Proof.
  unfold Guarded.mkdir_exist_ok, mkdir_exist_ok, try_except, Guarded.os_mkdir.
  rewrite obliging_guard. destruct (os_mkdir p s) as [[e | []] s1]; [| reflexivity].
  destruct e; try reflexivity; unfold bind, Guarded.path_is_dir;
    rewrite obliging_guard; reflexivity.
Qed.

Lemma obliging_mkdir_parents_rev (rp : path) (s : fs) :
  Guarded.mkdir_parents_rev Guarded.obliging rp s = mkdir_parents_rev rp s.
Proof.
  revert s. induction rp as [|c rp IH]; intros s;
    cbn [Guarded.mkdir_parents_rev mkdir_parents_rev]; cbv zeta;
    unfold try_except, Guarded.os_mkdir; rewrite obliging_guard.
  - destruct (os_mkdir (rev []) s) as [[e | []] s1]; [| reflexivity].
    destruct e; try reflexivity; unfold bind, Guarded.path_is_dir;
      rewrite obliging_guard; reflexivity.
  - destruct (os_mkdir (rev (c :: rp)) s) as [[e | []] s1]; [| reflexivity].
    destruct e; try (unfold bind, Guarded.path_is_dir; rewrite obliging_guard; reflexivity).
    unfold bind. rewrite IH. destruct (mkdir_parents_rev rp s1) as [[e | []] s2];
      [reflexivity | apply obliging_mkdir_exist_ok].
Qed.

Lemma obliging_log (m : Guarded.message) (s : fs) :
  is_file s Guarded.log_file = true → Guarded.log Guarded.obliging m s = (inr tt, s).
Proof. intros H. now apply log_appends. Qed.

Lemma obliging_create_hardlink (src dst : path) (s : fs) :
  is_file s Guarded.log_file = true →
  dst ≠ Guarded.log_file →
  Guarded.create_hardlink Guarded.obliging src dst s = create_hardlink src dst s.
Proof.
  intros Hlog Hne. rewrite create_hardlink_unfold.
  unfold Guarded.create_hardlink, try_except, bind, Guarded.mkdir_parents.
  rewrite obliging_mkdir_parents_rev. fold (mkdir_parents (parent dst)).
  pose proof (mkdir_parents_rev_grows (rev (parent dst)) s) as [Hfa _].
  fold (mkdir_parents (parent dst)) in Hfa.
  destruct (mkdir_parents (parent dst) s) as [[e | []] sa]; simpl in Hfa.
  { rewrite obliging_log; [reflexivity |]. unfold is_file. now rewrite Hfa. }
  assert (Hla : is_file sa Guarded.log_file = true) by (unfold is_file; now rewrite Hfa).
  unfold Guarded.path_exists. rewrite obliging_guard. cbn [bind get ret].
  unfold bind, get, ret. cbv beta iota.
  assert (Htail : ∀ sb, is_file sb Guarded.log_file = true →
            match Guarded.os_link Guarded.obliging src dst sb with
            | (inl e, sc) =>
                match Guarded.log Guarded.obliging
                        (Guarded.Failed_to_link (path_name src) e) sc with
                | (inl e0, sd) => (inl e0, sd)
                | (inr _, sd) => (inr false, sd)
                end
            | (inr _, sc) =>
                match Guarded.log Guarded.obliging
                        (Guarded.Hard_linked (path_name src) dst) sc with
                | (inl e, sd) =>
                    match Guarded.log Guarded.obliging
                            (Guarded.Failed_to_link (path_name src) e) sd with
                    | (inl e0, se) => (inl e0, se)
                    | (inr _, se) => (inr false, se)
                    end
                | (inr _, sd) => (inr true, sd)
                end
            end
            = match os_link src dst sb with
              | (inl _, sc) => (inr false, sc)
              | (inr _, sc) => (inr true, sc)
              end).
  { intros sb Hlb. unfold Guarded.os_link. rewrite obliging_guard.
    destruct (os_link_frame src dst sb) as [Hfc _].
    destruct (os_link src dst sb) as [[e | []] sc]; simpl in Hfc;
      (rewrite obliging_log; [reflexivity |]);
      apply is_file_true; rewrite Hfc by congruence; now apply is_file_true. }
  destruct (exists_ sa dst).
  - unfold Guarded.unlink. rewrite obliging_guard.
    destruct (unlink_frame dst sa) as [Hfb _].
    assert (Hlb : is_file (unlink dst sa).2 Guarded.log_file = true).
    { apply is_file_true. rewrite Hfb by congruence. now apply is_file_true. }
    destruct (unlink dst sa) as [[e | []] sb]; simpl in Hlb.
    + rewrite obliging_log by exact Hlb. reflexivity.
    + specialize (Htail sb Hlb).
      destruct (Guarded.os_link Guarded.obliging src dst sb) as [[e | []] sc];
        [destruct (Guarded.log _ _ sc) as [[e0 | []] sd]; exact Htail |].
      destruct (Guarded.log _ _ sc) as [[e | []] sd]; [| exact Htail].
      destruct (Guarded.log _ _ sd) as [[e0 | []] se]; exact Htail.
  - specialize (Htail sa Hla).
    destruct (Guarded.os_link Guarded.obliging src dst sa) as [[e | []] sc];
      [destruct (Guarded.log _ _ sc) as [[e0 | []] sd]; exact Htail |].
    destruct (Guarded.log _ _ sc) as [[e | []] sd]; [| exact Htail].
    destruct (Guarded.log _ _ sd) as [[e0 | []] se]; exact Htail.
Qed.

Lemma obliging_organize_file (file_path : path) (s : fs) :
  is_file s Guarded.log_file = true →
  dest_of file_path ≠ Some Guarded.log_file →
  Guarded.organize_file Guarded.obliging file_path s = organize_file file_path s.
Proof.
  intros Hlog Hne. unfold Guarded.organize_file, organize_file, bind. cbv zeta.
  rewrite !obliging_log by exact Hlog.
  destruct (dest_of file_path) as [d|]; [| reflexivity].
  apply obliging_create_hardlink; congruence.
Qed.

Lemma obliging_delete_orphan (p : path) (s : fs) :
  Guarded.delete_orphan Guarded.obliging p s = delete_orphan p s.
Proof.
  unfold Guarded.delete_orphan, delete_orphan, try_except, bind, Guarded.unlink.
  cbv zeta. rewrite obliging_guard.
  destruct (unlink p s) as [[e | []] s1]; [reflexivity |].
  destruct (bool_decide (parent p ≠ downloads_dir)); [| reflexivity].
  unfold Guarded.any_iterdir. rewrite obliging_guard.
  destruct (any_iterdir (parent p) s1) as [[e | nonempty] s2]; [reflexivity |].
  destruct nonempty; cbn [negb]; [reflexivity |].
  unfold Guarded.rmdir. rewrite obliging_guard. reflexivity.
Qed.

Lemma obliging_delete_all (orphaned : list path) (s : fs) :
  Guarded.delete_all Guarded.obliging orphaned s = delete_all orphaned s.
Proof.
  revert s. induction orphaned as [|p rest IH]; intros s; [reflexivity |].
  cbn [Guarded.delete_all delete_all]. unfold bind. rewrite obliging_delete_orphan.
  destruct (delete_orphan p s) as [[e | []] s1]; [reflexivity | apply IH].
Qed.

Lemma obliging_cleanup_orphaned_files (answer : option str) (s : fs) :
  Guarded.cleanup_orphaned_files Guarded.obliging answer s
  = cleanup_orphaned_files answer s.
Proof.
  unfold Guarded.cleanup_orphaned_files, cleanup_orphaned_files, bind, get.
  cbv beta iota. destruct (find_broken_hardlinks s) as [|p l]; [reflexivity |].
  destruct answer as [r|]; [| reflexivity].
  destruct (affirmative r); [apply obliging_delete_all | reflexivity].
Qed.

End Obliging.
